(** * Winux cursor theme generator: a shallow embedding of
      [themes/winux-cursors/src/generate-cursors.py]

    The Python script draws every cursor of the theme with Pillow and
    writes one PNG per (cursor, size[, frame]).  The embedding follows the
    script function by function:

    - Python floats are IEEE binary64 values ([PyFloat], on the Standard
      Library's executable specification [SpecFloat]); [int(x)] truncates.
    - Pillow images are mutable objects: they live in a store inside the
      [World], are addressed by reference, and hold the record of the
      Pillow calls that produced them ([Surface]).
    - Exceptions are the [Raised] outcome of the monad [M]; an exception
      keeps the world as it was when it was raised.
    - [math.cos], [math.sin] (libm), the rasteriser behind [ImageDraw] and
      the PNG encoder behind [Image.save] are outside the script: they are
      parameters ([Libm], [Rasterizer], the [encoder] of [main]). *)

From Stdlib Require Import ZArith Bool List String Ascii Lia.
From Stdlib Require Import Floats.SpecFloat.
From stdpp Require Import base list pretty.
Import ListNotations.
Local Open Scope string_scope.
Local Open Scope Z_scope.

(* ===================================================================== *)
(** * Python values *)
(* ===================================================================== *)

(** ** Exceptions *)

Inductive PyErr :=
| ValueError
| OverflowError
| ZeroDivisionError
| KeyError
| OSError
| FileExistsError.

Inductive result (A : Type) :=
| Ok (a : A)
| Err (e : PyErr).
Arguments Ok {A} a.
Arguments Err {A} e.

Definition rbind {A B} (r : result A) (k : A -> result B) : result B :=
  match r with
  | Ok a => k a
  | Err e => Err e
  end.

Definition is_ok {A} (r : result A) : bool :=
  match r with Ok _ => true | Err _ => false end.

(** ** Floats: IEEE 754 binary64, round to nearest even *)

Module PyFloat.

Definition float := spec_float.
Definition prec : Z := 53.
Definition emax : Z := 1024.

(** [float(z)] for an integer that fits (correctly rounded). *)
Definition of_Z (z : Z) : float := binary_normalize prec emax z 0 false.

Definition fmul : float -> float -> float := SFmul prec emax.
Definition fdiv : float -> float -> float := SFdiv prec emax.
Definition fadd : float -> float -> float := SFadd prec emax.
Definition fsub : float -> float -> float := SFsub prec emax.

(** An integer as an exact (unrounded) dyadic number. *)
Definition exact (z : Z) : float :=
  match z with
  | Z0 => S754_zero false
  | Zpos p => S754_finite false p 0
  | Zneg p => S754_finite true p 0
  end.

(** [a / b] on two Python ints: the correctly rounded quotient. *)
Definition py_truediv (a b : Z) : result float :=
  if b =? 0 then Err ZeroDivisionError
  else match fdiv (exact a) (exact b) with
       | S754_infinity _ => Err OverflowError
       | q => Ok q
       end.

(** [int(x)]: truncation toward zero. *)
Definition py_int (x : float) : result Z :=
  match x with
  | S754_zero _ => Ok 0
  | S754_finite s m e =>
      let a := match e with
               | Zneg p => Z.shiftr (Zpos m) (Zpos p)
               | _ => Z.shiftl (Zpos m) e
               end in
      Ok (if s then - a else a)
  | S754_infinity _ => Err OverflowError
  | S754_nan => Err ValueError
  end.

(** The float literals of the script. *)
Definition lit_0_5 : float := fdiv (of_Z 1) (of_Z 2).
Definition lit_0_7 : float := fdiv (of_Z 7) (of_Z 10).
Definition lit_0_8 : float := fdiv (of_Z 8) (of_Z 10).
Definition lit_1_5 : float := fdiv (of_Z 3) (of_Z 2).
Definition lit_2_5 : float := fdiv (of_Z 5) (of_Z 2).

(** [math.pi] = 0x1.921fb54442d18p+1. *)
Definition math_pi : float := S754_finite false 7074237752028440 (-51).

(** [int(c * s)] for an int [c] and a float [s]. *)
Definition int_mul (c : Z) (s : float) : result Z := py_int (fmul (of_Z c) s).

End PyFloat.
Export PyFloat.

(** libm, as far as the script uses it. *)
Record Libm := {
  math_cos : float -> float;
  math_sin : float -> float
}.

(* ===================================================================== *)
(** * Pillow *)
(* ===================================================================== *)

Definition RGB : Type := Z * Z * Z.
Definition RGBA : Type := Z * Z * Z * Z.
Definition Point : Type := Z * Z.
Definition Box : Type := Z * Z * Z * Z.

(** An RGB ink on an RGBA image is opaque. *)
Definition solid (c : RGB) : RGBA := let '(r, g, b) := c in (r, g, b, 255).

(** The [ImageDraw] primitives the script calls, with their arguments. *)
Inductive DrawOp :=
| Polygon (xy : list Point) (fill outline : option RGBA)
| Line (xy : list Point) (fill : RGBA) (width : Z)
| Rectangle (box : Box) (fill : option RGBA)
| RoundedRectangle (box : Box) (radius : Z) (fill outline : option RGBA)
| Ellipse (box : Box) (fill outline : option RGBA) (width : Z)
| Text (xy : Point) (text : string) (fill : RGBA).

(** The content of an image: how it was made. *)
Inductive Surface :=
| Blank (w h : Z)                                   (* Image.new('RGBA', (w, h), (0, 0, 0, 0)) *)
| Drawn (base : Surface) (op : DrawOp)              (* an ImageDraw call on it *)
| Band (k : nat) (src : Surface)                    (* src.split()[k] *)
| Filled (dst : Surface) (ink : RGBA) (mask : Surface)            (* dst.paste(ink, mask=mask) *)
| Blurred (radius : Z) (src : Surface)              (* src.filter(ImageFilter.GaussianBlur(radius)) *)
| Pasted (dst src : Surface) (at_ : Point) (mask : Surface).      (* dst.paste(src, at, mask) *)

(** [image.size] *)
Fixpoint surface_size (s : Surface) : Z * Z :=
  match s with
  | Blank w h => (w, h)
  | Drawn base _ => surface_size base
  | Band _ src => surface_size src
  | Filled dst _ _ => surface_size dst
  | Blurred _ src => surface_size src
  | Pasted dst _ _ _ => surface_size dst
  end.

(** The draw calls made directly on a surface, oldest first. *)
Fixpoint draw_ops (s : Surface) : list DrawOp :=
  match s with
  | Drawn base op => draw_ops base ++ [op]
  | _ => []
  end.

(** What the draw calls were made on. *)
Fixpoint canvas (s : Surface) : Surface :=
  match s with
  | Drawn base _ => canvas base
  | _ => s
  end.

(* ===================================================================== *)
(** * The world and the monad of the script *)
(* ===================================================================== *)

(** An image object is known by its reference: its index in the heap. *)
Abbreviation ref := nat.

Record World := {
  heap : list Surface;                 (* the images alive, by reference *)
  files : list (string * Surface);     (* the PNG files written, oldest first *)
  dirs : list string;                  (* os.makedirs *)
  stdout : list string                 (* print *)
}.

Definition empty_world : World :=
  {| heap := []; files := []; dirs := []; stdout := [] |}.

Definition set_heap (h : list Surface) (w : World) : World :=
  {| heap := h; files := files w; dirs := dirs w; stdout := stdout w |}.

Inductive Outcome (A : Type) :=
| Return (a : A) (w : World)
| Raised (e : PyErr) (w : World).
Arguments Return {A} a w.
Arguments Raised {A} e w.

Definition M (A : Type) : Type := World -> Outcome A.

Definition ret {A} (a : A) : M A := fun w => Return a w.
Definition raise {A} (e : PyErr) : M A := fun w => Raised e w.

Definition bind {A B} (m : M A) (k : A -> M B) : M B :=
  fun w => match m w with
           | Return a w' => k a w'
           | Raised e w' => Raised e w'
           end.

Definition lift {A} (r : result A) : M A :=
  match r with
  | Ok a => ret a
  | Err e => raise e
  end.

Declare Scope py_scope.
Delimit Scope py_scope with py.
Notation "'let*' x ':=' e 'in' k" := (bind e (fun x => k))
  (at level 10, x name, e at level 100, k at level 200) : py_scope.
Notation "'let*' ' p ':=' e 'in' k" := (bind e (fun x => match x with p => k end))
  (at level 10, p pattern, e at level 100, k at level 200) : py_scope.
Notation "'try*' x ':=' e 'in' k" := (bind (lift e) (fun x => k))
  (at level 10, x name, e at level 100, k at level 200) : py_scope.
Notation "e ';;' k" := (bind e (fun _ => k))
  (at level 100, k at level 200, right associativity, only parsing) : py_scope.
Local Open Scope py_scope.

(** [for x in xs: body(x)] *)
Fixpoint for_each {A} (xs : list A) (body : A -> M unit) : M unit :=
  match xs with
  | [] => ret tt
  | x :: rest => body x ;; for_each rest body
  end.

(** [range(n)] *)
Definition range (n : nat) : list Z := map Z.of_nat (seq 0 n).

(** ** Image operations *)

Definition alloc (s : Surface) : M ref :=
  fun w => Return (length (heap w)) (set_heap (heap w ++ [s]) w).

Definition deref (r : ref) : M Surface :=
  fun w => match heap w !! r with
           | Some s => Return s w
           | None => Raised ValueError w
           end.

Definition store (r : ref) (s : Surface) : M unit :=
  fun w => Return tt (set_heap (<[r := s]> (heap w)) w).

(** [Image.new('RGBA', (w, h), (0, 0, 0, 0))]: Pillow rejects negative
    dimensions with [ValueError] and accepts zero.  Memory is taken to
    suffice: the [MemoryError] of a surface too large to allocate is not
    modelled. *)
Definition Image_new (size : Z * Z) : M ref :=
  let '(w, h) := size in
  if (w <? 0) || (h <? 0) then raise ValueError else alloc (Blank w h).

Definition Image_size (img : ref) : M (Z * Z) :=
  let* s := deref img in ret (surface_size s).

(** [img.split()]: four fresh single-band images. *)
Definition Image_split (img : ref) : M (ref * ref * ref * ref) :=
  let* s := deref img in
  let* r := alloc (Band 0 s) in
  let* g := alloc (Band 1 s) in
  let* b := alloc (Band 2 s) in
  let* a := alloc (Band 3 s) in
  ret (r, g, b, a).

(** [dst.paste(ink, mask=mask)] *)
Definition Image_paste_ink (dst : ref) (ink : RGBA) (mask : ref) : M unit :=
  let* d := deref dst in
  let* m := deref mask in
  store dst (Filled d ink m).

(** [src.filter(ImageFilter.GaussianBlur(radius))]: a fresh image. *)
Definition Image_filter_GaussianBlur (src : ref) (radius : Z) : M ref :=
  let* s := deref src in alloc (Blurred radius s).

(** [dst.paste(src, at, mask)] *)
Definition Image_paste (dst src : ref) (at_ : Point) (mask : ref) : M unit :=
  let* d := deref dst in
  let* s := deref src in
  let* m := deref mask in
  store dst (Pasted d s at_ m).

(** [ImageDraw.Draw(img)]: the handle draws into [img] itself. *)
Definition ImageDraw_Draw (img : ref) : M ref := let* _ := deref img in ret img.

Definition draw_op (draw : ref) (op : DrawOp) : M unit :=
  let* s := deref draw in store draw (Drawn s op).

Definition draw_polygon (draw : ref) (xy : list Point) (fill outline : option RGBA) : M unit :=
  draw_op draw (Polygon xy fill outline).
Definition draw_line (draw : ref) (xy : list Point) (fill : RGBA) (width : Z) : M unit :=
  draw_op draw (Line xy fill width).
Definition draw_rectangle (draw : ref) (box : Box) (fill : option RGBA) : M unit :=
  draw_op draw (Rectangle box fill).
Definition draw_rounded_rectangle (draw : ref) (box : Box) (radius : Z)
    (fill outline : option RGBA) : M unit :=
  draw_op draw (RoundedRectangle box radius fill outline).
Definition draw_ellipse (draw : ref) (box : Box) (fill outline : option RGBA) (width : Z) : M unit :=
  draw_op draw (Ellipse box fill outline width).
Definition draw_text (draw : ref) (xy : Point) (text : string) (fill : RGBA) : M unit :=
  draw_op draw (Text xy text fill).

(* ===================================================================== *)
(** * generate-cursors.py *)
(* ===================================================================== *)

(** ** Configuration *)

Definition ACCENT_COLOR : RGB := (0, 212, 255).
Definition ACCENT_COLOR_DARK : RGB := (0, 170, 204).
Definition WHITE : RGB := (255, 255, 255).
Definition BLACK : RGB := (0, 0, 0).
Definition SHADOW_COLOR : RGBA := (0, 0, 0, 80).
Definition SIZES : list (string * Z) :=
  [("x1", 24); ("x1.25", 32); ("x1.5", 48); ("x2", 64)].
Definition OUTPUT_BASE : string := ".".

(** [s = size / 24] *)
Definition scale (size : Z) : result float := py_truediv size 24.

(** ** create_shadow *)

Definition create_shadow (image : ref) (offset : Point) (blur_radius : Z) : M ref :=
  let* size := Image_size image in
  let* shadow := Image_new size in
  let* shadow_draw := ImageDraw_Draw shadow in
  let* '(_, _, _, alpha) := Image_split image in
  Image_paste_ink shadow (0, 0, 0, 60) alpha ;;
  let* shadow := Image_filter_GaussianBlur shadow blur_radius in
  let* result := Image_new size in
  Image_paste result shadow offset shadow ;;
  Image_paste result image (0, 0) image ;;
  ret result.

(** ** Scaled coordinates

    Every generator starts with [s = size / 24] and writes a coordinate of
    the 24-unit design grid as [int(c * s)]. *)

(** [int(c * s)] for a float literal [c] *)
Definition int_fmul (c : float) (s : float) : result Z := py_int (fmul c s).

(** [(int(cx*s), int(cy*s))] *)
Definition scaled_point (s : float) (c : Z * Z) : result Point :=
  rbind (int_mul (fst c) s) (fun x =>
  rbind (int_mul (snd c) s) (fun y => Ok (x, y))).

Fixpoint scaled_points (s : float) (cs : list (Z * Z)) : result (list Point) :=
  match cs with
  | [] => Ok []
  | c :: rest =>
      rbind (scaled_point s c) (fun p =>
      rbind (scaled_points s rest) (fun ps => Ok (p :: ps)))
  end.

(** [[int(x0*s), int(y0*s), int(x1*s), int(y1*s)]] *)
Definition scaled_box (s : float) (c : Z * Z * Z * Z) : result Box :=
  let '(x0, y0, x1, y1) := c in
  rbind (int_mul x0 s) (fun a =>
  rbind (int_mul y0 s) (fun b =>
  rbind (int_mul x1 s) (fun c =>
  rbind (int_mul y1 s) (fun d => Ok (a, b, c, d))))).

(** [[cx - r, cy - r, cx + r, cy + r]] *)
Definition around (cx cy r : Z) : Box := (cx - r, cy - r, cx + r, cy + r).

(** ** generate_default *)

Definition generate_default (size : Z) : M ref :=
  let* img := Image_new (size, size) in
  let* draw := ImageDraw_Draw img in
  try* s := scale size in
  try* arrow_points :=
    scaled_points s [ (3, 3); (3, 19); (7, 15); (11, 20); (13, 18); (9, 13); (15, 13) ] in
  draw_polygon draw arrow_points (Some (solid WHITE)) (Some (solid BLACK)) ;;
  try* highlight_points := scaled_points s [ (3, 3); (3, 10) ] in
  try* w := py_int s in
  draw_line draw highlight_points (solid ACCENT_COLOR) (Z.max 1 w) ;;
  try* offset := scaled_point s (1, 1) in
  try* blur := int_mul 2 s in
  create_shadow img offset blur.

(** ** generate_pointer *)

Definition generate_pointer (size : Z) : M ref :=
  let* img := Image_new (size, size) in
  let* draw := ImageDraw_Draw img in
  try* s := scale size in
  try* palm := scaled_box s (4, 10, 18, 22) in
  try* palm_r := int_mul 3 s in
  draw_rounded_rectangle draw palm palm_r (Some (solid WHITE)) (Some (solid BLACK)) ;;
  try* index := scaled_box s (7, 2, 12, 12) in
  try* index_r := int_mul 2 s in
  draw_rounded_rectangle draw index index_r (Some (solid WHITE)) (Some (solid BLACK)) ;;
  for_each [13; 15; 17] (fun x =>
    try* finger := scaled_box s (x - 1, 10, x + 2, 16) in
    try* r := int_mul 1 s in
    draw_rounded_rectangle draw finger r (Some (solid WHITE)) (Some (solid BLACK))) ;;
  try* thumb := scaled_box s (2, 12, 6, 17) in
  try* thumb_r := int_mul 1 s in
  draw_rounded_rectangle draw thumb thumb_r (Some (solid WHITE)) (Some (solid BLACK)) ;;
  try* tip := scaled_box s (8, 2, 11, 5) in
  draw_ellipse draw tip (Some (solid ACCENT_COLOR)) (Some (solid ACCENT_COLOR_DARK)) 1 ;;
  try* offset := scaled_point s (1, 1) in
  try* blur := int_mul 2 s in
  create_shadow img offset blur.

(** ** generate_text *)

Definition generate_text (size : Z) : M ref :=
  let* img := Image_new (size, size) in
  let* draw := ImageDraw_Draw img in
  try* s := scale size in
  let center := size / 2 in
  try* bw := int_mul 2 s in
  let beam_width := Z.max 2 bw in
  try* serif_width := int_mul 6 s in
  try* sh := int_mul 2 s in
  let serif_height := Z.max 2 sh in
  try* y4 := int_mul 4 s in
  try* y20 := int_mul 20 s in
  draw_rectangle draw (center - beam_width / 2, y4, center + beam_width / 2, y20)
    (Some (solid BLACK)) ;;
  try* y3 := int_mul 3 s in
  draw_rectangle draw (center - serif_width / 2, y3, center + serif_width / 2, y3 + serif_height)
    (Some (solid BLACK)) ;;
  draw_rectangle draw (center - serif_width / 2, y20, center + serif_width / 2, y20 + serif_height)
    (Some (solid BLACK)) ;;
  try* h := int_mul 2 s in
  draw_rectangle draw (center - beam_width / 2, center - h, center + beam_width / 2, center + h)
    (Some (solid ACCENT_COLOR)) ;;
  ret img.

(** ** generate_wait_frame *)

(** [(2 * math.pi * i / num_dots) - math.pi/2] *)
Definition dot_angle (i num_dots : Z) : float :=
  fsub (fdiv (fmul (fmul (of_Z 2) math_pi) (of_Z i)) (of_Z num_dots))
       (fdiv math_pi (of_Z 2)).

(** [int(255 * (1 - offset / num_dots))] *)
Definition dot_opacity (offset num_dots : Z) : result Z :=
  rbind (py_truediv offset num_dots) (fun q =>
  int_mul 255 (fsub (of_Z 1) q)).

(** [int(channel * opacity/255 + gray * (1 - opacity/255))] *)
Definition gradient (channel opacity gray : Z) : result Z :=
  rbind (py_truediv (channel * opacity) 255) (fun accent =>
  rbind (py_truediv opacity 255) (fun q =>
  py_int (fadd accent (fmul (of_Z gray) (fsub (of_Z 1) q))))).

Definition generate_wait_frame (L : Libm) (size frame : Z) : M ref :=
  let* img := Image_new (size, size) in
  let* draw := ImageDraw_Draw img in
  try* s := scale size in
  let center := size / 2 in
  try* radius := int_mul 8 s in
  try* dr := int_fmul lit_1_5 s in
  let dot_radius := Z.max 2 dr in
  let num_dots := 12 in
  for_each (range 12) (fun i =>
    let angle := dot_angle i num_dots in
    try* dx := int_mul radius (math_cos L angle) in
    let x := center + dx in
    try* dy := int_mul radius (math_sin L angle) in
    let y := center + dy in
    let offset := (i - frame) mod num_dots in
    try* opacity := dot_opacity offset num_dots in
    let '(a0, a1, a2) := ACCENT_COLOR in
    try* r := gradient a0 opacity 100 in
    try* g := gradient a1 opacity 100 in
    try* b := gradient a2 opacity 100 in
    draw_ellipse draw (around x y dot_radius) (Some (r, g, b, Z.max 50 opacity)) None 1) ;;
  ret img.

(** ** generate_progress_frame *)

Definition generate_progress_frame (L : Libm) (size frame : Z) : M ref :=
  let* img := generate_default size in
  try* s := scale size in
  try* spinner_center_x := int_mul 16 s in
  try* spinner_center_y := int_mul 16 s in
  try* spinner_radius := int_mul 4 s in
  try* dr := int_fmul lit_0_8 s in
  let dot_radius := Z.max 1 dr in
  let num_dots := 8 in
  let* draw := ImageDraw_Draw img in
  for_each (range 8) (fun i =>
    let angle := dot_angle i num_dots in
    try* dx := int_mul spinner_radius (math_cos L angle) in
    let x := spinner_center_x + dx in
    try* dy := int_mul spinner_radius (math_sin L angle) in
    let y := spinner_center_y + dy in
    let offset := (i - frame) mod num_dots in
    try* opacity := dot_opacity offset num_dots in
    let '(a0, a1, a2) := ACCENT_COLOR in
    try* r := gradient a0 opacity 80 in
    try* g := gradient a1 opacity 80 in
    try* b := gradient a2 opacity 80 in
    draw_ellipse draw (around x y dot_radius) (Some (r, g, b, Z.max 80 opacity)) None 1) ;;
  ret img.

(** ** generate_help *)

Definition generate_help (size : Z) : M ref :=
  let* img := generate_default size in
  let* draw := ImageDraw_Draw img in
  try* s := scale size in
  try* qm_center_x := int_mul 16 s in
  try* qm_center_y := int_mul 16 s in
  try* qm_radius := int_mul 5 s in
  draw_ellipse draw (around qm_center_x qm_center_y qm_radius)
    (Some (solid ACCENT_COLOR)) (Some (solid ACCENT_COLOR_DARK)) 1 ;;
  try* tx := int_mul 2 s in
  try* ty := int_mul 4 s in
  draw_text draw (qm_center_x - tx, qm_center_y - ty) "?" (solid WHITE) ;;
  ret img.

(** ** generate_crosshair *)

Definition generate_crosshair (size : Z) : M ref :=
  let* img := Image_new (size, size) in
  let* draw := ImageDraw_Draw img in
  try* s := scale size in
  let center := size / 2 in
  try* line_length := int_mul 8 s in
  try* lw := int_mul 2 s in
  let line_width := Z.max 2 lw in
  try* gap := int_mul 3 s in
  draw_rectangle draw
    (center - line_length, center - line_width / 2, center - gap, center + line_width / 2)
    (Some (solid BLACK)) ;;
  draw_rectangle draw
    (center + gap, center - line_width / 2, center + line_length, center + line_width / 2)
    (Some (solid BLACK)) ;;
  draw_rectangle draw
    (center - line_width / 2, center - line_length, center + line_width / 2, center - gap)
    (Some (solid BLACK)) ;;
  draw_rectangle draw
    (center - line_width / 2, center + gap, center + line_width / 2, center + line_length)
    (Some (solid BLACK)) ;;
  try* dr := int_fmul lit_1_5 s in
  let dot_radius := Z.max 2 dr in
  draw_ellipse draw (around center center dot_radius)
    (Some (solid ACCENT_COLOR)) (Some (solid ACCENT_COLOR_DARK)) 1 ;;
  ret img.

(** ** generate_move *)

Definition generate_move (size : Z) : M ref :=
  let* img := Image_new (size, size) in
  let* draw := ImageDraw_Draw img in
  try* s := scale size in
  let center := size / 2 in
  try* arrow_size := int_mul 4 s in
  try* line_length := int_mul 6 s in
  let directions := [ (0, -1); (0, 1); (-1, 0); (1, 0) ] in
  for_each directions (fun '(dx, dy) =>
    let line_end_x := center + dx * line_length in
    let line_end_y := center + dy * line_length in
    try* lw := int_mul 2 s in
    draw_line draw [ (center, center); (line_end_x, line_end_y) ] (solid BLACK) (Z.max 2 lw) ;;
    let arrow_tip_x := center + dx * (line_length + arrow_size) in
    let arrow_tip_y := center + dy * (line_length + arrow_size) in
    let points :=
      if negb (dx =? 0)
      then [ (arrow_tip_x, arrow_tip_y);
             (line_end_x, line_end_y - arrow_size / 2);
             (line_end_x, line_end_y + arrow_size / 2) ]
      else [ (arrow_tip_x, arrow_tip_y);
             (line_end_x - arrow_size / 2, line_end_y);
             (line_end_x + arrow_size / 2, line_end_y) ] in
    draw_polygon draw points (Some (solid BLACK)) None) ;;
  try* dr := int_mul 2 s in
  let dot_radius := Z.max 2 dr in
  draw_ellipse draw (around center center dot_radius)
    (Some (solid ACCENT_COLOR)) (Some (solid ACCENT_COLOR_DARK)) 1 ;;
  ret img.

(** ** generate_not_allowed *)

Definition generate_not_allowed (size : Z) : M ref :=
  let* img := Image_new (size, size) in
  let* draw := ImageDraw_Draw img in
  try* s := scale size in
  let center := size / 2 in
  try* radius := int_mul 9 s in
  try* lw := int_fmul lit_2_5 s in
  let line_width := Z.max 2 lw in
  let RED : RGB := (220, 53, 69) in
  let RED_DARK : RGB := (185, 43, 58) in
  draw_ellipse draw (around center center radius) None (Some (solid RED)) line_width ;;
  try* offset := int_mul radius lit_0_7 in
  draw_line draw [ (center - offset, center - offset); (center + offset, center + offset) ]
    (solid RED) line_width ;;
  ret img.

(** ** generate_grab *)

Definition generate_grab (size : Z) : M ref :=
  let* img := Image_new (size, size) in
  let* draw := ImageDraw_Draw img in
  try* s := scale size in
  try* palm := scaled_box s (4, 10, 20, 22) in
  try* palm_r := int_mul 3 s in
  draw_rounded_rectangle draw palm palm_r (Some (solid WHITE)) (Some (solid BLACK)) ;;
  let finger_positions := [5; 8; 11; 14] in
  let finger_heights := [4; 2; 2; 4] in
  for_each (combine finger_positions finger_heights) (fun '(x, h) =>
    try* finger := scaled_box s (x, h, x + 3, 12) in
    try* r := int_mul 1 s in
    draw_rounded_rectangle draw finger r (Some (solid WHITE)) (Some (solid BLACK))) ;;
  try* thumb := scaled_box s (17, 8, 21, 14) in
  try* thumb_r := int_mul 1 s in
  draw_rounded_rectangle draw thumb thumb_r (Some (solid WHITE)) (Some (solid BLACK)) ;;
  try* offset := scaled_point s (1, 1) in
  try* blur := int_mul 2 s in
  create_shadow img offset blur.

(** ** generate_grabbing *)

Definition generate_grabbing (size : Z) : M ref :=
  let* img := Image_new (size, size) in
  let* draw := ImageDraw_Draw img in
  try* s := scale size in
  try* fist := scaled_box s (4, 8, 20, 20) in
  try* fist_r := int_mul 4 s in
  draw_rounded_rectangle draw fist fist_r (Some (solid WHITE)) (Some (solid BLACK)) ;;
  for_each [6; 10; 14] (fun x =>
    try* knuckle := scaled_box s (x, 6, x + 3, 10) in
    draw_ellipse draw knuckle (Some (solid WHITE)) (Some (solid BLACK)) 1) ;;
  try* thumb := scaled_box s (3, 12, 7, 18) in
  try* thumb_r := int_mul 1 s in
  draw_rounded_rectangle draw thumb thumb_r (Some (solid WHITE)) (Some (solid BLACK)) ;;
  try* offset := scaled_point s (1, 1) in
  try* blur := int_mul 2 s in
  create_shadow img offset blur.

(** ** generate_zoom_in *)

Definition generate_zoom_in (size : Z) : M ref :=
  let* img := Image_new (size, size) in
  let* draw := ImageDraw_Draw img in
  try* s := scale size in
  try* glass_center_x := int_mul 9 s in
  try* glass_center_y := int_mul 9 s in
  try* glass_radius := int_mul 6 s in
  try* gw := int_fmul lit_1_5 s in
  draw_ellipse draw (around glass_center_x glass_center_y glass_radius)
    (Some (solid WHITE)) (Some (solid BLACK)) (Z.max 2 gw) ;;
  try* hx := int_mul glass_radius lit_0_7 in
  let handle_start_x := glass_center_x + hx in
  try* hy := int_mul glass_radius lit_0_7 in
  let handle_start_y := glass_center_y + hy in
  try* handle_end := scaled_point s (20, 20) in
  try* hw := int_fmul lit_2_5 s in
  draw_line draw [ (handle_start_x, handle_start_y); handle_end ] (solid BLACK) (Z.max 3 hw) ;;
  try* plus_size := int_mul 3 s in
  try* lw := int_fmul lit_1_5 s in
  let line_width := Z.max 2 lw in
  draw_line draw
    [ (glass_center_x - plus_size, glass_center_y); (glass_center_x + plus_size, glass_center_y) ]
    (solid ACCENT_COLOR) line_width ;;
  draw_line draw
    [ (glass_center_x, glass_center_y - plus_size); (glass_center_x, glass_center_y + plus_size) ]
    (solid ACCENT_COLOR) line_width ;;
  try* offset := scaled_point s (1, 1) in
  try* blur := int_mul 2 s in
  create_shadow img offset blur.

(** ** generate_zoom_out *)

Definition generate_zoom_out (size : Z) : M ref :=
  let* img := Image_new (size, size) in
  let* draw := ImageDraw_Draw img in
  try* s := scale size in
  try* glass_center_x := int_mul 9 s in
  try* glass_center_y := int_mul 9 s in
  try* glass_radius := int_mul 6 s in
  try* gw := int_fmul lit_1_5 s in
  draw_ellipse draw (around glass_center_x glass_center_y glass_radius)
    (Some (solid WHITE)) (Some (solid BLACK)) (Z.max 2 gw) ;;
  try* hx := int_mul glass_radius lit_0_7 in
  let handle_start_x := glass_center_x + hx in
  try* hy := int_mul glass_radius lit_0_7 in
  let handle_start_y := glass_center_y + hy in
  try* handle_end := scaled_point s (20, 20) in
  try* hw := int_fmul lit_2_5 s in
  draw_line draw [ (handle_start_x, handle_start_y); handle_end ] (solid BLACK) (Z.max 3 hw) ;;
  try* minus_size := int_mul 3 s in
  try* lw := int_fmul lit_1_5 s in
  let line_width := Z.max 2 lw in
  draw_line draw
    [ (glass_center_x - minus_size, glass_center_y); (glass_center_x + minus_size, glass_center_y) ]
    (solid ACCENT_COLOR) line_width ;;
  try* offset := scaled_point s (1, 1) in
  try* blur := int_mul 2 s in
  create_shadow img offset blur.

(** ** generate_col_resize *)

Definition generate_col_resize (size : Z) : M ref :=
  let* img := Image_new (size, size) in
  let* draw := ImageDraw_Draw img in
  try* s := scale size in
  let center := size / 2 in
  try* arrow_size := int_mul 4 s in
  try* line_length := int_mul 6 s in
  try* lw := int_mul 2 s in
  let line_width := Z.max 2 lw in
  draw_rectangle draw
    (center - line_length, center - line_width / 2, center + line_length, center + line_width / 2)
    (Some (solid BLACK)) ;;
  draw_polygon draw
    [ (center - line_length - arrow_size, center);
      (center - line_length, center - arrow_size);
      (center - line_length, center + arrow_size) ] (Some (solid BLACK)) None ;;
  draw_polygon draw
    [ (center + line_length + arrow_size, center);
      (center + line_length, center - arrow_size);
      (center + line_length, center + arrow_size) ] (Some (solid BLACK)) None ;;
  try* dr := int_mul 1 s in
  let dot_radius := Z.max 1 dr in
  draw_ellipse draw (around center center dot_radius) (Some (solid ACCENT_COLOR)) None 1 ;;
  ret img.

(** ** generate_row_resize *)

Definition generate_row_resize (size : Z) : M ref :=
  let* img := Image_new (size, size) in
  let* draw := ImageDraw_Draw img in
  try* s := scale size in
  let center := size / 2 in
  try* arrow_size := int_mul 4 s in
  try* line_length := int_mul 6 s in
  try* lw := int_mul 2 s in
  let line_width := Z.max 2 lw in
  draw_rectangle draw
    (center - line_width / 2, center - line_length, center + line_width / 2, center + line_length)
    (Some (solid BLACK)) ;;
  draw_polygon draw
    [ (center, center - line_length - arrow_size);
      (center - arrow_size, center - line_length);
      (center + arrow_size, center - line_length) ] (Some (solid BLACK)) None ;;
  draw_polygon draw
    [ (center, center + line_length + arrow_size);
      (center - arrow_size, center + line_length);
      (center + arrow_size, center + line_length) ] (Some (solid BLACK)) None ;;
  try* dr := int_mul 1 s in
  let dot_radius := Z.max 1 dr in
  draw_ellipse draw (around center center dot_radius) (Some (solid ACCENT_COLOR)) None 1 ;;
  ret img.

(** ** generate_resize_arrow *)

(** [d[key]] on a dict literal *)
Fixpoint dict_get {V} (d : list (string * V)) (key : string) : result V :=
  match d with
  | [] => Err KeyError
  | (k, v) :: rest => if String.eqb k key then Ok v else dict_get rest key
  end.

(** [x in [...]] on strings *)
Definition str_in (x : string) (xs : list string) : bool := existsb (String.eqb x) xs.

Definition resize_directions_table : list (string * (Z * Z)) :=
  [ ("n", (0, -1)); ("s", (0, 1)); ("e", (1, 0)); ("w", (-1, 0));
    ("ne", (1, -1)); ("nw", (-1, -1)); ("se", (1, 1)); ("sw", (-1, 1)) ].

Definition generate_resize_arrow (size : Z) (direction : string) : M ref :=
  let* img := Image_new (size, size) in
  let* draw := ImageDraw_Draw img in
  try* s := scale size in
  let center := size / 2 in
  try* arrow_size := int_mul 5 s in
  try* lw := int_mul 2 s in
  let line_width := Z.max 2 lw in
  let directions := resize_directions_table in
  try* d := dict_get directions direction in
  let '(dx, dy) := d in
  try* length :=
    (if (Z.abs dx =? 1) && (Z.abs dy =? 1) then int_mul 8 s else int_mul 10 s) in
  let x1 := center - dx * length / 2 in
  let y1 := center - dy * length / 2 in
  let x2 := center + dx * length / 2 in
  let y2 := center + dy * length / 2 in
  draw_line draw [ (x1, y1); (x2, y2) ] (solid BLACK) line_width ;;
  for_each [ (x1, y1, -1); (x2, y2, 1) ] (fun '(end_x, end_y, dir_mult) =>
    try* points :=
      (if str_in direction ["n"; "s"] then
         Ok [ (end_x, end_y);
              (end_x - arrow_size, end_y - dir_mult * dy * arrow_size);
              (end_x + arrow_size, end_y - dir_mult * dy * arrow_size) ]
       else if str_in direction ["e"; "w"] then
         Ok [ (end_x, end_y);
              (end_x - dir_mult * dx * arrow_size, end_y - arrow_size);
              (end_x - dir_mult * dx * arrow_size, end_y + arrow_size) ]
       else
         let perp_dx := - dy in
         let perp_dy := dx in
         rbind (py_int (fadd (of_Z (end_x - dir_mult * dx * arrow_size))
                             (fmul (of_Z (perp_dx * arrow_size)) lit_0_5))) (fun ax =>
         rbind (py_int (fadd (of_Z (end_y - dir_mult * dy * arrow_size))
                             (fmul (of_Z (perp_dy * arrow_size)) lit_0_5))) (fun ay =>
         rbind (py_int (fsub (of_Z (end_x - dir_mult * dx * arrow_size))
                             (fmul (of_Z (perp_dx * arrow_size)) lit_0_5))) (fun bx =>
         rbind (py_int (fsub (of_Z (end_y - dir_mult * dy * arrow_size))
                             (fmul (of_Z (perp_dy * arrow_size)) lit_0_5))) (fun by_ =>
         Ok [ (end_x, end_y); (ax, ay); (bx, by_) ]))))) in
    draw_polygon draw points (Some (solid BLACK)) None) ;;
  ret img.

(** ** generate_all_scroll *)

Definition generate_all_scroll (size : Z) : M ref :=
  let* img := Image_new (size, size) in
  let* draw := ImageDraw_Draw img in
  try* s := scale size in
  let center := size / 2 in
  try* circle_radius := int_mul 4 s in
  try* cw := int_mul 1 s in
  draw_ellipse draw (around center center circle_radius)
    (Some (solid WHITE)) (Some (solid BLACK)) (Z.max 1 cw) ;;
  try* arrow_dist := int_mul 7 s in
  try* arrow_size := int_mul 3 s in
  draw_polygon draw
    [ (center, center - arrow_dist - arrow_size);
      (center - arrow_size, center - arrow_dist);
      (center + arrow_size, center - arrow_dist) ] (Some (solid BLACK)) None ;;
  draw_polygon draw
    [ (center, center + arrow_dist + arrow_size);
      (center - arrow_size, center + arrow_dist);
      (center + arrow_size, center + arrow_dist) ] (Some (solid BLACK)) None ;;
  draw_polygon draw
    [ (center - arrow_dist - arrow_size, center);
      (center - arrow_dist, center - arrow_size);
      (center - arrow_dist, center + arrow_size) ] (Some (solid BLACK)) None ;;
  draw_polygon draw
    [ (center + arrow_dist + arrow_size, center);
      (center + arrow_dist, center - arrow_size);
      (center + arrow_dist, center + arrow_size) ] (Some (solid BLACK)) None ;;
  try* dr := int_fmul lit_1_5 s in
  let dot_radius := Z.max 1 dr in
  draw_ellipse draw (around center center dot_radius) (Some (solid ACCENT_COLOR)) None 1 ;;
  ret img.

(** ** main *)

Definition print (line : string) : M unit :=
  fun w => Return tt {| heap := heap w; files := files w; dirs := dirs w;
                        stdout := stdout w ++ [line] |}.

(** [os.path.join] *)
Fixpoint os_path_join (parts : list string) : string :=
  match parts with
  | [] => ""
  | [p] => p
  | p :: rest => p ++ "/" ++ os_path_join rest
  end.

(** [os.makedirs(path, exist_ok=True)]: a directory that exists is left
    as it is; a regular file in its place is a [FileExistsError]. *)
Definition os_makedirs (path : string) : M unit :=
  fun w => if str_in path (map fst (files w))
           then Raised FileExistsError w
           else Return tt {| heap := heap w; files := files w;
                             dirs := if str_in path (dirs w) then dirs w else dirs w ++ [path];
                             stdout := stdout w |}.

(** [img.save(path, 'PNG')]: the encoder and the file system decide
    whether the write succeeds; a failure raises and leaves no file. *)
Definition Image_save (encoder : string -> Surface -> bool) (img : ref) (path : string) : M unit :=
  let* s := deref img in
  fun w => if encoder path s
           then Return tt {| heap := heap w; files := files w ++ [(path, s)];
                             dirs := dirs w; stdout := stdout w |}
           else Raised OSError w.

(** [f"{n:02d}"] *)
Definition format_02d (n : Z) : string :=
  let digits := pretty n in
  if (String.length digits <? 2)%nat then "0" ++ digits else digits.

Definition static_cursors : list (string * (Z -> M ref)) :=
  [ ("default", generate_default);
    ("pointer", generate_pointer);
    ("text", generate_text);
    ("help", generate_help);
    ("crosshair", generate_crosshair);
    ("move", generate_move);
    ("not-allowed", generate_not_allowed);
    ("grab", generate_grab);
    ("grabbing", generate_grabbing);
    ("zoom-in", generate_zoom_in);
    ("zoom-out", generate_zoom_out);
    ("col-resize", generate_col_resize);
    ("row-resize", generate_row_resize);
    ("all-scroll", generate_all_scroll) ].

Definition resize_directions : list string := ["n"; "s"; "e"; "w"; "ne"; "nw"; "se"; "sw"].

Definition num_frames : nat := 12.

Definition main (L : Libm) (encoder : string -> Surface -> bool) : M unit :=
  print "Generating Winux Cursor Theme..." ;;
  for_each (map fst SIZES) (fun size_name =>
    os_makedirs (os_path_join [OUTPUT_BASE; size_name])) ;;
  for_each static_cursors (fun '(cursor_name, generator) =>
    print ("  Generating " ++ cursor_name ++ "...") ;;
    for_each SIZES (fun '(size_name, size) =>
      let* img := generator size in
      let output_path := os_path_join [OUTPUT_BASE; size_name; cursor_name ++ ".png"] in
      Image_save encoder img output_path)) ;;
  for_each resize_directions (fun direction =>
    let cursor_name := direction ++ "-resize" in
    print ("  Generating " ++ cursor_name ++ "...") ;;
    for_each SIZES (fun '(size_name, size) =>
      let* img := generate_resize_arrow size direction in
      let output_path := os_path_join [OUTPUT_BASE; size_name; cursor_name ++ ".png"] in
      Image_save encoder img output_path)) ;;
  print "  Generating wait animation..." ;;
  for_each (range num_frames) (fun frame =>
    for_each SIZES (fun '(size_name, size) =>
      let* img := generate_wait_frame L size frame in
      let output_path :=
        os_path_join [OUTPUT_BASE; size_name; "wait-" ++ format_02d (frame + 1) ++ ".png"] in
      Image_save encoder img output_path)) ;;
  print "  Generating progress animation..." ;;
  for_each (range num_frames) (fun frame =>
    for_each SIZES (fun '(size_name, size) =>
      let* img := generate_progress_frame L size frame in
      let output_path :=
        os_path_join [OUTPUT_BASE; size_name; "progress-" ++ format_02d (frame + 1) ++ ".png"] in
      Image_save encoder img output_path)) ;;
  print "Done! Cursor images generated in src/".

Definition run {A} (m : M A) : Outcome A := m empty_world.

Definition world_of {A} (o : Outcome A) : World :=
  match o with Return _ w => w | Raised _ w => w end.

(** The surface a generator returns, run from the empty world. *)
Definition rendered (m : M ref) : option Surface :=
  match run m with
  | Return r w => heap w !! r
  | Raised _ _ => None
  end.

(* ===================================================================== *)
(** * A libm for evaluation *)
(* ===================================================================== *)

(** The only arguments the script passes to [math.cos] and [math.sin] are
    the ring angles [dot_angle i 12] and [dot_angle i 8].  [libm_table]
    lists them with the cosine and sine glibc returns; [tabulated_libm]
    answers from the table, and NaN elsewhere. *)

Definition float_same (a b : float) : bool :=
  match a, b with
  | S754_zero s, S754_zero t => Bool.eqb s t
  | S754_infinity s, S754_infinity t => Bool.eqb s t
  | S754_nan, S754_nan => true
  | S754_finite s m e, S754_finite t n f => Bool.eqb s t && Pos.eqb m n && Z.eqb e f
  | _, _ => false
  end.

Definition libm_table : list (float * (float * float)) :=
  [
    (S754_finite true 7074237752028440 (-52),
     (S754_finite false 4967757600021511 (-106),
      S754_finite true 4503599627370496 (-52)));
    (S754_finite true 4716158501352294 (-52),
     (S754_finite false 9007199254740990 (-54),
      S754_finite true 7800463371553963 (-53)));
    (S754_finite true 4716158501352294 (-53),
     (S754_finite false 7800463371553962 (-53),
      S754_finite true 4503599627370496 (-53)));
    (S754_zero false,
     (S754_finite false 4503599627370496 (-52),
      S754_zero false));
    (S754_finite false 4716158501352292 (-53),
     (S754_finite false 7800463371553963 (-53),
      S754_finite false 9007199254740989 (-54)));
    (S754_finite false 4716158501352294 (-52),
     (S754_finite false 9007199254740990 (-54),
      S754_finite false 7800463371553963 (-53)));
    (S754_finite false 7074237752028440 (-52),
     (S754_finite false 4967757600021511 (-106),
      S754_finite false 4503599627370496 (-52)));
    (S754_finite false 4716158501352293 (-51),
     (S754_finite true 9007199254740988 (-54),
      S754_finite false 7800463371553963 (-53)));
    (S754_finite false 5895198126690366 (-51),
     (S754_finite true 7800463371553961 (-53),
      S754_finite false 4503599627370499 (-53)));
    (S754_finite false 7074237752028440 (-51),
     (S754_finite true 4503599627370496 (-52),
      S754_finite false 4967757600021511 (-105)));
    (S754_finite false 8253277377366514 (-51),
     (S754_finite true 7800463371553962 (-53),
      S754_finite true 4503599627370497 (-53)));
    (S754_finite false 4716158501352293 (-50),
     (S754_finite true 4503599627370500 (-53),
      S754_finite true 7800463371553960 (-53)));
    (S754_finite true 7074237752028440 (-53),
     (S754_finite false 6369051672525773 (-53),
      S754_finite true 6369051672525772 (-53)));
    (S754_finite false 7074237752028440 (-53),
     (S754_finite false 6369051672525773 (-53),
      S754_finite false 6369051672525772 (-53)));
    (S754_finite false 5305678314021330 (-51),
     (S754_finite true 6369051672525772 (-53),
      S754_finite false 6369051672525773 (-53)));
    (S754_finite false 8842797190035550 (-51),
     (S754_finite true 6369051672525774 (-53),
      S754_finite true 6369051672525772 (-53)))
  ].

Fixpoint table_get (t : list (float * (float * float))) (x : float) : option (float * float) :=
  match t with
  | [] => None
  | (a, v) :: rest => if float_same a x then Some v else table_get rest x
  end.

Definition tabulated_libm : Libm :=
  {| math_cos := fun x => match table_get libm_table x with Some v => fst v | None => S754_nan end;
     math_sin := fun x => match table_get libm_table x with Some v => snd v | None => S754_nan end |}.

(* ===================================================================== *)
(** * Pixels *)
(* ===================================================================== *)

(** What Pillow's C core computes is outside the script.  The primitives
    of [ImageDraw] and the Gaussian blur are the two fields of a
    [Rasterizer]; pasting is modelled in full, since [create_shadow] is
    built on it. *)

Record Rasterizer := {
  (** the ink an [ImageDraw] call writes at a pixel of an image of the
      given size, if it touches that pixel (RGBA images are written, not
      blended) *)
  ink_at : DrawOp -> Z * Z -> Z -> Z -> option RGBA;
  (** [GaussianBlur(radius)] of a pixel array of the given size *)
  gaussian : Z -> Z * Z -> (Z -> Z -> RGBA) -> Z -> Z -> RGBA
}.

Definition transparent : RGBA := (0, 0, 0, 0).

Definition alpha_of (p : RGBA) : Z := snd p.

Definition channel (k : nat) (p : RGBA) : Z :=
  let '(r, g, b, a) := p in
  match k with
  | O => r
  | S O => g
  | S (S O) => b
  | _ => a
  end.

(** Pillow's [BLEND(mask, in1, in2)]: [in1*(255-mask) + in2*mask], divided
    by 255 with rounding. *)
Definition blend (mask below above : Z) : Z :=
  let tmp := below * (255 - mask) + above * mask + 128 in
  Z.shiftr (Z.shiftr tmp 8 + tmp) 8.

Definition blend_px (mask : Z) (below above : RGBA) : RGBA :=
  let '(r1, g1, b1, a1) := below in
  let '(r2, g2, b2, a2) := above in
  (blend mask r1 r2, blend mask g1 g2, blend mask b1 b2, blend mask a1 a2).

Definition inside (size : Z * Z) (x y : Z) : bool :=
  (0 <=? x) && (x <? fst size) && (0 <=? y) && (y <? snd size).

(** The pixel of a surface at [(x, y)].  A single band is held as four
    equal channels, so the value of a mask is always its fourth channel
    (the band itself for an 'L' mask, the alpha band for an RGBA mask).
    [paste] writes the pixels of the source that land inside the
    destination and nothing else. *)
Fixpoint pixel (R : Rasterizer) (s : Surface) (x y : Z) : RGBA :=
  match s with
  | Blank _ _ => transparent
  | Drawn base op =>
      match ink_at R op (surface_size base) x y with
      | Some c => c
      | None => pixel R base x y
      end
  | Band k src => let v := channel k (pixel R src x y) in (v, v, v, v)
  | Filled dst ink mask => blend_px (alpha_of (pixel R mask x y)) (pixel R dst x y) ink
  | Blurred radius src => gaussian R radius (surface_size src) (pixel R src) x y
  | Pasted dst src at_ mask =>
      let u := x - fst at_ in
      let v := y - snd at_ in
      if inside (surface_size src) u v
      then blend_px (alpha_of (pixel R mask u v)) (pixel R dst x y) (pixel R src u v)
      else pixel R dst x y
  end.

(** A rasteriser for evaluation: a primitive inks the bounding box of its
    coordinates with its fill (or outline), and the blur is the identity. *)
Definition bounding_box (op : DrawOp) : option (Box * RGBA) :=
  let of_points (xy : list Point) (c : RGBA) :=
    match xy with
    | [] => None
    | (x, y) :: rest =>
        Some (fold_left (fun '(x0, y0, x1, y1) '(px, py) =>
                           (Z.min x0 px, Z.min y0 py, Z.max x1 px, Z.max y1 py))
                        rest (x, y, x, y), c)
    end in
  let ink (fill outline : option RGBA) :=
    match fill with Some c => Some c | None => outline end in
  match op with
  | Polygon xy fill outline => c ← ink fill outline; of_points xy c
  | Line xy fill _ => of_points xy fill
  | Rectangle box fill => c ← fill; Some (box, c)
  | RoundedRectangle box _ fill outline => c ← ink fill outline; Some (box, c)
  | Ellipse box fill outline _ => c ← ink fill outline; Some (box, c)
  | Text xy _ fill => Some ((fst xy, snd xy, fst xy, snd xy), fill)
  end.

Definition box_rasterizer : Rasterizer :=
  {| ink_at := fun op size x y =>
       match bounding_box op with
       | Some ((x0, y0, x1, y1), c) =>
           if inside size x y && (x0 <=? x) && (x <=? x1) && (y0 <=? y) && (y <=? y1)
           then Some c else None
       | None => None
       end;
     gaussian := fun _ _ px => px |}.

(* ===================================================================== *)
(** * The drop shadow as a surface *)
(* ===================================================================== *)

(** The layer [create_shadow] blurs: ink [(0, 0, 0, 60)] through the alpha
    band of the image. *)
Definition shadow_layer (image : Surface) (blur_radius : Z) : Surface :=
  let '(w, h) := surface_size image in
  Blurred blur_radius (Filled (Blank w h) (0, 0, 0, 60) (Band 3 image)).

(** What [create_shadow] returns for an image. *)
Definition composite (image : Surface) (offset : Point) (blur_radius : Z) : Surface :=
  let '(w, h) := surface_size image in
  let shadow := shadow_layer image blur_radius in
  Pasted (Pasted (Blank w h) shadow offset shadow) image (0, 0) image.

(** The surface is the direct result of the shadow compositor. *)
Definition compositor_output (s : Surface) : Prop :=
  exists image offset blur_radius, s = composite image offset blur_radius.

(** The surface is raw: draw calls on a fresh transparent image of the
    target size, nothing composited into it. *)
Definition raw_surface (size : Z) (s : Surface) : Prop := canvas s = Blank size size.

(** The surface holds a composited shadow beneath its draw calls. *)
Definition holds_shadow (s : Surface) : Prop := compositor_output (canvas s).

(* ===================================================================== *)
(** * Vocabulary of the properties *)
(* ===================================================================== *)

(** The supported target sizes. *)
Definition sizes : list Z := map snd SIZES.

(** [c * size / 24] truncated toward zero. *)
Definition truncated (c size : Z) : Z := Z.quot (c * size) 24.

(** [c * size / 24] rounded to the nearest integer, ties toward positive
    infinity: the floor of [c * size / 24 + 1/2]. *)
Definition round_half_up (c size : Z) : Z := (2 * c * size + 24) / 48.

(** The draw calls on the first image a generator allocates (the raw
    drawing, before any shadow is composited). *)
Definition figure (m : M ref) : option (list DrawOp) :=
  match run m with
  | Return _ w => draw_ops <$> head (heap w)
  | Raised _ _ => None
  end.

(** The static cursors whose generator ends in [create_shadow]. *)
Definition shadowed_names : list string :=
  ["default"; "pointer"; "grab"; "grabbing"; "zoom-in"; "zoom-out"].

(** ** Mirror images of a drawing *)

Definition map_points (f : Point -> Point) (op : DrawOp) : DrawOp :=
  match op with
  | Polygon xy fill outline => Polygon (map f xy) fill outline
  | Line xy fill width => Line (map f xy) fill width
  | other => other
  end.

(** Flipping an image of height [size] top to bottom sends pixel row [y]
    to row [size - 1 - y]: the mirror image about the horizontal
    centerline of the surface. *)
Definition flip_about_centerline (size : Z) (p : Point) : Point := (fst p, size - 1 - snd p).

(** The mirror images about the pixel row and the pixel column [size // 2],
    on which the generators centre their drawings. *)
Definition flip_about_center_row (size : Z) (p : Point) : Point := (fst p, 2 * (size / 2) - snd p).
Definition flip_about_center_column (size : Z) (p : Point) : Point :=
  (2 * (size / 2) - fst p, snd p).

(** [l] without the first element equal to [x], if there is one. *)
Fixpoint remove_first {A} (eqb : A -> A -> bool) (x : A) (l : list A) : option (list A) :=
  match l with
  | [] => None
  | y :: rest => if eqb x y then Some rest else option_map (cons y) (remove_first eqb x rest)
  end.

(** The two lists hold the same elements, whatever the order. *)
Fixpoint same_members {A} (eqb : A -> A -> bool) (l1 l2 : list A) : bool :=
  match l1 with
  | [] => match l2 with [] => true | _ => false end
  | x :: rest =>
      match remove_first eqb x l2 with
      | Some l2' => same_members eqb rest l2'
      | None => false
      end
  end.

Definition point_eqb (p q : Point) : bool := (fst p =? fst q) && (snd p =? snd q).

(** Two draw calls show the same shape: the same vertices, whatever their
    order, in the same inks and with the same width. *)
Definition same_shape (a b : DrawOp) : bool :=
  match a, b with
  | Polygon p fill outline, Polygon q fill' outline' =>
      same_members point_eqb p q && bool_decide (fill = fill') && bool_decide (outline = outline')
  | Line p ink w, Line q ink' v =>
      same_members point_eqb p q && bool_decide (ink = ink') && (w =? v)
  | _, _ => false
  end.

(** Two drawings show the same figure: the same shapes, whatever the order
    of the calls. *)
Definition same_figure (a b : list DrawOp) : bool := same_members same_shape a b.

(** The drawing of a resize cursor. *)
Definition resize_figure (size : Z) (direction : string) : option (list DrawOp) :=
  figure (generate_resize_arrow size direction).

(** ** Scaled coordinates *)

(** At [size], [int(c * s)] is [c * size / 24] truncated, for every design
    coordinate [c] of the 24 x 24 grid. *)
Definition coordinate_truncates (size : Z) : bool :=
  match scale size with
  | Ok s =>
      forallb (fun c => match int_mul c s with
                        | Ok v => v =? truncated c size
                        | Err _ => false
                        end) (range 25)
  | Err _ => false
  end.

(** ** Opposite resize cursors *)

(** The drawing of [d2] is the image under [f size] of the drawing of
    [d1], call by call and vertex by vertex. *)
Definition mirrored_by (f : Z -> Point -> Point) (size : Z) (d1 d2 : string) : Prop :=
  exists a b,
    resize_figure size d1 = Some a /\ resize_figure size d2 = Some b
    /\ b = map (map_points (f size)) a.

(** A double-headed arrow: a black shaft from [p] to [q], then a filled
    black triangle with its tip on [p] and one with its tip on [q]. *)
Definition double_arrow (width : Z) (p q : Point) (head_p head_q : Point * Point)
  : list DrawOp :=
  [ Line [p; q] (solid BLACK) width;
    Polygon [p; fst head_p; snd head_p] (Some (solid BLACK)) None;
    Polygon [q; fst head_q; snd head_q] (Some (solid BLACK)) None ].

(** The middle of [p] and [q] is the pixel [(size // 2, size // 2)]. *)
Definition centred_on (size : Z) (p q : Point) : Prop :=
  fst p + fst q = 2 * (size / 2) /\ snd p + snd q = 2 * (size / 2).

(** [d1] and [d2] draw one and the same double-headed arrow, centred on
    the pixel [(size // 2, size // 2)], each from the end where the other
    ends it: the shaft of [d2] is the shaft of [d1] from [q] to [p], in
    the same ink and width, and its two arrowheads are the two triangles
    of [d1], the one on [q] first, with their other two vertices in the
    same or in the exchanged order. *)
Definition same_arrow (size : Z) (d1 d2 : string) : Prop :=
  exists width p q a b c d,
    resize_figure size d1 = Some (double_arrow width p q (a, b) (c, d))
    /\ (resize_figure size d2 = Some (double_arrow width q p (c, d) (a, b))
        \/ resize_figure size d2 = Some (double_arrow width q p (d, c) (b, a)))
    /\ centred_on size p q.

(** ** The shadow compositor *)

(** The shadow as it lands on pixel [(x, y)] of the result: the pixel
    [(x - dx, y - dy)] of the blurred layer over a transparent ground if
    that pixel exists, nothing otherwise. *)
Definition shadow_under (R : Rasterizer) (image : Surface) (offset : Point) (blur : Z)
    (x y : Z) : RGBA :=
  let u := x - fst offset in
  let v := y - snd offset in
  if inside (surface_size image) u v
  then let p := pixel R (shadow_layer image blur) u v in blend_px (alpha_of p) transparent p
  else transparent.

(** A world with one image: a 4 x 4 surface with a filled square. *)
Definition sample_image : Surface :=
  Drawn (Blank 4 4) (Rectangle (1, 1, 2, 2) (Some (solid WHITE))).

Definition sample_world : World :=
  {| heap := [sample_image]; files := []; dirs := []; stdout := [] |}.

(** ** Loops that draw, and the dots of a ring *)

Fixpoint collect {A B} (f : A -> result B) (xs : list A) : result (list B) :=
  match xs with
  | [] => Ok []
  | x :: rest => rbind (f x) (fun y => rbind (collect f rest) (fun ys => Ok (y :: ys)))
  end.

(** The surface after a list of draw calls. *)
Definition drawn_with (base : Surface) (ops : list DrawOp) : Surface := fold_left Drawn ops base.

(** The centre of dot [i] of a ring of [n] dots. *)
Definition ring_point (L : Libm) (cx cy radius n i : Z) : result Point :=
  rbind (int_mul radius (math_cos L (dot_angle i n))) (fun dx =>
  rbind (int_mul radius (math_sin L (dot_angle i n))) (fun dy =>
  Ok (cx + dx, cy + dy))).

(** The ink of a dot at ring offset [offset]: the accent colour faded
    toward [gray], with alpha [max(floor, opacity)]. *)
Definition dot_ink (offset n gray floor : Z) : result RGBA :=
  rbind (dot_opacity offset n) (fun opacity =>
  let '(a0, a1, a2) := ACCENT_COLOR in
  rbind (gradient a0 opacity gray) (fun r =>
  rbind (gradient a1 opacity gray) (fun g =>
  rbind (gradient a2 opacity gray) (fun b =>
  Ok (r, g, b, Z.max floor opacity))))).

(** The draw call for dot [i]. *)
Definition ring_dot (L : Libm) (cx cy radius dot_radius n gray floor frame i : Z)
  : result DrawOp :=
  rbind (ring_point L cx cy radius n i) (fun c =>
  rbind (dot_ink ((i - frame) mod n) n gray floor) (fun ink =>
  Ok (Ellipse (around (fst c) (snd c) dot_radius) (Some ink) None 1))).

(** ** Floats that stay finite *)

(** A float that is zero, or finite with mantissa below [2^D] and exponent
    at most [E]. *)
Definition small (D E : Z) (f : float) : Prop :=
  match f with
  | S754_zero _ => True
  | S754_finite _ m e => Zpos m < 2 ^ D /\ e <= E
  | _ => False
  end.

(** What the properties of the animated cursors ask of libm: on the
    angles of the two rings, cosine and sine are finite and below 2 in
    magnitude. *)
Definition libm_moderate (L : Libm) : Prop :=
  forall n i, n = 12 \/ n = 8 -> 0 <= i < n ->
    small 53 (-52) (math_cos L (dot_angle i n)) /\ small 53 (-52) (math_sin L (dot_angle i n)).

(** ** The ink of a dot, in integers *)

(** The accent colour at opacity [255 * (1 - offset/n)] over [gray], with
    the alpha clamped below at [floor]; all divisions round down. *)
Definition fade (n gray floor offset : Z) : RGBA :=
  let opacity := 255 * (n - offset) / n in
  let '(a0, a1, a2) := ACCENT_COLOR in
  ((a0 * opacity + gray * (255 - opacity)) / 255,
   (a1 * opacity + gray * (255 - opacity)) / 255,
   (a2 * opacity + gray * (255 - opacity)) / 255,
   Z.max floor opacity).

Definition rgba_eqb (p q : RGBA) : bool :=
  let '(r1, g1, b1, a1) := p in
  let '(r2, g2, b2, a2) := q in
  (r1 =? r2) && (g1 =? g2) && (b1 =? b2) && (a1 =? a2).

Definition ink_is_fade (n : nat) (gray floor : Z) : bool :=
  forallb (fun offset =>
             match dot_ink offset (Z.of_nat n) gray floor with
             | Ok c => rgba_eqb c (fade (Z.of_nat n) gray floor offset)
             | Err _ => false
             end) (range n).

(** The draw call for dot [i] once its centre is known. *)
Definition dot_at (n dot_radius gray floor frame i : Z) (c : Point) : DrawOp :=
  Ellipse (around (fst c) (snd c) dot_radius) (Some (fade n gray floor ((i - frame) mod n))) None 1.

(** ** Dots on a clock face *)

(** The alphas of the inks of the dots of a frame, dot 0 first. *)
Definition dot_alphas (m : M ref) : list Z :=
  match rendered m with
  | Some s => map (fun op => match op with
                             | Ellipse _ (Some ink) _ _ => alpha_of ink
                             | _ => 0
                             end) (draw_ops s)
  | None => []
  end.

(** The twelve hours of a clock face, 12 o'clock first and clockwise on
    the screen, where y grows downward: hour [i] lies at the angle
    [30 * i - 90] degrees.  The cosine and the sine of these angles are 0,
    1/2, sqrt(3)/2 or 1 in magnitude, that is sqrt(m)/2 with [m] among 0,
    1, 3, 4: each hour is given by the sign and the [m] of its cosine,
    then of its sine. *)
Definition clock_face : list ((Z * Z) * (Z * Z)) :=
  [ ((0, 0), (-1, 4)); ((1, 1), (-1, 3)); ((1, 3), (-1, 1));
    ((1, 4), (0, 0)); ((1, 3), (1, 1)); ((1, 1), (1, 3));
    ((0, 0), (1, 4)); ((-1, 1), (1, 3)); ((-1, 3), (1, 1));
    ((-1, 4), (0, 0)); ((-1, 3), (-1, 1)); ((-1, 1), (-1, 3)) ].

(** [d] is [sign * radius * sqrt(m)/2] cut to an integer toward zero, or
    one unit nearer to zero where that product is an integer: [d] has the
    sign, and [|d| <= radius * sqrt(m)/2 <= |d| + 1]. *)
Definition near_mark (radius : Z) (mark : Z * Z) (d : Z) : bool :=
  let '(sign, m) := mark in
  (0 <=? sign * d)
  && (4 * (d * d) <=? m * (radius * radius))
  && (m * (radius * radius) <=? 4 * ((Z.abs d + 1) * (Z.abs d + 1))).

(** The twelve points are evenly spaced on the circle of [radius] around
    [(centre, centre)], to the pixel: point [i] is the hour [i] of the
    clock face on that circle, each coordinate cut to an integer toward
    the centre. *)
Definition on_clock_face (centre radius : Z) (points : list Point) : bool :=
  (length points =? 12)%nat
  && forallb (fun '(hour, p) =>
                near_mark radius (fst hour) (fst p - centre)
                && near_mark radius (snd hour) (snd p - centre))
       (combine clock_face points).

(** ** The spinner of the progress cursor *)

(** The spinner drawn over the arrow by [generate_progress_frame]. *)
Definition progress_spinner (L : Libm) (size frame : Z) : option (list DrawOp) :=
  draw_ops <$> rendered (generate_progress_frame L size frame).

(** ** What a computation does to the files and to the log *)

(** [quiet]: neither the files nor the log change. *)
Definition quiet {A} (m : M A) : Prop :=
  forall w, files (world_of (m w)) = files w /\ stdout (world_of (m w)) = stdout w.

(** [w'] has the files and the log of [w], and possibly more after them. *)
Definition extends (w w' : World) : Prop :=
  files w `prefix_of` files w' /\ stdout w `prefix_of` stdout w'.

(** [grows]: files and log lines are only ever added, at the end. *)
Definition grows {A} (m : M A) : Prop := forall w, extends w (world_of (m w)).

(** ** Encoders *)

(** The encoder that writes every image. *)
Definition accepts_all : string -> Surface -> bool := fun _ _ => true.

(** The files written before the first one the encoder rejects. *)
Fixpoint accepted_prefix (encoder : string -> Surface -> bool) (fs : list (string * Surface))
  : list (string * Surface) :=
  match fs with
  | [] => []
  | (p, s) :: rest => if encoder p s then (p, s) :: accepted_prefix encoder rest else []
  end.

(** Every file in [fs] is one the encoder writes. *)
Definition accepted (encoder : string -> Surface -> bool)
  (fs : list (string * Surface)) : Prop :=
  forall p s, In (p, s) fs -> encoder p s = true.

(** How the outcome [o2] under [encoder] relates to the outcome [o1] of
    the same computation when every image is written: either nothing was
    rejected so far and the two are the same, or the run under [encoder]
    has stopped with [OSError] at the first rejected image, which the
    other run wrote and went on from. *)
Inductive follows (encoder : string -> Surface -> bool) {A} :
  Outcome A -> Outcome A -> Prop :=
| follows_same o :
    accepted encoder (files (world_of o)) -> follows encoder o o
| follows_stopped o1 w2 p s rest :
    files (world_of o1) = (files w2 ++ (p, s) :: rest)%list ->
    encoder p s = false ->
    accepted encoder (files w2) ->
    stdout w2 `prefix_of` stdout (world_of o1) ->
    follows encoder o1 (Raised OSError w2).

(** [m2] under [encoder] follows [m1] from every world whose files the
    encoder writes. *)
Definition respects (encoder : string -> Surface -> bool) {A} (m1 m2 : M A) : Prop :=
  forall w, accepted encoder (files w) -> follows encoder (m1 w) (m2 w).

(** The encoder that fails on one path and writes every other image. *)
Definition fails_on (path : string) : string -> Surface -> bool :=
  fun p _ => negb (String.eqb p path).

(* ===================================================================== *)
(** * Vocabulary of the further properties *)
(* ===================================================================== *)

(** ** Generators as total functions *)

(** The value of a result, 0 where there is none. *)
Definition value (r : result Z) : Z := match r with Ok z => z | Err _ => 0 end.

(** [int(c * s)] as a number. *)
Definition scaled_by (s : float) (c : Z) : Z := value (int_mul c s).

(** [m], run in [w], returns normally: it leaves the images, the files,
    the directories and the log of [w] as they were, allocates the images
    [xs] after them, and returns a reference to the one of these that
    holds [s]. *)
Definition yields (m : M ref) (w : World) (xs : list Surface) (s : Surface) : Prop :=
  exists i,
    m w = Return (length (heap w) + i)%nat (set_heap (heap w ++ xs)%list w)
    /\ xs !! i = Some s.

(** [m] returns a [size] x [size] image, the same from every world. *)
Definition renders (size : Z) (m : M ref) : Prop :=
  exists xs s, (forall w, yields m w xs s) /\ surface_size s = (size, size).

(** ** Transposed and reflected drawings *)

Definition swap_xy (p : Point) : Point := (snd p, fst p).

Definition transpose_box (b : Box) : Box := let '(x0, y0, x1, y1) := b in (y0, x0, y1, x1).

(** The draw call with the roles of x and y exchanged. *)
Definition transpose_op (op : DrawOp) : DrawOp :=
  match op with
  | Polygon xy fill outline => Polygon (map swap_xy xy) fill outline
  | Line xy fill width => Line (map swap_xy xy) fill width
  | Rectangle box fill => Rectangle (transpose_box box) fill
  | RoundedRectangle box radius fill outline =>
      RoundedRectangle (transpose_box box) radius fill outline
  | Ellipse box fill outline width => Ellipse (transpose_box box) fill outline width
  | Text xy text fill => Text (swap_xy xy) text fill
  end.

Definition reflect_point (c : Z) (p : Point) : Point := (2 * c - fst p, snd p).

(** The box reflected about the pixel column [c], left and right edge
    exchanged so that it stays a box. *)
Definition reflect_box (c : Z) (b : Box) : Box :=
  let '(x0, y0, x1, y1) := b in (2 * c - x1, y0, 2 * c - x0, y1).

(** The draw call reflected about the pixel column [c]. *)
Definition reflect_column (c : Z) (op : DrawOp) : DrawOp :=
  match op with
  | Polygon xy fill outline => Polygon (map (reflect_point c) xy) fill outline
  | Line xy fill width => Line (map (reflect_point c) xy) fill width
  | Rectangle box fill => Rectangle (reflect_box c box) fill
  | RoundedRectangle box radius fill outline =>
      RoundedRectangle (reflect_box c box) radius fill outline
  | Ellipse box fill outline width => Ellipse (reflect_box c box) fill outline width
  | Text xy text fill => Text (reflect_point c xy) text fill
  end.

(** The draw call reflected about the pixel row [c]. *)
Definition reflect_row (c : Z) (op : DrawOp) : DrawOp :=
  transpose_op (reflect_column c (transpose_op op)).

(** Two draw calls that draw the same shape: the same call, or the same
    triangle with its last two vertices exchanged. *)
Inductive congruent : DrawOp -> DrawOp -> Prop :=
| congruent_same op : congruent op op
| congruent_triangle a b c fill outline :
    congruent (Polygon [a; b; c] fill outline) (Polygon [a; c; b] fill outline).

(** The image under [f] of every shape of the drawing is a shape of the
    drawing. *)
Definition closed_under (f : DrawOp -> DrawOp) (ops : list DrawOp) : Prop :=
  forall op, In op ops -> exists op', In op' ops /\ congruent (f op) op'.

(** A raw drawing that is its own mirror image about the pixel column and
    the pixel row [size // 2], and its own transpose. *)
Definition four_fold (size : Z) (s : Surface) : Prop :=
  canvas s = Blank size size
  /\ closed_under (reflect_column (size / 2)) (draw_ops s)
  /\ closed_under (reflect_row (size / 2)) (draw_ops s)
  /\ closed_under transpose_op (draw_ops s).

(** A raw drawing that is its own mirror image about the pixel column and
    the pixel row [size // 2]. *)
Definition mirrored (size : Z) (s : Surface) : Prop :=
  canvas s = Blank size size
  /\ closed_under (reflect_column (size / 2)) (draw_ops s)
  /\ closed_under (reflect_row (size / 2)) (draw_ops s).

(** ** Coordinates on the surface *)

Definition box_corners (b : Box) : list Point :=
  let '(x0, y0, x1, y1) := b in [(x0, y0); (x1, y1)].

(** The coordinates a draw call hands to [ImageDraw]. *)
Definition op_points (op : DrawOp) : list Point :=
  match op with
  | Polygon xy _ _ => xy
  | Line xy _ _ => xy
  | Rectangle box _ => box_corners box
  | RoundedRectangle box _ _ _ => box_corners box
  | Ellipse box _ _ _ => box_corners box
  | Text xy _ _ => [xy]
  end.

(** Every draw call that went into a surface, the calls on the images
    pasted into it included. *)
Fixpoint drawing (s : Surface) : list DrawOp :=
  match s with
  | Blank _ _ => []
  | Drawn base op => drawing base ++ [op]
  | Band _ src => drawing src
  | Filled dst _ mask => drawing dst ++ drawing mask
  | Blurred _ src => drawing src
  | Pasted dst src _ mask => drawing dst ++ drawing src ++ drawing mask
  end.

(** [m] returns an image, and every coordinate of every draw call that
    went into it is a pixel of a [size] x [size] surface. *)
Definition drawn_inside (size : Z) (m : M ref) : bool :=
  match rendered m with
  | Some s =>
      forallb (fun op => forallb (fun p => inside (size, size) (fst p) (snd p)) (op_points op))
        (drawing s)
  | None => false
  end.

(** The check of [drawn_inside] on every cursor the script generates at
    [size], the animations with the tabulated sines and cosines. *)
Definition all_drawn_inside (size : Z) : bool :=
  forallb (fun c : string * (Z -> M ref) => drawn_inside size (snd c size)) static_cursors
  && forallb (fun direction => drawn_inside size (generate_resize_arrow size direction))
       resize_directions
  && forallb (fun frame =>
                drawn_inside size (generate_wait_frame tabulated_libm size frame)
                && drawn_inside size (generate_progress_frame tabulated_libm size frame))
       (range 12).

(** ** Pixel values *)

Definition is_byte (v : Z) : Prop := 0 <= v <= 255.

Definition is_bytes (p : RGBA) : Prop :=
  let '(r, g, b, a) := p in is_byte r /\ is_byte g /\ is_byte b /\ is_byte a.

(** ** What main writes *)

(** The cursors of the theme with their generators: the static cursors,
    the eight resize cursors, and the twelve frames of each animation. *)
Definition cursor_generators (L : Libm) : list (string * (Z -> M ref)) :=
  static_cursors
  ++ map (fun direction => (direction ++ "-resize",
                            fun size => generate_resize_arrow size direction))
       resize_directions
  ++ map (fun frame => ("wait-" ++ format_02d (frame + 1),
                        fun size => generate_wait_frame L size frame))
       (range num_frames)
  ++ map (fun frame => ("progress-" ++ format_02d (frame + 1),
                        fun size => generate_progress_frame L size frame))
       (range num_frames).

(** One entry per cursor and size, cursor by cursor: the path of the file,
    the size, and the call that generates the image. *)
Definition catalog (L : Libm) : list (string * Z * M ref) :=
  flat_map (fun '(name, g) =>
              map (fun '(size_name, size) =>
                     ("./" ++ size_name ++ "/" ++ name ++ ".png", size, g size))
                SIZES)
    (cursor_generators L).

Definition cursor_names : list string :=
  [ "default"; "pointer"; "text"; "help"; "crosshair"; "move"; "not-allowed"; "grab";
    "grabbing"; "zoom-in"; "zoom-out"; "col-resize"; "row-resize"; "all-scroll";
    "n-resize"; "s-resize"; "e-resize"; "w-resize";
    "ne-resize"; "nw-resize"; "se-resize"; "sw-resize";
    "wait-01"; "wait-02"; "wait-03"; "wait-04"; "wait-05"; "wait-06";
    "wait-07"; "wait-08"; "wait-09"; "wait-10"; "wait-11"; "wait-12";
    "progress-01"; "progress-02"; "progress-03"; "progress-04"; "progress-05"; "progress-06";
    "progress-07"; "progress-08"; "progress-09"; "progress-10"; "progress-11"; "progress-12" ].

(** The 184 paths, cursor by cursor and size by size. *)
Definition catalog_paths : list string :=
  flat_map (fun name =>
              map (fun size_name => "./" ++ size_name ++ "/" ++ name ++ ".png")
                [ "x1"; "x1.25"; "x1.5"; "x2" ])
    cursor_names.

(** The file [f] is the entry [e] of the catalog: it has its path, and it
    holds the image its generator renders, which has its size. *)
Definition written (e : string * Z * M ref) (f : string * Surface) : Prop :=
  let '(path, size, m) := e in
  fst f = path /\ rendered m = Some (snd f) /\ surface_size (snd f) = (size, size).

(** [m] returns normally from every world, having written the files
    [expected], in this order, and printed [lines]; the directories are
    as they were. *)
Definition emits (expected : list (string * Z * M ref)) (lines : list string) (m : M unit)
  : Prop :=
  forall w, exists w' new,
    m w = Return tt w'
    /\ files w' = (files w ++ new)%list
    /\ Forall2 written expected new
    /\ stdout w' = (stdout w ++ lines)%list
    /\ dirs w' = dirs w.

(** The 26 lines of the log: one per static and resize cursor, one per
    animation, between the opening and the closing line. *)
Definition main_log : list string :=
  [ "Generating Winux Cursor Theme..." ]
  ++ map (fun name => "  Generating " ++ name ++ "...") (take 22 cursor_names)
  ++ [ "  Generating wait animation..."; "  Generating progress animation...";
       "Done! Cursor images generated in src/" ].

(** The directories after [os.makedirs(path, exist_ok=True)]. *)
Definition makedir (ds : list string) (path : string) : list string :=
  if str_in path ds then ds else (ds ++ [path])%list.

Definition size_dirs : list string := [ "./x1"; "./x1.25"; "./x1.5"; "./x2" ].

(** ** The 24-unit design and its transform *)

(** The positions a surface was made with: the vertices, box corners and
    text anchors of its draw calls and the offsets of its pastes, in the
    order of the calls. *)
Fixpoint positions (s : Surface) : list Point :=
  match s with
  | Blank _ _ => []
  | Drawn base op => positions base ++ op_points op
  | Band _ src => positions src
  | Filled dst _ mask => positions dst ++ positions mask
  | Blurred _ src => positions src
  | Pasted dst src at_ mask => positions dst ++ positions src ++ at_ :: positions mask
  end.

(** [t] applied to both coordinates of a position of the design. *)
Definition transform (t : Z -> Z -> Z) (size : Z) (p : Point) : Point :=
  (t (fst p) size, t (snd p) size).

(** The design of a cursor is what its generator draws at size 24, where
    [s] is 1.0 and [int(c * s)] is [c].  [placed_by t g size]: every
    position of the cursor at [size] is the image under [t] of its
    position in the design. *)
Definition placed_by (t : Z -> Z -> Z) (g : Z -> M ref) (size : Z) : bool :=
  match rendered (g size), rendered (g 24) with
  | Some a, Some design => bool_decide (positions a = map (transform t size) (positions design))
  | _, _ => false
  end.

(** The cursors whose positions are the truncating transform of their
    design at every supported size. *)
Definition transformed_cursors : list string :=
  [ "default"; "pointer"; "not-allowed"; "grab"; "grabbing" ].

(** The check, on one cursor of the catalog, that its positions follow the
    truncating transform at every supported size exactly if it is one of
    [transformed_cursors]. *)
Definition classified (c : string * (Z -> M ref)) : bool :=
  Bool.eqb (forallb (placed_by truncated (snd c)) sizes) (str_in (fst c) transformed_cursors).

(* ===================================================================== *)
(** * Running the monad *)
(* ===================================================================== *)

Lemma bind_Return {A B} (m : M A) (k : A -> M B) w a w' :
  m w = Return a w' -> bind m k w = k a w'.
Proof. unfold bind. intros ->. reflexivity. Qed.

Lemma bind_Raised {A B} (m : M A) (k : A -> M B) w e w' :
  m w = Raised e w' -> bind m k w = Raised e w'.
Proof. unfold bind. intros ->. reflexivity. Qed.

Lemma bind_ext {A B} (m : M A) (k1 k2 : A -> M B) w :
  (forall a w', k1 a w' = k2 a w') -> bind m k1 w = bind m k2 w.
Proof. unfold bind. intros H. destruct (m w); auto. Qed.

Lemma for_each_ext {A} (xs : list A) (f g : A -> M unit) :
  (forall x w, f x w = g x w) -> forall w, for_each xs f w = for_each xs g w.
Proof.
  intros H. induction xs as [|x xs IH]; intros w; simpl; [reflexivity|].
  unfold bind. rewrite H. destruct (g x w); auto.
Qed.

Lemma str_in_In x xs : str_in x xs = true <-> In x xs.
Proof.
  unfold str_in. rewrite existsb_exists. split.
  - intros (y & Hy & E). apply String.eqb_eq in E. subst. exact Hy.
  - intros H. exists x. split; [exact H | apply String.eqb_refl].
Qed.

(** ** The heap as a base [h] and the cells [xs] allocated since *)

Section Grown.
Variables (w : World) (h xs : list Surface).
Hypothesis Hw : heap w = (h ++ xs)%list.

Lemma alloc_grown s :
  alloc s w = Return (length h + length xs)%nat (set_heap (h ++ (xs ++ [s])) w).
Proof. unfold alloc. rewrite Hw, length_app, <- app_assoc. reflexivity. Qed.

Lemma deref_grown i s :
  xs !! i = Some s -> deref (length h + i)%nat w = Return s w.
Proof.
  intros H. unfold deref. rewrite Hw, lookup_app_r by lia.
  replace (length h + i - length h)%nat with i by lia. rewrite H. reflexivity.
Qed.

Lemma deref_base r s :
  h !! r = Some s -> deref r w = Return s w.
Proof.
  intros H. unfold deref. rewrite Hw, lookup_app_l by (eapply lookup_lt_Some; eauto).
  rewrite H. reflexivity.
Qed.

Lemma store_grown i s :
  store (length h + i)%nat s w = Return tt (set_heap (h ++ <[i := s]> xs) w).
Proof. unfold store. rewrite Hw, insert_app_r. reflexivity. Qed.

Lemma Image_new_grown W H :
  0 <= W -> 0 <= H ->
  Image_new (W, H) w =
    Return (length h + length xs)%nat (set_heap (h ++ (xs ++ [Blank W H])) w).
Proof.
  intros HW HH. unfold Image_new.
  replace (W <? 0) with false by (symmetry; apply Z.ltb_ge; lia).
  replace (H <? 0) with false by (symmetry; apply Z.ltb_ge; lia).
  apply alloc_grown.
Qed.

Lemma Image_size_base r s :
  h !! r = Some s -> Image_size r w = Return (surface_size s) w.
Proof.
  intros H. unfold Image_size. erewrite bind_Return by (apply deref_base; eassumption).
  reflexivity.
Qed.

Lemma ImageDraw_Draw_grown i s :
  xs !! i = Some s -> ImageDraw_Draw (length h + i)%nat w = Return (length h + i)%nat w.
Proof.
  intros H. unfold ImageDraw_Draw. erewrite bind_Return by (apply deref_grown; eassumption).
  reflexivity.
Qed.

Lemma Image_filter_grown i s radius :
  xs !! i = Some s ->
  Image_filter_GaussianBlur (length h + i)%nat radius w =
    Return (length h + length xs)%nat (set_heap (h ++ (xs ++ [Blurred radius s])) w).
Proof.
  intros H. unfold Image_filter_GaussianBlur.
  erewrite bind_Return by (apply deref_grown; eassumption).
  apply alloc_grown.
Qed.

Lemma Image_paste_ink_grown i j d m ink :
  xs !! i = Some d -> xs !! j = Some m ->
  Image_paste_ink (length h + i)%nat ink (length h + j)%nat w =
    Return tt (set_heap (h ++ <[i := Filled d ink m]> xs) w).
Proof.
  intros Hd Hm. unfold Image_paste_ink.
  erewrite bind_Return by (apply deref_grown; eassumption).
  erewrite bind_Return by (apply deref_grown; eassumption).
  apply store_grown.
Qed.

Lemma Image_paste_grown i j d s at_ :
  xs !! i = Some d -> xs !! j = Some s ->
  Image_paste (length h + i)%nat (length h + j)%nat at_ (length h + j)%nat w =
    Return tt (set_heap (h ++ <[i := Pasted d s at_ s]> xs) w).
Proof.
  intros Hd Hm. unfold Image_paste.
  erewrite bind_Return by (apply deref_grown; eassumption).
  erewrite bind_Return by (apply deref_grown; eassumption).
  erewrite bind_Return by (apply deref_grown; eassumption).
  apply store_grown.
Qed.

Lemma Image_paste_base i r d s at_ :
  xs !! i = Some d -> h !! r = Some s ->
  Image_paste (length h + i)%nat r at_ r w =
    Return tt (set_heap (h ++ <[i := Pasted d s at_ s]> xs) w).
Proof.
  intros Hd Hm. unfold Image_paste.
  erewrite bind_Return by (apply deref_grown; eassumption).
  erewrite bind_Return by (apply deref_base; eassumption).
  erewrite bind_Return by (apply deref_base; eassumption).
  apply store_grown.
Qed.

Lemma Image_split_base r s :
  h !! r = Some s ->
  Image_split r w =
    Return (length h + length xs, length h + (length xs + 1),
            length h + (length xs + 2), length h + (length xs + 3))%nat
           (set_heap (h ++ (xs ++ [Band 0 s; Band 1 s; Band 2 s; Band 3 s])) w).
Proof.
  intros H. unfold Image_split.
  erewrite bind_Return by (apply deref_base; eassumption).
  unfold bind, alloc, ret, set_heap. simpl. rewrite Hw, !length_app. simpl.
  rewrite <- !app_assoc, <- !Nat.add_assoc. reflexivity.
Qed.
End Grown.

Lemma world_grown w : w = set_heap (heap w ++ []) w.
Proof. destruct w. unfold set_heap. simpl. rewrite app_nil_r. reflexivity. Qed.

Lemma create_shadow_run w image offset blur s :
  heap w !! image = Some s ->
  0 <= fst (surface_size s) -> 0 <= snd (surface_size s) ->
  create_shadow image offset blur w =
    Return (length (heap w) + 6)%nat
      (set_heap (heap w ++
         [ Filled (Blank (fst (surface_size s)) (snd (surface_size s))) (0, 0, 0, 60) (Band 3 s);
           Band 0 s; Band 1 s; Band 2 s; Band 3 s;
           shadow_layer s blur;
           composite s offset blur ]) w).
Proof.
  intros Hs Hw Hh.
  unfold composite, shadow_layer.
  destruct (surface_size s) as [W H] eqn:E. simpl in Hw, Hh. simpl fst; simpl snd.
  set (h := heap w) in *.
  rewrite (world_grown w) at 1. fold h.
  unfold create_shadow.
  erewrite bind_Return by (eapply Image_size_base; [reflexivity | eassumption]).
  rewrite E.
  erewrite bind_Return by (eapply Image_new_grown; [reflexivity | lia | lia]).
  erewrite bind_Return by (eapply ImageDraw_Draw_grown with (h := h); reflexivity).
  erewrite bind_Return by (eapply Image_split_base with (h := h); [reflexivity | eassumption]).
  cbv beta iota.
  erewrite bind_Return
    by (eapply Image_paste_ink_grown with (h := h) (i := 0%nat) (j := 4%nat); reflexivity).
  erewrite bind_Return by (eapply Image_filter_grown with (h := h) (i := 0%nat); reflexivity).
  erewrite bind_Return by (eapply Image_new_grown with (h := h); [reflexivity | lia | lia]).
  erewrite bind_Return
    by (eapply Image_paste_grown with (h := h) (i := 6%nat) (j := 5%nat); reflexivity).
  erewrite bind_Return
    by (eapply Image_paste_base with (h := h) (i := 6%nat) (r := image);
        [reflexivity | reflexivity | eassumption]).
  reflexivity.
Qed.

(** Reflection of decidable statements over [range]. *)
Lemma range_forall (P : Z -> bool) (n : nat) :
  forallb P (range n) = true -> forall c, 0 <= c < Z.of_nat n -> P c = true.
Proof.
  intros H c Hc. rewrite forallb_forall in H. apply H.
  unfold range. apply in_map_iff. exists (Z.to_nat c). split; [lia|].
  apply in_seq. lia.
Qed.

Lemma composite_intro image offset blur w h :
  surface_size image = (w, h) ->
  Pasted (Pasted (Blank w h)
            (Blurred blur (Filled (Blank w h) (0, 0, 0, 60) (Band 3 image))) offset
            (Blurred blur (Filled (Blank w h) (0, 0, 0, 60) (Band 3 image))))
         image (0, 0) image
  = composite image offset blur.
Proof. intros H. unfold composite, shadow_layer. rewrite H. reflexivity. Qed.

Lemma composite_is_pasted image offset blur :
  exists d s a m, composite image offset blur = Pasted d s a m.
Proof. unfold composite. destruct (surface_size image). eauto. Qed.

Lemma canvas_composite image offset blur :
  canvas (composite image offset blur) = composite image offset blur.
Proof.
  destruct (composite_is_pasted image offset blur) as (d & s & a & m & E).
  rewrite E. reflexivity.
Qed.

Lemma drawn_not_compositor base op : ~ compositor_output (Drawn base op).
Proof.
  intros (i & o & b & H). destruct (composite_is_pasted i o b) as (d & s & a & m & E).
  congruence.
Qed.

Lemma blank_not_compositor w h : ~ compositor_output (Blank w h).
Proof.
  intros (i & o & b & H). destruct (composite_is_pasted i o b) as (d & s & a & m & E).
  congruence.
Qed.

(* ===================================================================== *)
(** * Scaled coordinates (C1) *)
(* ===================================================================== *)

Lemma sizes_cases (P : Z -> Prop) :
  P 24 -> P 32 -> P 48 -> P 64 -> forall size, In size sizes -> P size.
Proof. intros H24 H32 H48 H64 size [<-|[<-|[<-|[<-|[]]]]]; assumption. Qed.

Lemma int_mul_truncates size c s :
  In size sizes -> 0 <= c <= 24 -> scale size = Ok s -> int_mul c s = Ok (truncated c size).
Proof.
  intros Hsize Hc Hs.
  assert (Hall : coordinate_truncates size = true).
  { clear Hs. revert size Hsize. apply sizes_cases; vm_compute; reflexivity. }
  unfold coordinate_truncates in Hall. rewrite Hs in Hall.
  pose proof (range_forall _ 25 Hall c ltac:(lia)) as H. cbv beta in H.
  destruct (int_mul c s); [|discriminate].
  apply Z.eqb_eq in H. congruence.
Qed.

(** C1, as stated, fails.  The conversion does not round: at size 32 the
    tail vertex (11, 20) of the default arrow is drawn at (14, 26), the
    truncation of (14.67, 26.67), where rounding to the nearest integer
    gives (15, 27).  And a hard-coded pixel value decides a position: the
    centre dot of the crosshair has the radius [max(2, int(1.5 * s))],
    which at size 24 is the minimum 2 ([int(1.5 * s)] is 1) and at size 48
    is 3, so that the box of the dot, (10, 10, 14, 14) in the 24-unit
    design, is (21, 21, 27, 27) at size 48, where the transform of its
    corners gives (20, 20, 28, 28), truncated or rounded. *)
Lemma pixels_outside_the_transform :
  ((exists tail rest3 rest shadow,
      figure (generate_default 32)
      = Some (Polygon (rest3 ++ tail :: rest) (Some (solid WHITE)) (Some (solid BLACK)) :: shadow)
      /\ length rest3 = 3%nat /\ tail = (14, 26))
   /\ (round_half_up 11 32, round_half_up 20 32) = (15, 27))
  /\ (exists s (ops24 ops48 : list DrawOp),
        scale 24 = Ok s /\ int_fmul lit_1_5 s = Ok 1
        /\ figure (generate_crosshair 24) = Some ops24
        /\ last ops24 = Some (Ellipse (10, 10, 14, 14) (Some (solid ACCENT_COLOR))
                                (Some (solid ACCENT_COLOR_DARK)) 1)
        /\ figure (generate_crosshair 48) = Some ops48
        /\ last ops48 = Some (Ellipse (21, 21, 27, 27) (Some (solid ACCENT_COLOR))
                                (Some (solid ACCENT_COLOR_DARK)) 1)
        /\ transform truncated 48 (10, 14) = (20, 28)
        /\ transform round_half_up 48 (10, 14) = (20, 28)).
Proof.
  split.
  - split; [|reflexivity].
    exists (14, 26), [(4, 4); (4, 25); (9, 20)], [(17, 24); (12, 17); (20, 17)].
    eexists. split; [vm_compute; reflexivity | split; reflexivity].
  - do 3 eexists.
    split; [vm_compute; reflexivity|].
    split; [vm_compute; reflexivity|].
    split; [vm_compute; reflexivity|].
    split; [vm_compute; reflexivity|].
    split; [vm_compute; reflexivity|].
    split; [vm_compute; reflexivity|].
    split; reflexivity.
Qed.

(** C1 (amended): the conversion truncates.  For every supported size, a
    canonical coordinate [c] of the 24-unit grid becomes [int(c * s)],
    which is [c * size / 24] truncated toward zero; in [generate_default]
    every vertex of the arrow and of its highlight, the shadow offset and
    the blur radius are of this form, and the highlight width is
    [max(1, int(s))].  Over the whole catalog (the 14 static cursors, the 8
    resize cursors and the 12 + 12 frames of the animations), the
    positions handed to Pillow (vertices, box corners, text anchors, paste
    offsets) are at every supported size the truncating transform of the
    positions of the 24-unit design for default, pointer, not-allowed,
    grab and grabbing, and for these only: every other cursor has a
    supported size at which a position is not the transform of its
    position in the design. *)
Theorem coordinates_truncate (size : Z) :
  In size sizes ->
  (forall c s, 0 <= c <= 24 -> scale size = Ok s -> int_mul c s = Ok (truncated c size))
  /\ rendered (generate_default size)
     = Some (composite
               (Drawn
                  (Drawn (Blank size size)
                     (Polygon
                        (map (transform truncated size)
                           [ (3, 3); (3, 19); (7, 15); (11, 20); (13, 18); (9, 13); (15, 13) ])
                        (Some (solid WHITE)) (Some (solid BLACK))))
                  (Line
                     (map (transform truncated size) [ (3, 3); (3, 10) ])
                     (solid ACCENT_COLOR) (Z.max 1 (truncated 1 size))))
               (transform truncated size (1, 1)) (truncated 2 size))
  /\ (forall name g, In (name, g) (cursor_generators tabulated_libm) ->
        (In name transformed_cursors -> placed_by truncated g size = true)
        /\ (~ In name transformed_cursors ->
              exists size', In size' sizes /\ placed_by truncated g size' = false)).
Proof.
  intros Hsize. split.
  - intros c s Hc Hs. apply int_mul_truncates; assumption.
  - split.
    + revert size Hsize. apply sizes_cases; vm_compute; reflexivity.
    + intros name g Hin.
      assert (Hall : forallb classified (cursor_generators tabulated_libm) = true)
        by (vm_compute; reflexivity).
      rewrite forallb_forall in Hall. specialize (Hall _ Hin).
      unfold classified in Hall. cbn [fst snd] in Hall. apply Bool.eqb_prop in Hall.
      split.
      * intros Hn. apply str_in_In in Hn. rewrite Hn in Hall.
        rewrite forallb_forall in Hall. apply Hall. exact Hsize.
      * intros Hn.
        destruct (forallb (placed_by truncated g) sizes) eqn:E.
        -- exfalso. apply Hn. apply str_in_In. symmetry. exact Hall.
        -- clear Hall. change sizes with [24; 32; 48; 64] in E |- *. cbn [forallb] in E.
           destruct (placed_by truncated g 24) eqn:E24; [|exists 24; simpl; auto].
           destruct (placed_by truncated g 32) eqn:E32; [|exists 32; simpl; auto].
           destruct (placed_by truncated g 48) eqn:E48; [|exists 48; simpl; auto].
           destruct (placed_by truncated g 64) eqn:E64; [|exists 64; simpl; auto 6].
           discriminate E.
Qed.

Lemma coordinates_truncate_witness :
  In 32 sizes
  /\ rendered (generate_default 32)
     = Some (composite
               (Drawn
                  (Drawn (Blank 32 32)
                     (Polygon
                        [ (4, 4); (4, 25); (9, 20); (14, 26); (17, 24); (12, 17); (20, 17) ]
                        (Some (solid WHITE)) (Some (solid BLACK))))
                  (Line [ (4, 4); (4, 13) ] (solid ACCENT_COLOR) 1))
               (1, 1) 2)
  /\ placed_by truncated generate_grab 32 = true
  /\ (exists size', In size' sizes /\ placed_by truncated generate_crosshair size' = false).
Proof.
  assert (Hin : In 32 sizes) by (vm_compute; auto).
  destruct (coordinates_truncate 32 Hin) as (_ & Hdefault & Hcatalog).
  split; [exact Hin|]. split; [exact Hdefault|]. split.
  - apply (proj1 (Hcatalog "grab" generate_grab ltac:(simpl; auto 10))). simpl; auto 6.
  - apply (proj2 (Hcatalog "crosshair" generate_crosshair ltac:(simpl; auto 10))).
    simpl. intros H. repeat (destruct H as [H|H]; [discriminate H|]). exact H.
Defined.

(* ===================================================================== *)
(** * Non-positive sizes (C3) *)
(* ===================================================================== *)

Lemma Image_new_negative size w : size < 0 -> Image_new (size, size) w = Raised ValueError w.
Proof.
  intros H. unfold Image_new. replace (size <? 0) with true by (symmetry; apply Z.ltb_lt; lia).
  reflexivity.
Qed.

Lemma generate_default_negative size w :
  size < 0 -> generate_default size w = Raised ValueError w.
Proof.
  intros H. unfold generate_default.
  erewrite bind_Raised by (apply Image_new_negative; assumption). reflexivity.
Qed.

Ltac fails_at_allocation H :=
  first
    [ erewrite bind_Raised by (apply Image_new_negative; exact H); reflexivity
    | erewrite bind_Raised by (apply generate_default_negative; exact H); reflexivity ].

Lemma generate_default_zero :
  scale 0 = Ok (S754_zero false)
  /\ exists r w', run (generate_default 0) = Return r w'
                  /\ surface_size <$> heap w' !! r = Some (0, 0).
Proof. split; [reflexivity|]. do 2 eexists. split; vm_compute; reflexivity. Qed.

(** C3, as stated, fails: the script has no check of the size and no
    [InvalidSizeError]; at size 0 nothing is raised, the scale factor is
    computed (0.0) and [generate_default] returns a surface. *)
Lemma zero_size_is_rendered :
  ~ (forall size, size <= 0 -> is_ok (scale size) = false)
  /\ ~ (forall size, size <= 0 -> exists e w, run (generate_default size) = Raised e w).
Proof.
  split; intros H.
  - specialize (H 0 ltac:(lia)). vm_compute in H. discriminate.
  - destruct (H 0 ltac:(lia)) as (e & w & Hraised).
    destruct generate_default_zero as (_ & r & w' & Hret & _). congruence.
Qed.

(** C3 (amended): for every target size below zero, every generator fails
    at its first statement, the allocation of the surface, with the
    [ValueError] of Pillow's [Image.new] (not an [InvalidSizeError], which
    the script does not have), and leaves the world as it was: no surface,
    no file.  Size 0 is not rejected: the scale factor is 0.0 and an empty
    surface is returned. *)
Theorem nonpositive_size_outcome (size : Z) (w : World) :
  size <= 0 ->
  (size < 0 ->
     (forall name g, In (name, g) static_cursors -> g size w = Raised ValueError w)
     /\ (forall direction, generate_resize_arrow size direction w = Raised ValueError w)
     /\ (forall L frame, generate_wait_frame L size frame w = Raised ValueError w)
     /\ (forall L frame, generate_progress_frame L size frame w = Raised ValueError w))
  /\ (size = 0 ->
      scale size = Ok (S754_zero false)
      /\ exists r w', run (generate_default size) = Return r w'
                      /\ surface_size <$> heap w' !! r = Some (0, 0)).
Proof.
  intros _. split.
  - intros H. repeat split.
    + intros name g Hin. unfold static_cursors in Hin. simpl in Hin.
      repeat (destruct Hin as [Hin|Hin]; [inversion Hin; subst g name; clear Hin|]);
        try contradiction.
      * apply generate_default_negative; assumption.
      * unfold generate_pointer. fails_at_allocation H.
      * unfold generate_text. fails_at_allocation H.
      * unfold generate_help. fails_at_allocation H.
      * unfold generate_crosshair. fails_at_allocation H.
      * unfold generate_move. fails_at_allocation H.
      * unfold generate_not_allowed. fails_at_allocation H.
      * unfold generate_grab. fails_at_allocation H.
      * unfold generate_grabbing. fails_at_allocation H.
      * unfold generate_zoom_in. fails_at_allocation H.
      * unfold generate_zoom_out. fails_at_allocation H.
      * unfold generate_col_resize. fails_at_allocation H.
      * unfold generate_row_resize. fails_at_allocation H.
      * unfold generate_all_scroll. fails_at_allocation H.
    + intros direction. unfold generate_resize_arrow. fails_at_allocation H.
    + intros L frame. unfold generate_wait_frame. fails_at_allocation H.
    + intros L frame. unfold generate_progress_frame. fails_at_allocation H.
  - intros ->. exact generate_default_zero.
Qed.

Lemma nonpositive_size_outcome_witness :
  -1 <= 0
  /\ (forall name g, In (name, g) static_cursors ->
                     g (-1) empty_world = Raised ValueError empty_world).
Proof.
  split; [lia|].
  apply (proj1 (nonpositive_size_outcome (-1) empty_world ltac:(lia))). lia.
Defined.

(* ===================================================================== *)
(** * Which cursors carry a shadow (C5) *)
(* ===================================================================== *)

Ltac is_compositor_output :=
  unfold compositor_output; do 3 eexists; apply composite_intro; reflexivity.

Ltac not_compositor_output H :=
  exfalso;
  first [ exact (drawn_not_compositor _ _ H) | exact (blank_not_compositor _ _ H) ].

Ltac decide_side :=
  first
    [ solve [ is_compositor_output ]
    | solve [ unfold holds_shadow; simpl canvas; is_compositor_output ]
    | solve [ unfold raw_surface; reflexivity ]
    | solve [ match goal with H : compositor_output _ |- _ => not_compositor_output H end ]
    | solve [ match goal with H : holds_shadow _ |- _ =>
                unfold holds_shadow in H; simpl canvas in H; not_compositor_output H end ]
    | solve [ match goal with H : raw_surface _ _ |- _ =>
                unfold raw_surface in H; simpl canvas in H; discriminate H end ]
    | solve [ match goal with H : ~ _ |- _ => exfalso; apply H; simpl; tauto end ]
    | solve [ simpl in *; intuition congruence ] ].

Lemma help_surface :
  exists arrow offset blur badge mark,
    rendered (generate_help 24) = Some (Drawn (Drawn (composite arrow offset blur) badge) mark)
    /\ raw_surface 24 arrow.
Proof.
  do 5 eexists. split.
  - vm_compute. do 3 f_equal. apply composite_intro. reflexivity.
  - reflexivity.
Qed.

(** C5, as stated, fails: the help cursor is drawn on the image
    [generate_default] returns, which is the arrow already composited with
    its shadow; its surface is not raw. *)
Lemma help_holds_shadow :
  exists s, rendered (generate_help 24) = Some s /\ holds_shadow s /\ ~ raw_surface 24 s.
Proof.
  destruct help_surface as (arrow & offset & blur & badge & mark & H & _).
  eexists. split; [exact H|]. split.
  - unfold holds_shadow. simpl canvas. rewrite canvas_composite. do 3 eexists. reflexivity.
  - unfold raw_surface. simpl canvas. rewrite canvas_composite.
    destruct (composite_is_pasted arrow offset blur) as (d & s & a & m & E).
    rewrite E. discriminate.
Qed.

(** C5 (amended): exactly the six static cursors default, pointer, grab,
    grabbing, zoom-in and zoom-out return the result of the shadow
    compositor.  The help cursor returns the image of [generate_default],
    which holds the arrow composited with its shadow, with its badge drawn
    on top.  The seven others (text, crosshair, move, not-allowed,
    col-resize, row-resize, all-scroll) return a raw surface. *)
Theorem shadow_by_cursor (name : string) (g : Z -> M ref) (size : Z) :
  In (name, g) static_cursors -> In size sizes ->
  exists s,
    rendered (g size) = Some s
    /\ (compositor_output s <-> In name shadowed_names)
    /\ (holds_shadow s <-> In name shadowed_names \/ name = "help")
    /\ (raw_surface size s <-> ~ (In name shadowed_names \/ name = "help")).
Proof.
  intros Hin Hsize. unfold static_cursors in Hin. simpl in Hin.
  repeat (destruct Hin as [Hin|Hin]; [inversion Hin; subst g name; clear Hin|]);
    try contradiction;
    revert size Hsize; apply sizes_cases;
    (eexists; split; [vm_compute; reflexivity|]);
    (split; [|split]); split; intros H; decide_side.
Qed.

Lemma shadow_by_cursor_witness :
  exists s,
    rendered (generate_text 24) = Some s
    /\ (compositor_output s <-> In "text" shadowed_names)
    /\ (holds_shadow s <-> In "text" shadowed_names \/ "text" = "help")
    /\ (raw_surface 24 s <-> ~ (In "text" shadowed_names \/ "text" = "help")).
Proof.
  apply (shadow_by_cursor "text" generate_text 24); [simpl; tauto | vm_compute; tauto].
Defined.

(* ===================================================================== *)
(** * Opposite resize cursors (C4) *)
(* ===================================================================== *)

(** The drawings of the n and s cursors at size 24: the same double-headed
    arrow on rows 7 to 17, centred on row 12. *)
Lemma resize_n_s_24 :
  resize_figure 24 "n"
  = Some [ Line [ (12, 17); (12, 7) ] (solid BLACK) 2;
           Polygon [ (12, 17); (7, 12); (17, 12) ] (Some (solid BLACK)) None;
           Polygon [ (12, 7); (7, 12); (17, 12) ] (Some (solid BLACK)) None ]
  /\ resize_figure 24 "s"
     = Some [ Line [ (12, 7); (12, 17) ] (solid BLACK) 2;
              Polygon [ (12, 7); (7, 12); (17, 12) ] (Some (solid BLACK)) None;
              Polygon [ (12, 17); (7, 12); (17, 12) ] (Some (solid BLACK)) None ].
Proof. split; vm_compute; reflexivity. Qed.

(** Where the scaled length of the shaft is odd, [dx * length // 2] rounds
    the two ends differently for the two signs of [dx]: at size 32 the
    shaft of n spans rows 9 to 23 and the shaft of s rows 10 to 22. *)
Lemma resize_n_s_32_shafts :
  (exists heads, resize_figure 32 "n" = Some (Line [ (16, 23); (16, 9) ] (solid BLACK) 2 :: heads))
  /\ (exists heads, resize_figure 32 "s" = Some (Line [ (16, 10); (16, 22) ] (solid BLACK) 2 :: heads)).
Proof. split; eexists; vm_compute; reflexivity. Qed.

(** C4, as stated, fails: at size 24 the s cursor flipped about the
    horizontal centerline of the surface (row [y] to row [23 - y]) lies on
    rows 6 to 16, one row above the n cursor. *)
Lemma resize_not_mirrored_about_centerline :
  exists a b,
    resize_figure 24 "n" = Some a /\ resize_figure 24 "s" = Some b
    /\ map (map_points (flip_about_centerline 24)) b
       = [ Line [ (12, 16); (12, 6) ] (solid BLACK) 2;
           Polygon [ (12, 16); (7, 11); (17, 11) ] (Some (solid BLACK)) None;
           Polygon [ (12, 6); (7, 11); (17, 11) ] (Some (solid BLACK)) None ]
    /\ same_figure (map (map_points (flip_about_centerline 24)) b) a = false.
Proof.
  destruct resize_n_s_24 as [Hn Hs].
  do 2 eexists. split; [exact Hn|]. split; [exact Hs|]. split; vm_compute; reflexivity.
Qed.

(** C4 (amended): at the supported sizes where the scaled length of the
    shaft is even, the two cursors of an opposite pair draw one and the
    same black double-headed arrow, whose shaft has its middle on the
    pixel [(size // 2, size // 2)]: each draws the shaft from the end
    where the other ends it, in the same width, and the same two filled
    triangles.  For {n, s} at sizes 24, 48 and 64 the drawing of s is,
    call by call, the mirror image of the drawing of n about the pixel row
    [size // 2] (not about the centerline of the surface, which lies half
    a pixel above it), and likewise for {e, w} about the pixel column
    [size // 2]; for {ne, sw} and {nw, se} this holds at sizes 24, 32 and
    48. *)
Theorem opposite_resize_cursors (size : Z) :
  (In size [24; 48; 64] ->
     mirrored_by flip_about_center_row size "n" "s"
     /\ mirrored_by flip_about_center_column size "e" "w"
     /\ same_arrow size "n" "s" /\ same_arrow size "e" "w")
  /\ (In size [24; 32; 48] ->
        same_arrow size "ne" "sw" /\ same_arrow size "nw" "se").
Proof.
  split; intros H; simpl in H;
    repeat (destruct H as [<-|H]; [|]); try contradiction;
    repeat split;
    try (do 2 eexists; split; [vm_compute; reflexivity | split; vm_compute; reflexivity]);
    do 7 eexists;
    (split; [vm_compute; reflexivity
            | split; [first [left; vm_compute; reflexivity | right; vm_compute; reflexivity]
                     | split; vm_compute; reflexivity]]).
Qed.

Lemma opposite_resize_cursors_witness :
  In 48 [24; 48; 64] /\ In 48 [24; 32; 48]
  /\ mirrored_by flip_about_center_row 48 "n" "s"
  /\ same_arrow 48 "ne" "sw".
Proof.
  split; [simpl; tauto|]. split; [simpl; tauto|]. split.
  - apply (proj1 (opposite_resize_cursors 48)). simpl; tauto.
  - apply (proj2 (opposite_resize_cursors 48)). simpl; tauto.
Defined.

(* ===================================================================== *)
(** * The shadow compositor (C7, C9) *)
(* ===================================================================== *)

Lemma surface_size_composite image offset blur :
  surface_size (composite image offset blur) = surface_size image.
Proof. unfold composite. destruct (surface_size image) as [w h] eqn:E. reflexivity. Qed.

Lemma surface_size_shadow_layer image blur :
  surface_size (shadow_layer image blur) = surface_size image.
Proof. unfold shadow_layer. destruct (surface_size image) as [w h] eqn:E. reflexivity. Qed.

Lemma pixel_composite R image offset blur x y :
  inside (surface_size image) x y = true ->
  pixel R (composite image offset blur) x y
  = blend_px (alpha_of (pixel R image x y))
             (shadow_under R image offset blur x y) (pixel R image x y).
Proof.
  intros Hin. unfold shadow_under.
  pose proof (surface_size_shadow_layer image blur) as Hsl.
  unfold composite. destruct (surface_size image) as [w h] eqn:E.
  cbn [pixel fst snd]. rewrite !Z.sub_0_r, E, Hin, Hsl. reflexivity.
Qed.

(** C7: the surface [create_shadow] returns has the width and the height
    of its input, whatever the offset and the blur radius; a pixel of the
    result receives the shadow pixel that lies [offset] up and left of it
    when that pixel is inside the surface, and no shadow at all otherwise:
    the shadow that is moved out of the surface is dropped, not wrapped
    around. *)
Theorem create_shadow_keeps_size (R : Rasterizer) (w : World) (image : ref)
    (offset : Point) (blur_radius : Z) (s : Surface) :
  heap w !! image = Some s ->
  0 <= fst (surface_size s) -> 0 <= snd (surface_size s) ->
  exists result w' out,
    create_shadow image offset blur_radius w = Return result w'
    /\ heap w' !! result = Some out
    /\ surface_size out = surface_size s
    /\ forall x y,
         inside (surface_size s) x y = true ->
         pixel R out x y
         = blend_px (alpha_of (pixel R s x y))
             (if inside (surface_size s) (x - fst offset) (y - snd offset)
              then let p := pixel R (shadow_layer s blur_radius) (x - fst offset) (y - snd offset) in
                   blend_px (alpha_of p) transparent p
              else transparent)
             (pixel R s x y).
Proof.
  intros Hs Hw Hh.
  exists (length (heap w) + 6)%nat. eexists. exists (composite s offset blur_radius).
  split; [apply create_shadow_run; eassumption|]. split.
  - cbn [heap set_heap]. rewrite lookup_app_r by lia.
    replace (length (heap w) + 6 - length (heap w))%nat with 6%nat by lia. reflexivity.
  - split; [apply surface_size_composite|].
    intros x y Hin. rewrite pixel_composite by assumption. reflexivity.
Qed.

Lemma create_shadow_keeps_size_witness :
  exists result w' out,
    create_shadow 0%nat (3, 3) 1 sample_world = Return result w'
    /\ heap w' !! result = Some out
    /\ surface_size out = (4, 4)
    /\ forall x y,
         inside (4, 4) x y = true ->
         pixel box_rasterizer out x y
         = blend_px (alpha_of (pixel box_rasterizer sample_image x y))
             (if inside (4, 4) (x - 3) (y - 3)
              then let p := pixel box_rasterizer (shadow_layer sample_image 1) (x - 3) (y - 3) in
                   blend_px (alpha_of p) transparent p
              else transparent)
             (pixel box_rasterizer sample_image x y).
Proof.
  apply (create_shadow_keeps_size box_rasterizer sample_world 0%nat (3, 3) 1 sample_image);
    [reflexivity | simpl; lia | simpl; lia].
Defined.

(** C9: [create_shadow] does not touch its input.  Every image that
    existed before the call, the input among them, is the same after it;
    the images the call writes to, the result among them, are allocated
    during the call; nothing else of the world changes. *)
Theorem create_shadow_preserves_input (w : World) (image : ref)
    (offset : Point) (blur_radius : Z) (s : Surface) :
  heap w !! image = Some s ->
  0 <= fst (surface_size s) -> 0 <= snd (surface_size s) ->
  exists result w',
    create_shadow image offset blur_radius w = Return result w'
    /\ heap w' !! image = Some s
    /\ take (length (heap w)) (heap w') = heap w
    /\ (length (heap w) <= result)%nat
    /\ heap w' !! result = Some (composite s offset blur_radius)
    /\ (forall R, pixel R <$> heap w' !! image = Some (pixel R s))
    /\ files w' = files w /\ dirs w' = dirs w /\ stdout w' = stdout w.
Proof.
  intros Hs Hw Hh.
  do 2 eexists. split; [apply create_shadow_run; eassumption|].
  cbn [heap files dirs stdout set_heap].
  assert (Himg : (heap w ++
      [Filled (Blank (fst (surface_size s)) (snd (surface_size s))) (0, 0, 0, 60) (Band 3 s);
       Band 0 s; Band 1 s; Band 2 s; Band 3 s; shadow_layer s blur_radius;
       composite s offset blur_radius])%list !! image = Some s).
  { rewrite lookup_app_l by (eapply lookup_lt_Some; eassumption). assumption. }
  repeat split.
  - exact Himg.
  - rewrite take_app_length. reflexivity.
  - lia.
  - rewrite lookup_app_r by lia.
    replace (length (heap w) + 6 - length (heap w))%nat with 6%nat by lia. reflexivity.
  - intros R. rewrite Himg. reflexivity.
Qed.

Lemma create_shadow_preserves_input_witness :
  exists result w',
    create_shadow 0%nat (3, 3) 1 sample_world = Return result w'
    /\ heap w' !! 0%nat = Some sample_image
    /\ take 1 (heap w') = [sample_image]
    /\ (1 <= result)%nat
    /\ heap w' !! result = Some (composite sample_image (3, 3) 1)
    /\ (forall R, pixel R <$> heap w' !! 0%nat = Some (pixel R sample_image))
    /\ files w' = [] /\ dirs w' = [] /\ stdout w' = [].
Proof.
  apply (create_shadow_preserves_input sample_world 0%nat (3, 3) 1 sample_image);
    [reflexivity | simpl; lia | simpl; lia].
Defined.

(* ===================================================================== *)
(** * The animated cursors (C2, C6, C10) *)
(* ===================================================================== *)

(** ** Loops that draw *)

Lemma draw_ops_drawn_with base ops : draw_ops (drawn_with base ops) = (draw_ops base ++ ops)%list.
Proof.
  unfold drawn_with. revert base. induction ops as [|op ops IH]; intros base; simpl.
  - rewrite app_nil_r. reflexivity.
  - rewrite IH. simpl. rewrite <- app_assoc. reflexivity.
Qed.

Lemma canvas_drawn_with base ops : canvas (drawn_with base ops) = canvas base.
Proof.
  unfold drawn_with. revert base. induction ops as [|op ops IH]; intros base; simpl; [reflexivity|].
  rewrite IH. reflexivity.
Qed.

Lemma draw_op_run img op w base :
  heap w !! img = Some base ->
  draw_op img op w = Return tt (set_heap (<[img := Drawn base op]> (heap w)) w).
Proof. intros H. unfold draw_op, bind, deref, store. rewrite H. reflexivity. Qed.

Lemma for_each_draw {A} (f : A -> result DrawOp) (img : ref) (xs : list A) :
  forall w base ops,
    heap w !! img = Some base ->
    collect f xs = Ok ops ->
    for_each xs (fun x => try* op := f x in draw_op img op) w
    = Return tt (set_heap (<[img := drawn_with base ops]> (heap w)) w).
Proof.
  induction xs as [|x xs IH]; intros w base ops Hbase Hops; simpl in *.
  - injection Hops as <-. unfold drawn_with, ret. simpl.
    rewrite list_insert_id by assumption. destruct w; reflexivity.
  - destruct (f x) as [op|e]; [|discriminate]. simpl in Hops.
    destruct (collect f xs) as [ops'|e]; [|discriminate]. injection Hops as <-.
    unfold bind at 1. unfold bind at 1. simpl lift. unfold ret at 1.
    rewrite (draw_op_run _ _ _ _ Hbase).
    erewrite IH; [| |reflexivity].
    + cbn [heap set_heap]. rewrite list_insert_insert_eq. reflexivity.
    + cbn [heap set_heap]. apply list_lookup_insert_eq. eapply lookup_lt_Some; eassumption.
Qed.

Lemma collect_length {A B} (f : A -> result B) xs ys :
  collect f xs = Ok ys -> length ys = length xs.
Proof.
  revert ys. induction xs as [|x xs IH]; intros ys H; simpl in H.
  - injection H as <-. reflexivity.
  - destruct (f x); [|discriminate]. simpl in H.
    destruct (collect f xs); [|discriminate]. injection H as <-. simpl. f_equal. auto.
Qed.

Lemma collect_lookup {A B} (f : A -> result B) xs ys i x :
  collect f xs = Ok ys -> xs !! i = Some x -> exists y, ys !! i = Some y /\ f x = Ok y.
Proof.
  revert ys i. induction xs as [|x0 xs IH]; intros ys i H Hx; simpl in H; [discriminate|].
  destruct (f x0) eqn:E; [|discriminate]. simpl in H.
  destruct (collect f xs) eqn:E'; [|discriminate]. injection H as <-.
  destruct i as [|i]; simpl in *.
  - injection Hx as <-. eauto.
  - eapply IH; eauto.
Qed.

(** ** The dots of a ring *)

Lemma Image_new_run size w :
  0 <= size ->
  Image_new (size, size) w
  = Return (length (heap w)) (set_heap (heap w ++ [Blank size size]) w).
Proof.
  intros H. unfold Image_new.
  replace (size <? 0) with false by (symmetry; apply Z.ltb_ge; lia). reflexivity.
Qed.

Lemma try_Ok {A B} (r : result A) (a : A) (k : A -> M B) w :
  r = Ok a -> bind (lift r) k w = k a w.
Proof. intros ->. reflexivity. Qed.

Lemma wait_frame_run (L : Libm) (size frame : Z) (w : World) s radius dr ops :
  0 <= size ->
  scale size = Ok s ->
  int_mul 8 s = Ok radius ->
  int_fmul lit_1_5 s = Ok dr ->
  collect (ring_dot L (size / 2) (size / 2) radius (Z.max 2 dr) 12 100 50 frame) (range 12)
  = Ok ops ->
  generate_wait_frame L size frame w
  = Return (length (heap w))
      (set_heap (heap w ++ [drawn_with (Blank size size) ops]) w).
Proof.
  intros Hsize Hs Hr Hd Hops. unfold generate_wait_frame.
  erewrite bind_Return by (apply Image_new_run; assumption).
  assert (Himg : heap (set_heap (heap w ++ [Blank size size]) w) !! length (heap w)
                 = Some (Blank size size)).
  { cbn [heap set_heap]. rewrite lookup_app_r by lia. rewrite Nat.sub_diag. reflexivity. }
  erewrite bind_Return by (unfold ImageDraw_Draw, bind, deref; rewrite Himg; reflexivity).
  erewrite try_Ok by exact Hs.
  erewrite try_Ok by exact Hr.
  erewrite try_Ok by exact Hd.
  erewrite bind_Return.
  2:{ erewrite for_each_ext.
      - eapply (for_each_draw _ _ _ _ _ _ Himg Hops).
      - intros i w0. unfold ring_dot, ring_point, dot_ink, bind, lift, rbind, ret, raise.
        cbv zeta.
        destruct (int_mul radius (math_cos L (dot_angle i 12))); [|reflexivity].
        destruct (int_mul radius (math_sin L (dot_angle i 12))); [|reflexivity].
        destruct (dot_opacity ((i - frame) mod 12) 12) as [opacity|]; [|reflexivity].
        unfold ACCENT_COLOR.
        destruct (gradient 0 opacity 100); [|reflexivity].
        destruct (gradient 212 opacity 100); [|reflexivity].
        destruct (gradient 255 opacity 100); [|reflexivity].
        reflexivity. }
  unfold ret. cbn [heap set_heap]. 
  replace (length (heap w)) with (length (heap w) + 0)%nat at 2 by lia.
  rewrite insert_app_r. reflexivity.
Qed.

(* ===================================================================== *)
(** * Floats that stay finite *)
(* ===================================================================== *)

(** The script multiplies and divides numbers of a few dozen bits; the
    lemmas below bound mantissas and exponents only as far as it takes to
    know that no operation overflows, so that [int(...)] succeeds. *)

Lemma small_weaken D E D' E' f : small D E f -> D <= D' -> 0 <= D -> E <= E' -> small D' E' f.
Proof.
  destruct f; simpl; try tauto. intros [Hm He] HD H0 HE. split; [|lia].
  eapply Z.lt_le_trans; [exact Hm|]. apply Z.pow_le_mono_r; lia.
Qed.

Lemma digits2_size p : digits2_pos p = Pos.size p.
Proof. induction p; simpl; congruence. Qed.

Lemma Zdigits2_log2 m : 0 < m -> Zdigits2 m = Z.log2 m + 1.
Proof.
  destruct m as [|p|p]; try lia. intros _. simpl. rewrite digits2_size.
  destruct p; simpl; lia.
Qed.

Lemma Zdigits2_upper m : 0 <= m -> m < 2 ^ Zdigits2 m.
Proof.
  intros H. destruct (Z.eq_dec m 0) as [->|Hne]; [reflexivity|].
  rewrite Zdigits2_log2 by lia. apply Z.log2_spec. lia.
Qed.

Lemma Zdigits2_nonneg m : 0 <= Zdigits2 m.
Proof. destruct m; simpl; lia. Qed.

Lemma Zdigits2_le m D : 0 <= m -> m < 2 ^ D -> 0 <= D -> Zdigits2 m <= D.
Proof.
  intros H Hm HD. destruct (Z.eq_dec m 0) as [->|Hne]; [simpl; lia|].
  rewrite Zdigits2_log2 by lia.
  assert (Z.log2 m < D); [|lia]. apply Z.log2_lt_pow2; lia.
Qed.

Lemma shr_1_half mrs : 0 <= shr_m mrs -> shr_m (shr_1 mrs) = shr_m mrs / 2.
Proof.
  destruct mrs as [m r s]. simpl. intros H.
  destruct m as [|[p|p|]|p]; simpl; try lia; try reflexivity.
  - apply Z.div_unique with (r := 1); lia.
  - apply Z.div_unique with (r := 0); lia.
Qed.

Lemma iter_shr_1 p : forall mrs,
  0 <= shr_m mrs -> shr_m (SpecFloat.iter_pos shr_1 p mrs) = shr_m mrs / 2 ^ Zpos p.
Proof.
  induction p as [p IH|p IH|]; intros mrs H; simpl SpecFloat.iter_pos.
  - assert (H1 : 0 <= shr_m (shr_1 mrs)) by (rewrite shr_1_half by lia; apply Z.div_pos; lia).
    assert (H2 : 0 <= shr_m (SpecFloat.iter_pos shr_1 p (shr_1 mrs)))
      by (rewrite IH by lia; apply Z.div_pos; [lia | apply Z.pow_pos_nonneg; lia]).
    rewrite IH, IH, shr_1_half by lia.
    rewrite !Z.div_div by (try apply Z.pow_pos_nonneg; lia).
    f_equal. change 2 with (2 ^ 1) at 1. rewrite <- !Z.pow_add_r by lia. f_equal. lia.
  - assert (H2 : 0 <= shr_m (SpecFloat.iter_pos shr_1 p mrs))
      by (rewrite IH by lia; apply Z.div_pos; [lia | apply Z.pow_pos_nonneg; lia]).
    rewrite IH, IH by lia.
    rewrite !Z.div_div by (try apply Z.pow_pos_nonneg; lia).
    f_equal. rewrite <- Z.pow_add_r by lia. f_equal. lia.
  - rewrite shr_1_half by lia. reflexivity.
Qed.

Lemma shr_record_of_loc_m m l : shr_m (shr_record_of_loc m l) = m.
Proof. destruct l as [|[| |]]; reflexivity. Qed.

Lemma shr_fexp_spec m e l mrs e' :
  0 <= m ->
  shr_fexp prec emax m e l = (mrs, e') ->
  e' = Z.max e (fexp prec emax (Zdigits2 m + e)) /\ shr_m mrs = m / 2 ^ (e' - e).
Proof.
  intros Hm. unfold shr_fexp, shr.
  destruct (fexp prec emax (Zdigits2 m + e) - e) as [|p|p] eqn:En; intros H; injection H as <- <-.
  - split; [lia|]. rewrite Z.sub_diag, shr_record_of_loc_m. simpl. rewrite Z.div_1_r. reflexivity.
  - split; [lia|]. rewrite iter_shr_1 by (rewrite shr_record_of_loc_m; lia).
    rewrite shr_record_of_loc_m. f_equal. f_equal. lia.
  - split; [lia|]. rewrite Z.sub_diag, shr_record_of_loc_m. simpl. rewrite Z.div_1_r. reflexivity.
Qed.

Lemma fexp_lower k : k - 53 <= fexp prec emax k.
Proof. unfold fexp, prec. lia. Qed.

Lemma fexp_eq k : fexp prec emax k = Z.max (k - 53) (-1074).
Proof. reflexivity. Qed.

Lemma round_nearest_even_bounds m l : m <= round_nearest_even m l <= m + 1.
Proof. unfold round_nearest_even. destruct l as [|[| |]]; try destruct (Z.even m); lia. Qed.

Lemma div_pow2_lt m n k : 0 <= m -> 0 <= n -> 0 <= k -> m < 2 ^ (n + k) -> m / 2 ^ n < 2 ^ k.
Proof.
  intros Hm Hn Hk H. apply Z.div_lt_upper_bound; [apply Z.pow_pos_nonneg; lia|].
  rewrite <- Z.pow_add_r by lia. assumption.
Qed.

Lemma binary_round_aux_small sx mx ex lx D E :
  0 <= mx -> mx < 2 ^ D -> 0 <= D -> ex <= E ->
  Z.max (Z.max E (D + E - 53)) (-1074) + 1 <= 971 ->
  small 54 (Z.max (Z.max E (D + E - 53)) (-1074) + 1) (binary_round_aux prec emax sx mx ex lx).
Proof.
  intros Hm HmD HD HE Hmax. unfold binary_round_aux.
  destruct (shr_fexp prec emax mx ex lx) as [mrs' e'] eqn:E1.
  destruct (shr_fexp_spec _ _ _ _ _ Hm E1) as [He' Hm'].
  pose proof (Zdigits2_le mx D Hm HmD HD) as Hd.
  pose proof (Zdigits2_nonneg mx) as Hd0.
  pose proof (Zdigits2_upper mx Hm) as Hup.
  rewrite fexp_eq in He'.
  assert (Hm'53 : 0 <= shr_m mrs' < 2 ^ 53).
  { rewrite Hm'. split; [apply Z.div_pos; [lia | apply Z.pow_pos_nonneg; lia]|].
    apply div_pow2_lt; try lia.
    eapply Z.lt_le_trans; [exact Hup|]. apply Z.pow_le_mono_r; lia. }
  pose proof (round_nearest_even_bounds (shr_m mrs') (loc_of_shr_record mrs')) as Hr.
  set (m1 := round_nearest_even (shr_m mrs') (loc_of_shr_record mrs')) in *.
  assert (Hm1 : 0 <= m1 < 2 ^ 54).
  { split; [lia|]. change (2 ^ 54) with (2 * 2 ^ 53). lia. }
  destruct (shr_fexp prec emax m1 e' loc_Exact) as [mrs'' e''] eqn:E2.
  destruct (shr_fexp_spec _ _ _ _ _ (proj1 Hm1) E2) as [He'' Hm''].
  pose proof (Zdigits2_le m1 54 (proj1 Hm1) (proj2 Hm1) ltac:(lia)) as Hd1.
  pose proof (Zdigits2_nonneg m1) as Hd10.
  rewrite fexp_eq in He''.
  assert (Hm''54 : 0 <= shr_m mrs'' < 2 ^ 54).
  { rewrite Hm''. split; [apply Z.div_pos; [lia | apply Z.pow_pos_nonneg; lia]|].
    eapply Z.le_lt_trans; [|exact (proj2 Hm1)].
    assert (0 < 2 ^ (e'' - e')) by (apply Z.pow_pos_nonneg; lia).
    apply Z.div_le_upper_bound; [lia | nia]. }
  destruct (shr_m mrs'') as [|m|m] eqn:Em; simpl.
  - exact I.
  - replace (e'' <=? emax - prec) with true by (symmetry; apply Z.leb_le; unfold emax, prec; lia).
    simpl. split; [lia | lia].
  - lia.
Qed.

Lemma fmul_small x y D1 E1 D2 E2 :
  small D1 E1 x -> small D2 E2 y -> 0 <= D1 -> 0 <= D2 ->
  Z.max (Z.max (E1 + E2) (D1 + D2 + (E1 + E2) - 53)) (-1074) + 1 <= 971 ->
  small 54 (Z.max (Z.max (E1 + E2) (D1 + D2 + (E1 + E2) - 53)) (-1074) + 1) (fmul x y).
Proof.
  intros Hx Hy HD1 HD2 Hb.
  destruct x as [sx|sx| |sx mx ex], y as [sy|sy| |sy my ey]; simpl in Hx, Hy; try tauto;
    try exact I.
  destruct Hx as [Hmx Hex], Hy as [Hmy Hey].
  unfold fmul, SFmul.
  apply binary_round_aux_small; try lia.
  rewrite Pos2Z.inj_mul, Z.pow_add_r by lia.
  apply Z.mul_lt_mono_nonneg; lia.
Qed.

Lemma py_int_small f D E :
  small D E f -> 0 <= D -> exists z, py_int f = Ok z /\ Z.abs z < 2 ^ (D + Z.max E 0).
Proof.
  intros Hf HD. destruct f as [s|s| |s m e]; simpl in Hf; try tauto.
  - exists 0. split; [reflexivity|]. simpl. apply Z.pow_pos_nonneg; lia.
  - destruct Hf as [Hm He]. unfold py_int.
    eexists. split; [reflexivity|].
    assert (Hbound : 0 <= match e with
                          | Z.neg p => Z.shiftr (Z.pos m) (Z.pos p)
                          | _ => Z.shiftl (Z.pos m) e
                          end < 2 ^ (D + Z.max E 0)).
    { assert (H2 : 2 ^ D <= 2 ^ (D + Z.max E 0)) by (apply Z.pow_le_mono_r; lia).
      destruct e as [|p|p].
      - rewrite Z.shiftl_0_r. lia.
      - rewrite Z.shiftl_mul_pow2 by lia.
        assert (0 < 2 ^ Z.pos p) by (apply Z.pow_pos_nonneg; lia).
        split; [lia|].
        replace (D + Z.max E 0) with (D + Z.pos p + (Z.max E 0 - Z.pos p)) by lia.
        rewrite Z.pow_add_r, Z.pow_add_r by lia.
        assert (1 <= 2 ^ (Z.max E 0 - Z.pos p)).
        { assert (0 < 2 ^ (Z.max E 0 - Z.pos p)) by (apply Z.pow_pos_nonneg; lia). lia. }
        assert (Z.pos m * 2 ^ Z.pos p < 2 ^ D * 2 ^ Z.pos p) by nia.
        assert (0 < 2 ^ D) by (apply Z.pow_pos_nonneg; lia).
        nia.
      - rewrite Z.shiftr_div_pow2 by lia.
        assert (0 < 2 ^ Z.pos p) by (apply Z.pow_pos_nonneg; lia).
        split; [apply Z.div_pos; lia|].
        eapply Z.le_lt_trans; [|eapply Z.lt_le_trans; [exact Hm | exact H2]].
        apply Z.div_le_upper_bound; [lia | nia]. }
    destruct s; lia.
Qed.

Lemma iter_xO m d : Z.pos (Pos.iter xO m d) = Z.pos m * 2 ^ Z.pos d.
Proof.
  induction d as [|d IH] using Pos.peano_ind.
  - simpl. lia.
  - rewrite Pos.iter_succ, Pos2Z.inj_xO, IH, Pos2Z.inj_succ, Z.pow_succ_r by lia. ring.
Qed.

Lemma of_Z_small z K :
  Z.abs z < 2 ^ K -> 53 <= K -> K - 52 <= 971 -> small 54 (K - 52) (of_Z z).
Proof.
  intros Hz HK Hb. unfold of_Z, binary_normalize.
  assert (Hround : forall s m, Z.pos m < 2 ^ K -> small 54 (K - 52) (binary_round prec emax s m 0)).
  { intros s m Hm. unfold binary_round, shl_align.
    pose proof (Zdigits2_upper (Z.pos m) ltac:(lia)) as Hup. simpl Zdigits2 in Hup.
    pose proof (Zdigits2_nonneg (Z.pos m)) as Hd0. simpl Zdigits2 in Hd0.
    rewrite Z.add_0_r, fexp_eq, Z.sub_0_r.
    replace (K - 52) with (Z.max (Z.max 0 (K + 0 - 53)) (-1074) + 1) by lia.
    destruct (Z.max (Z.pos (digits2_pos m) - 53) (-1074)) as [|d|d] eqn:Ed.
    - apply binary_round_aux_small; lia.
    - apply binary_round_aux_small; lia.
    - apply binary_round_aux_small; try lia.
      rewrite iter_xO.
      assert (Z.pos m * 2 ^ Z.pos d < 2 ^ Z.pos (digits2_pos m) * 2 ^ Z.pos d).
      { apply Z.mul_lt_mono_pos_r; [apply Z.pow_pos_nonneg; lia | lia]. }
      rewrite <- Z.pow_add_r in H by lia.
      eapply Z.lt_le_trans; [exact H|]. apply Z.pow_le_mono_r; lia. }
  destruct z as [|m|m]; [exact I | apply Hround; lia | apply Hround; lia].
Qed.

Lemma scale_small size :
  0 <= size < 2 ^ 31 -> exists s, scale size = Ok s /\ small 54 37 s.
Proof.
  intros Hsize. unfold scale, py_truediv. simpl (24 =? 0).
  destruct size as [|p|p]; try lia.
  - eexists. split; [reflexivity | exact I].
  - unfold fdiv, exact, SFdiv.
    destruct (SFdiv_core_binary prec emax (Z.pos p) 0 24 0) as [[mz ez] lz] eqn:Ecore.
    assert (Hcore : 0 <= mz < 2 ^ 89 /\ ez <= 0).
    { unfold SFdiv_core_binary in Ecore.
      pose proof (Zdigits2_nonneg (Z.pos p)) as Hd0.
      rewrite !Z.add_0_r, !Z.sub_0_r, fexp_eq in Ecore.
      set (e' := Z.min (Z.max (Zdigits2 (Z.pos p) - Zdigits2 24 - 53) (-1074)) 0) in *.
      assert (He' : -58 <= e' <= 0) by (subst e'; simpl (Zdigits2 24); lia).
      set (m' := match 0 - e' with
                 | 0 => Z.pos p
                 | Z.pos _ => Z.shiftl (Z.pos p) (0 - e')
                 | Z.neg _ => 0
                 end) in *.
      assert (Hm' : 0 <= m' < 2 ^ 89).
      { subst m'. destruct (0 - e') as [|q|q] eqn:Es.
        - split; [lia|]. eapply Z.lt_trans; [exact (proj2 Hsize)|]. reflexivity.
        - rewrite Z.shiftl_mul_pow2 by lia.
          assert (0 < 2 ^ Z.pos q) by (apply Z.pow_pos_nonneg; lia).
          split; [lia|].
          assert (2 ^ Z.pos q <= 2 ^ 58) by (apply Z.pow_le_mono_r; lia).
          change (2 ^ 89) with (2 ^ 31 * 2 ^ 58). nia.
        - split; [lia | reflexivity]. }
      pose proof (Z_div_mod m' 24 ltac:(lia)) as Hdm.
      destruct (Z.div_eucl m' 24) as [q r]. injection Ecore as <- <- <-.
      split; [nia | lia]. }
    destruct Hcore as [Hmz Hez].
    pose proof (binary_round_aux_small (xorb false false) mz ez lz 89 0
                  (proj1 Hmz) (proj2 Hmz) ltac:(lia) Hez ltac:(lia)) as Hs.
    simpl Z.max in Hs. simpl Z.add in Hs.
    destruct (binary_round_aux prec emax (xorb false false) mz ez lz) as [sg|sg| |sg m e] eqn:Er;
      simpl in Hs; try tauto.
    + eexists. split; [reflexivity | exact I].
    + eexists. split; [reflexivity | exact Hs].
Qed.

Lemma int_mul_scaled c s :
  small 54 37 s -> Z.abs c < 2 ^ 53 ->
  exists z, int_mul c s = Ok z /\ Z.abs z < 2 ^ 148.
Proof.
  intros Hs Hc. unfold int_mul.
  pose proof (of_Z_small c 53 Hc ltac:(lia) ltac:(lia)) as Hof. simpl Z.sub in Hof.
  pose proof (fmul_small _ _ 54 1 54 37 Hof Hs ltac:(lia) ltac:(lia) ltac:(simpl; lia)) as Hmul.
  simpl Z.add in Hmul. simpl Z.max in Hmul. simpl Z.add in Hmul.
  destruct (py_int_small _ _ _ Hmul ltac:(lia)) as (z & Hz & Hb).
  exists z. split; [exact Hz | exact Hb].
Qed.

Lemma int_fmul_scaled c s :
  small 54 1 c -> small 54 37 s -> exists z, int_fmul c s = Ok z.
Proof.
  intros Hc Hs. unfold int_fmul.
  pose proof (fmul_small _ _ 54 1 54 37 Hc Hs ltac:(lia) ltac:(lia) ltac:(simpl; lia)) as Hmul.
  destruct (py_int_small _ _ _ Hmul ltac:(lia)) as (z & Hz & _). eauto.
Qed.

Lemma int_mul_trig radius f :
  Z.abs radius < 2 ^ 148 -> small 53 (-52) f -> exists z, int_mul radius f = Ok z.
Proof.
  intros Hr Hf. unfold int_mul.
  pose proof (of_Z_small radius 148 Hr ltac:(lia) ltac:(lia)) as Hof. simpl Z.sub in Hof.
  pose proof (fmul_small _ _ 54 96 53 (-52) Hof Hf ltac:(lia) ltac:(lia) ltac:(simpl; lia)) as Hmul.
  destruct (py_int_small _ _ _ Hmul ltac:(lia)) as (z & Hz & _). eauto.
Qed.

Lemma tabulated_libm_moderate : libm_moderate tabulated_libm.
Proof.
  intros n i [-> | ->] Hi.
  - assert (Hc : i = 0 \/ i = 1 \/ i = 2 \/ i = 3 \/ i = 4 \/ i = 5 \/ i = 6 \/ i = 7
                 \/ i = 8 \/ i = 9 \/ i = 10 \/ i = 11) by lia.
    repeat (destruct Hc as [-> | Hc]); try subst i; vm_compute; repeat split; congruence.
  - assert (Hc : i = 0 \/ i = 1 \/ i = 2 \/ i = 3 \/ i = 4 \/ i = 5 \/ i = 6 \/ i = 7) by lia.
    repeat (destruct Hc as [-> | Hc]); try subst i; vm_compute; repeat split; congruence.
Qed.

Lemma in_range i n : In i (range n) -> 0 <= i < Z.of_nat n.
Proof.
  unfold range. rewrite in_map_iff. intros (k & <- & Hk). apply in_seq in Hk. lia.
Qed.

Lemma collect_total {A B} (f : A -> result B) xs :
  (forall x, In x xs -> exists y, f x = Ok y) -> exists ys, collect f xs = Ok ys.
Proof.
  induction xs as [|x xs IH]; intros H; simpl.
  - eauto.
  - destruct (H x ltac:(simpl; auto)) as (y & ->).
    destruct IH as (ys & ->); [intros; apply H; simpl; auto|]. simpl. eauto.
Qed.

Lemma ring_total L cx cy radius n :
  libm_moderate L -> n = 12%nat \/ n = 8%nat -> Z.abs radius < 2 ^ 148 ->
  exists centres, collect (ring_point L cx cy radius (Z.of_nat n)) (range n) = Ok centres.
Proof.
  intros HL Hn Hr. apply collect_total. intros i Hi. apply in_range in Hi.
  destruct (HL (Z.of_nat n) i ltac:(lia) Hi) as [Hcos Hsin].
  unfold ring_point.
  destruct (int_mul_trig radius _ Hr Hcos) as (dx & ->).
  destruct (int_mul_trig radius _ Hr Hsin) as (dy & ->).
  simpl. eauto.
Qed.

(** ** The ink of a dot, in integers *)

Lemma rgba_eqb_eq p q : rgba_eqb p q = true -> p = q.
Proof.
  destruct p as [[[r1 g1] b1] a1], q as [[[r2 g2] b2] a2]. unfold rgba_eqb.
  rewrite !andb_true_iff, !Z.eqb_eq. intros [[[-> ->] ->] ->]. reflexivity.
Qed.

Lemma dot_ink_fade (n : nat) gray floor offset :
  ink_is_fade n gray floor = true -> 0 <= offset < Z.of_nat n ->
  dot_ink offset (Z.of_nat n) gray floor = Ok (fade (Z.of_nat n) gray floor offset).
Proof.
  intros H Ho. pose proof (range_forall _ n H offset Ho) as Hc. cbv beta in Hc.
  destruct (dot_ink offset (Z.of_nat n) gray floor); [|discriminate].
  f_equal. apply rgba_eqb_eq. assumption.
Qed.

Lemma collect_ring_dot L cx cy radius dot_radius (n : nat) gray floor frame :
  ink_is_fade n gray floor = true -> (0 < n)%nat ->
  forall xs centres,
    collect (ring_point L cx cy radius (Z.of_nat n)) xs = Ok centres ->
    collect (ring_dot L cx cy radius dot_radius (Z.of_nat n) gray floor frame) xs
    = Ok (zip_with (dot_at (Z.of_nat n) dot_radius gray floor frame) xs centres).
Proof.
  intros Hink Hn. induction xs as [|x xs IH]; intros centres H; simpl in H |- *.
  - injection H as <-. reflexivity.
  - unfold ring_dot at 1.
    destruct (ring_point L cx cy radius (Z.of_nat n) x) as [c|]; [|discriminate]. simpl in H.
    destruct (collect (ring_point L cx cy radius (Z.of_nat n)) xs) as [cs|]; [|discriminate].
    injection H as <-. simpl rbind at 1.
    rewrite (dot_ink_fade n gray floor _ Hink) by (apply Z.mod_pos_bound; lia).
    simpl. rewrite (IH cs eq_refl). reflexivity.
Qed.

Lemma wait_frame_rendered (L : Libm) (size frame : Z) s radius dr centres :
  0 <= size ->
  scale size = Ok s ->
  int_mul 8 s = Ok radius ->
  int_fmul lit_1_5 s = Ok dr ->
  collect (ring_point L (size / 2) (size / 2) radius 12) (range 12) = Ok centres ->
  rendered (generate_wait_frame L size frame)
  = Some (drawn_with (Blank size size)
            (zip_with (dot_at 12 (Z.max 2 dr) 100 50 frame) (range 12) centres)).
Proof.
  intros Hsize Hs Hr Hd Hc. unfold rendered, run.
  erewrite wait_frame_run; try eassumption.
  - reflexivity.
  - apply (collect_ring_dot L _ _ _ _ 12 100 50 frame); [vm_compute; reflexivity | lia | exact Hc].
Qed.

Lemma wait_scale size :
  In size sizes ->
  exists s, scale size = Ok s
            /\ int_mul 8 s = Ok (truncated 8 size)
            /\ int_fmul lit_1_5 s = Ok (size / 16)
            /\ 0 <= size /\ Z.abs (truncated 8 size) < 2 ^ 148.
Proof.
  revert size. apply sizes_cases; eexists; repeat split; try (vm_compute; reflexivity);
    vm_compute; congruence.
Qed.

(** C6, as stated, fails in one point: the opacity does not decay going
    backward around the ring.  In frame 5 at size 24 the dot before dot 5,
    dot 4, is the dimmest of the ring, at the floor 50, and the dot after
    it, dot 6, is the brightest but one, at 233: from the opaque dot the
    opacity decays going forward, with the dot index. *)
Lemma wait_opacity_decays_forward :
  dot_alphas (generate_wait_frame tabulated_libm 24 5)
  = [ 106; 85; 63; 50; 50; 255; 233; 212; 191; 170; 148; 127 ].
Proof. vm_compute. reflexivity. Qed.

(** C6 (amended): at every supported size and for every frame [k] of 0..11,
    the wait frame is a fresh transparent surface with 12 dots drawn on
    it.  Dot [i] is centred at
    [(centre + int(radius * cos(a)), centre + int(radius * sin(a)))] for
    the angle [a = 2*pi*i/12 - pi/2], the radius [int(8 * s)] (8 canonical
    units) and the centre pixel [size // 2]; with the cosines and sines of
    the C library the twelve centres are evenly spaced on that circle, to
    the pixel: centre [i] is the hour [i] of a clock face, 12 o'clock
    first and clockwise, each coordinate cut toward the centre.  Dot [i]
    is inked with the accent colour at opacity
    [255 * (1 - ((i - k) mod 12) / 12)] (rounded down) over gray 100, with
    alpha [max(50, opacity)].  Hence dot [k] has the accent colour at alpha
    255, the dot [j] steps after it (forward, clockwise) has the opacity
    [255 * (12 - j) / 12], which decreases with every step: 233 one step
    after dot [k] and, below the floor, 50 one step before it; no alpha is
    below 50. *)
Theorem wait_frame_dots (L : Libm) (size k : Z) :
  In size sizes -> 0 <= k < 12 -> libm_moderate L ->
  (exists centres : list Point,
    collect (ring_point L (size / 2) (size / 2) (truncated 8 size) 12) (range 12) = Ok centres
    /\ length centres = 12%nat
    /\ rendered (generate_wait_frame L size k)
       = Some (drawn_with (Blank size size)
                 (zip_with (dot_at 12 (Z.max 2 (size / 16)) 100 50 k) (range 12) centres))
    /\ (forall c, dot_at 12 (Z.max 2 (size / 16)) 100 50 k k c
                   = Ellipse (around (fst c) (snd c) (Z.max 2 (size / 16)))
                       (Some (solid ACCENT_COLOR)) None 1)
    /\ (forall i, 0 <= i < 12 ->
          let offset := (i - k) mod 12 in
          alpha_of (fade 12 100 50 offset) = Z.max 50 (255 * (12 - offset) / 12)
          /\ 50 <= alpha_of (fade 12 100 50 offset) <= 255)
    /\ (forall offset offset', 0 <= offset < offset' -> offset' < 12 ->
          255 * (12 - offset') / 12 < 255 * (12 - offset) / 12))
  /\ (exists hours : list Point,
        collect (ring_point tabulated_libm (size / 2) (size / 2) (truncated 8 size) 12) (range 12)
        = Ok hours
        /\ on_clock_face (size / 2) (truncated 8 size) hours = true
        /\ rendered (generate_wait_frame tabulated_libm size k)
           = Some (drawn_with (Blank size size)
                     (zip_with (dot_at 12 (Z.max 2 (size / 16)) 100 50 k) (range 12) hours)))
  /\ (forall j c, 0 <= j < 12 ->
        dot_at 12 (Z.max 2 (size / 16)) 100 50 k ((k + j) mod 12) c
        = Ellipse (around (fst c) (snd c) (Z.max 2 (size / 16)))
            (Some (fade 12 100 50 j)) None 1)
  /\ alpha_of (fade 12 100 50 1) = 233
  /\ alpha_of (fade 12 100 50 11) = 50.
Proof.
  intros Hsize Hk HL.
  destruct (wait_scale size Hsize) as (s & Hs & Hr & Hd & H0 & Hb).
  destruct (ring_total L (size / 2) (size / 2) (truncated 8 size) 12 HL ltac:(auto) Hb)
    as (centres & Hc).
  split.
  { exists centres. split; [exact Hc|]. split.
    { apply collect_length in Hc. exact Hc. }
    split.
    { eapply wait_frame_rendered; eassumption. }
    split.
    { intros c. unfold dot_at. rewrite Z.sub_diag. reflexivity. }
    split.
    { intros i Hi offset.
      assert (Ho : 0 <= offset < 12) by (apply Z.mod_pos_bound; lia).
      unfold fade, alpha_of. simpl snd.
      assert (0 <= 255 * (12 - offset) / 12 <= 255).
      { split; [apply Z.div_pos; lia|]. apply Z.div_le_upper_bound; lia. }
      lia. }
    intros offset offset' Ho Ho'.
    assert (Hcases : forall a, 0 <= a < 12 -> 255 * (12 - a) / 12 = 255 - 21 * a - (a + 3) / 4).
    { intros a Ha.
      assert (Ha' : a = 0 \/ a = 1 \/ a = 2 \/ a = 3 \/ a = 4 \/ a = 5 \/ a = 6 \/ a = 7
                    \/ a = 8 \/ a = 9 \/ a = 10 \/ a = 11) by lia.
      repeat (destruct Ha' as [-> | Ha']); try subst a; reflexivity. }
    rewrite (Hcases offset), (Hcases offset') by lia.
    assert ((offset + 3) / 4 <= (offset' + 3) / 4) by (apply Z.div_le_mono; lia).
    lia. }
  split.
  { assert (Hh : exists hours : list Point,
               collect (ring_point tabulated_libm (size / 2) (size / 2) (truncated 8 size) 12)
                 (range 12) = Ok hours
               /\ on_clock_face (size / 2) (truncated 8 size) hours = true).
    { clear - Hsize. revert size Hsize.
      apply sizes_cases; eexists; (split; vm_compute; reflexivity). }
    destruct Hh as (hours & Hh & Hface). exists hours.
    split; [exact Hh|]. split; [exact Hface|].
    eapply wait_frame_rendered; eassumption. }
  split.
  { intros j c Hj. unfold dot_at.
    replace (((k + j) mod 12 - k) mod 12) with j; [reflexivity|].
    rewrite Zminus_mod_idemp_l. replace (k + j - k) with j by lia.
    symmetry. apply Z.mod_small. exact Hj. }
  split; reflexivity.
Qed.

Lemma wait_frame_dots_witness :
  (exists centres : list Point,
    length centres = 12%nat
    /\ rendered (generate_wait_frame tabulated_libm 24 0)
       = Some (drawn_with (Blank 24 24)
                 (zip_with (dot_at 12 2 100 50 0) (range 12) centres)))
  /\ (exists hours : list Point,
        on_clock_face 12 8 hours = true
        /\ rendered (generate_wait_frame tabulated_libm 24 0)
           = Some (drawn_with (Blank 24 24)
                     (zip_with (dot_at 12 2 100 50 0) (range 12) hours))).
Proof.
  destruct (wait_frame_dots tabulated_libm 24 0 ltac:(simpl; auto) ltac:(lia)
              tabulated_libm_moderate)
    as ((centres & _ & Hlen & Hr & _) & (hours & _ & Hface & Hrh) & _).
  split; [exists centres; split; [exact Hlen | exact Hr]|].
  exists hours. split; [exact Hface | exact Hrh].
Defined.

(** ** Periods of the two animations (C2) *)

Lemma bind_cong {A B} (m1 m2 : M A) (k : A -> M B) w :
  m1 w = m2 w -> bind m1 k w = bind m2 k w.
Proof. unfold bind. intros ->. reflexivity. Qed.

(** The wait frame depends on the frame index through
    [(i - frame) % 12] only: its period is 12, the number of frames. *)
Lemma wait_frame_periodic L size k w :
  generate_wait_frame L size (k + 12) w = generate_wait_frame L size k w.
Proof.
  unfold generate_wait_frame.
  repeat (apply bind_ext; intros).
  apply bind_cong. apply for_each_ext. intros i w0. cbv zeta.
  replace ((i - (k + 12)) mod 12) with ((i - k) mod 12); [reflexivity|].
  replace (i - (k + 12)) with (i - k + (-1) * 12) by lia.
  rewrite Z_mod_plus_full. reflexivity.
Qed.

(** The progress frame depends on the frame index through
    [(i - frame) % 8]: its period is 8, the number of dots. *)
Lemma progress_frame_period_8 L size k w :
  generate_progress_frame L size (k + 8) w = generate_progress_frame L size k w.
Proof.
  unfold generate_progress_frame.
  repeat (apply bind_ext; intros).
  apply bind_cong. apply for_each_ext. intros i w0. cbv zeta.
  replace ((i - (k + 8)) mod 8) with ((i - k) mod 8); [reflexivity|].
  replace (i - (k + 8)) with (i - k + (-1) * 8) by lia.
  rewrite Z_mod_plus_full. reflexivity.
Qed.

(** C2 holds for the wait cursor ([wait_frame_periodic]) and fails for the
    progress cursor: its ring has 8 dots, so frame 12 is frame 4, not
    frame 0, and of the twelve frames [main] writes, frames 8 to 11 repeat
    frames 0 to 3.  At size 24, with glibc's cosines and sines: *)
Theorem progress_frame_12_differs :
  progress_spinner tabulated_libm 24 0
  = Some [ Ellipse (15, 11, 17, 13) (Some (0, 212, 255, 255)) None 1;
           Ellipse (17, 13, 19, 15) (Some (10, 195, 233, 223)) None 1;
           Ellipse (19, 15, 21, 17) (Some (20, 178, 211, 191)) None 1;
           Ellipse (17, 17, 19, 19) (Some (30, 162, 189, 159)) None 1;
           Ellipse (15, 19, 17, 21) (Some (40, 145, 167, 127)) None 1;
           Ellipse (13, 17, 15, 19) (Some (50, 129, 145, 95)) None 1;
           Ellipse (11, 15, 13, 17) (Some (60, 112, 123, 80)) None 1;
           Ellipse (13, 13, 15, 15) (Some (70, 96, 101, 80)) None 1 ]
  /\ progress_spinner tabulated_libm 24 12
     = Some [ Ellipse (15, 11, 17, 13) (Some (40, 145, 167, 127)) None 1;
              Ellipse (17, 13, 19, 15) (Some (50, 129, 145, 95)) None 1;
              Ellipse (19, 15, 21, 17) (Some (60, 112, 123, 80)) None 1;
              Ellipse (17, 17, 19, 19) (Some (70, 96, 101, 80)) None 1;
              Ellipse (15, 19, 17, 21) (Some (0, 212, 255, 255)) None 1;
              Ellipse (13, 17, 15, 19) (Some (10, 195, 233, 223)) None 1;
              Ellipse (11, 15, 13, 17) (Some (20, 178, 211, 191)) None 1;
              Ellipse (13, 13, 15, 15) (Some (30, 162, 189, 159)) None 1 ]
  /\ rendered (generate_progress_frame tabulated_libm 24 12)
     <> rendered (generate_progress_frame tabulated_libm 24 0)
  /\ rendered (generate_progress_frame tabulated_libm 24 8)
     = rendered (generate_progress_frame tabulated_libm 24 0).
Proof.
  assert (H0 : progress_spinner tabulated_libm 24 0
               = Some [ Ellipse (15, 11, 17, 13) (Some (0, 212, 255, 255)) None 1;
                        Ellipse (17, 13, 19, 15) (Some (10, 195, 233, 223)) None 1;
                        Ellipse (19, 15, 21, 17) (Some (20, 178, 211, 191)) None 1;
                        Ellipse (17, 17, 19, 19) (Some (30, 162, 189, 159)) None 1;
                        Ellipse (15, 19, 17, 21) (Some (40, 145, 167, 127)) None 1;
                        Ellipse (13, 17, 15, 19) (Some (50, 129, 145, 95)) None 1;
                        Ellipse (11, 15, 13, 17) (Some (60, 112, 123, 80)) None 1;
                        Ellipse (13, 13, 15, 15) (Some (70, 96, 101, 80)) None 1 ])
    by (vm_compute; reflexivity).
  assert (H12 : progress_spinner tabulated_libm 24 12
                = Some [ Ellipse (15, 11, 17, 13) (Some (40, 145, 167, 127)) None 1;
                         Ellipse (17, 13, 19, 15) (Some (50, 129, 145, 95)) None 1;
                         Ellipse (19, 15, 21, 17) (Some (60, 112, 123, 80)) None 1;
                         Ellipse (17, 17, 19, 19) (Some (70, 96, 101, 80)) None 1;
                         Ellipse (15, 19, 17, 21) (Some (0, 212, 255, 255)) None 1;
                         Ellipse (13, 17, 15, 19) (Some (10, 195, 233, 223)) None 1;
                         Ellipse (11, 15, 13, 17) (Some (20, 178, 211, 191)) None 1;
                         Ellipse (13, 13, 15, 15) (Some (30, 162, 189, 159)) None 1 ])
    by (vm_compute; reflexivity).
  split; [exact H0|]. split; [exact H12|]. split.
  - intros Heq.
    assert (E : progress_spinner tabulated_libm 24 12 = progress_spinner tabulated_libm 24 0)
      by (unfold progress_spinner; rewrite Heq; reflexivity).
    rewrite H0, H12 in E. discriminate E.
  - unfold rendered, run. change 8 with (0 + 8). rewrite progress_frame_period_8. reflexivity.
Qed.

(* ===================================================================== *)
(** * Thickness floors (C10) *)
(* ===================================================================== *)

Lemma draw_op_grown w (h xs : list Surface) i base op :
  heap w = (h ++ xs)%list -> xs !! i = Some base ->
  draw_op (length h + i)%nat op w = Return tt (set_heap (h ++ <[i := Drawn base op]> xs) w).
Proof.
  intros Hw Hi. unfold draw_op.
  erewrite bind_Return by (eapply deref_grown; eassumption).
  eapply store_grown; eassumption.
Qed.


Lemma small_literal_1_5 : small 54 1 lit_1_5.
Proof. vm_compute. split; congruence. Qed.



(* ===================================================================== *)
(** * Encoder failures in main (C8) *)
(* ===================================================================== *)

(** ** What a computation does to the files and to the log *)

Lemma extends_refl w : extends w w.
Proof. split; reflexivity. Qed.

Lemma extends_trans w1 w2 w3 : extends w1 w2 -> extends w2 w3 -> extends w1 w3.
Proof. intros [H1 H2] [H3 H4]. split; etransitivity; eassumption. Qed.

Lemma quiet_grows {A} (m : M A) : quiet m -> grows m.
Proof. intros H w. destruct (H w) as [Hf Hs]. split; [rewrite Hf | rewrite Hs]; reflexivity. Qed.

Lemma quiet_bind {A B} (m : M A) (k : A -> M B) :
  quiet m -> (forall a, quiet (k a)) -> quiet (bind m k).
Proof.
  intros Hm Hk w. unfold bind. specialize (Hm w).
  destruct (m w) as [a w'|e w']; simpl in Hm; [|exact Hm].
  destruct (Hk a w') as [Hf Hs]. destruct Hm as [Hf' Hs']. split; congruence.
Qed.

Lemma grows_bind {A B} (m : M A) (k : A -> M B) :
  grows m -> (forall a, grows (k a)) -> grows (bind m k).
Proof.
  intros Hm Hk w. unfold bind. specialize (Hm w).
  destruct (m w) as [a w'|e w']; simpl in Hm; [|exact Hm].
  eapply extends_trans; [exact Hm | apply Hk].
Qed.

Lemma quiet_ret {A} (a : A) : quiet (ret a).
Proof. intros w. split; reflexivity. Qed.

Lemma quiet_raise {A} e : quiet (@raise A e).
Proof. intros w. split; reflexivity. Qed.

Lemma quiet_lift {A} (r : result A) : quiet (lift r).
Proof. destruct r; [apply quiet_ret | apply quiet_raise]. Qed.

Lemma quiet_alloc s : quiet (alloc s).
Proof. intros w. split; reflexivity. Qed.

Lemma quiet_deref r : quiet (deref r).
Proof. intros w. unfold deref. destruct (heap w !! r); split; reflexivity. Qed.

Lemma quiet_store r s : quiet (store r s).
Proof. intros w. split; reflexivity. Qed.

Lemma quiet_for_each {A} (xs : list A) (f : A -> M unit) :
  (forall x, quiet (f x)) -> quiet (for_each xs f).
Proof.
  intros H. induction xs as [|x xs IH]; simpl; [apply quiet_ret|].
  apply quiet_bind; [apply H | intros _; exact IH].
Qed.

Lemma grows_for_each {A} (xs : list A) (f : A -> M unit) :
  (forall x, grows (f x)) -> grows (for_each xs f).
Proof.
  intros H. induction xs as [|x xs IH]; simpl; [apply quiet_grows, quiet_ret|].
  apply grows_bind; [apply H | intros _; exact IH].
Qed.

Lemma quiet_Image_new size : quiet (Image_new size).
Proof.
  destruct size as [w h]. unfold Image_new.
  destruct ((w <? 0) || (h <? 0)); [apply quiet_raise | apply quiet_alloc].
Qed.

Create HintDb quiet.
#[local] Hint Resolve quiet_ret quiet_raise quiet_lift quiet_alloc quiet_deref quiet_store
  quiet_Image_new : quiet.

Ltac prove_quiet :=
  repeat first
    [ apply quiet_bind; [|intros]
    | apply quiet_for_each; intros
    | solve [ auto with quiet ]
    | match goal with
      | |- quiet (match ?p with pair _ _ => _ end) => destruct p
      | |- quiet (let (_, _) := ?p in _) => destruct p
      end
    | progress unfold Image_size, Image_split, Image_paste_ink, Image_filter_GaussianBlur,
        Image_paste, ImageDraw_Draw, draw_polygon, draw_line, draw_rectangle,
        draw_rounded_rectangle, draw_ellipse, draw_text, draw_op
    | progress cbv zeta ].

Lemma quiet_create_shadow image offset blur : quiet (create_shadow image offset blur).
Proof. unfold create_shadow. prove_quiet. Qed.
#[local] Hint Resolve quiet_create_shadow : quiet.

Lemma quiet_generate_default size : quiet (generate_default size).
Proof. unfold generate_default. prove_quiet. Qed.
#[local] Hint Resolve quiet_generate_default : quiet.

Lemma quiet_static name g size : In (name, g) static_cursors -> quiet (g size).
Proof.
  intros Hin. unfold static_cursors in Hin. simpl in Hin.
  repeat (destruct Hin as [Hin|Hin]; [inversion Hin; subst g name; clear Hin|]);
    try contradiction.
  - apply quiet_generate_default.
  - unfold generate_pointer. prove_quiet.
  - unfold generate_text. prove_quiet.
  - unfold generate_help. prove_quiet.
  - unfold generate_crosshair. prove_quiet.
  - unfold generate_move. prove_quiet.
  - unfold generate_not_allowed. prove_quiet.
  - unfold generate_grab. prove_quiet.
  - unfold generate_grabbing. prove_quiet.
  - unfold generate_zoom_in. prove_quiet.
  - unfold generate_zoom_out. prove_quiet.
  - unfold generate_col_resize. prove_quiet.
  - unfold generate_row_resize. prove_quiet.
  - unfold generate_all_scroll. prove_quiet.
Qed.

Lemma quiet_generate_resize_arrow size direction : quiet (generate_resize_arrow size direction).
Proof. unfold generate_resize_arrow. prove_quiet. Qed.

Lemma quiet_generate_wait_frame L size frame : quiet (generate_wait_frame L size frame).
Proof. unfold generate_wait_frame. prove_quiet. Qed.

Lemma quiet_generate_progress_frame L size frame : quiet (generate_progress_frame L size frame).
Proof. unfold generate_progress_frame. prove_quiet. Qed.

Lemma grows_for_each_in {A} (xs : list A) (f : A -> M unit) :
  (forall x, In x xs -> grows (f x)) -> grows (for_each xs f).
Proof.
  induction xs as [|x xs IH]; intros H; simpl; [apply quiet_grows, quiet_ret|].
  apply grows_bind; [apply H; simpl; auto | intros _; apply IH; intros; apply H; simpl; auto].
Qed.

(** ** A run with a failing encoder against the run where nothing fails *)

Section Encoder.
Variable encoder : string -> Surface -> bool.

Lemma accepted_prefix_all fs : accepted encoder fs -> accepted_prefix encoder fs = fs.
Proof.
  induction fs as [|[p s] fs IH]; intros H; simpl; [reflexivity|].
  rewrite (H p s) by (simpl; auto). f_equal. apply IH. intros q t Hq. apply H. simpl; auto.
Qed.


Lemma respects_same {A} (m : M A) :
  (forall w, files (world_of (m w)) = files w) -> respects encoder m m.
Proof. intros H w Hw. apply follows_same. rewrite H. exact Hw. Qed.

Lemma respects_quiet {A} (m : M A) : quiet m -> respects encoder m m.
Proof. intros H. apply respects_same. intros w. apply H. Qed.

Lemma respects_bind {A B} (m1 m2 : M A) (k1 k2 : A -> M B) :
  respects encoder m1 m2 -> (forall a, respects encoder (k1 a) (k2 a)) -> (forall a, grows (k1 a)) ->
  respects encoder (bind m1 k1) (bind m2 k2).
Proof.
  intros Hm Hk Hg w Hw. unfold bind. specialize (Hm w Hw).
  destruct Hm as [o Hacc | o1 w2 p s rest Hfiles Hrej Hacc Hlog].
  - destruct o as [a w'|e w']; simpl in *.
    + apply Hk. exact Hacc.
    + apply follows_same. exact Hacc.
  - destruct o1 as [a w1|e w1]; simpl in *.
    + destruct (Hg a w1) as [[more Hmore] Hout].
      eapply follows_stopped with (p := p) (s := s) (rest := (rest ++ more)%list).
      * rewrite Hmore, Hfiles, <- app_assoc. reflexivity.
      * exact Hrej.
      * exact Hacc.
      * etransitivity; eassumption.
    + eapply follows_stopped; eassumption.
Qed.

Lemma respects_for_each {A} (xs : list A) (f1 f2 : A -> M unit) :
  (forall x, In x xs -> respects encoder (f1 x) (f2 x)) -> (forall x, In x xs -> grows (f1 x)) ->
  respects encoder (for_each xs f1) (for_each xs f2).
Proof.
  induction xs as [|x xs IH]; intros H Hg; simpl.
  - apply respects_quiet, quiet_ret.
  - apply respects_bind.
    + apply H. simpl; auto.
    + intros _. apply IH; intros; [apply H | apply Hg]; simpl; auto.
    + intros _. apply grows_for_each_in. intros; apply Hg; simpl; auto.
Qed.

Lemma respects_print line : respects encoder (print line) (print line).
Proof. apply respects_same. reflexivity. Qed.

Lemma respects_save img path :
  respects encoder (Image_save accepts_all img path) (Image_save encoder img path).
Proof.
  intros w Hw. unfold Image_save, bind, deref.
  destruct (heap w !! img) as [s|]; [|apply follows_same; exact Hw].
  unfold accepts_all. destruct (encoder path s) eqn:E.
  - apply follows_same. simpl. intros p t Hin. apply in_app_or in Hin.
    destruct Hin as [Hin|[Hin|[]]]; [apply Hw; exact Hin|]. congruence.
  - eapply follows_stopped with (p := path) (s := s) (rest := []); simpl;
      [reflexivity | exact E | exact Hw | reflexivity].
Qed.

Lemma grows_print line : grows (print line).
Proof. intros w. split; simpl; [reflexivity | apply prefix_app_r; reflexivity]. Qed.

Lemma grows_save enc img path : grows (Image_save enc img path).
Proof.
  intros w. unfold Image_save, bind, deref.
  destruct (heap w !! img) as [s|]; [|apply extends_refl].
  destruct (enc path s); [|apply extends_refl].
  split; simpl; [apply prefix_app_r; reflexivity | reflexivity].
Qed.

Lemma quiet_os_makedirs path : quiet (os_makedirs path).
Proof.
  intros w. unfold os_makedirs. destruct (str_in path (map fst (files w))); split; reflexivity.
Qed.

Ltac walk_main :=
  repeat match goal with
    | |- respects encoder (print _) (print _) => apply respects_print
    | |- respects encoder (Image_save _ _ _) (Image_save _ _ _) => apply respects_save
    | |- respects encoder (bind _ _) (bind _ _) => apply respects_bind; [ | intros | intros ]
    | |- respects encoder (for_each _ _) (for_each _ _) =>
        apply respects_for_each; [ intros ? ? | intros ? ? ]
    | |- respects encoder (match ?x with pair _ _ => _ end) _ => destruct x
    | |- respects encoder ?m ?m => apply respects_quiet
    | |- grows (print _) => apply grows_print
    | |- grows (Image_save _ _ _) => apply grows_save
    | |- grows (bind _ _) => apply grows_bind; [ | intros ]
    | |- grows (for_each _ _) => apply grows_for_each_in; intros ? ?
    | |- grows (match ?x with pair _ _ => _ end) => destruct x
    | |- grows _ => apply quiet_grows
    | |- quiet (os_makedirs _) => apply quiet_os_makedirs
    | |- quiet (generate_resize_arrow _ _) => apply quiet_generate_resize_arrow
    | |- quiet (generate_wait_frame _ _ _) => apply quiet_generate_wait_frame
    | |- quiet (generate_progress_frame _ _ _) => apply quiet_generate_progress_frame
    | |- quiet (?g _) => eapply quiet_static; eassumption
    | |- _ => progress cbv beta zeta
    end.

Lemma grows_main L enc : grows (main L enc).
Proof. unfold main. walk_main. Qed.

Lemma respects_main L : respects encoder (main L accepts_all) (main L encoder).
Proof. unfold main. walk_main. Qed.

End Encoder.


Lemma run_eq {A} (m : M A) : run m = m empty_world.
Proof. reflexivity. Qed.



(* ===================================================================== *)
(** * Sums of floats that stay finite *)
(* ===================================================================== *)

Lemma binary_round_small s m e D E :
  Z.pos m < 2 ^ D -> 0 <= D -> e <= E ->
  Z.max (Z.max E (D + E - 53)) (-1074) + 1 <= 971 ->
  small 54 (Z.max (Z.max E (D + E - 53)) (-1074) + 1) (binary_round prec emax s m e).
Proof.
  intros Hm HD He Hb. unfold binary_round, shl_align.
  pose proof (Zdigits2_le (Z.pos m) D ltac:(lia) Hm HD) as Hd. simpl Zdigits2 in Hd.
  pose proof (Zdigits2_upper (Z.pos m) ltac:(lia)) as Hup. simpl Zdigits2 in Hup.
  pose proof (Zdigits2_nonneg (Z.pos m)) as Hd0. simpl Zdigits2 in Hd0.
  rewrite fexp_eq.
  destruct (Z.max (Z.pos (digits2_pos m) + e - 53) (-1074) - e) as [|d|d] eqn:Ed.
  - apply binary_round_aux_small; lia.
  - apply binary_round_aux_small; lia.
  - eapply small_weaken.
    + apply (binary_round_aux_small s (Z.pos (Pos.iter xO m d))
               (Z.max (Z.pos (digits2_pos m) + e - 53) (-1074)) loc_Exact
               (Z.pos (digits2_pos m) + Z.pos d)
               (Z.max (Z.pos (digits2_pos m) + e - 53) (-1074))); try lia.
      rewrite iter_xO, Z.pow_add_r by lia.
      apply Z.mul_lt_mono_pos_r; [apply Z.pow_pos_nonneg; lia | lia].
    + lia.
    + lia.
    + lia.
Qed.

Lemma binary_normalize_small z e D E :
  Z.abs z < 2 ^ D -> 0 <= D -> e <= E ->
  Z.max (Z.max E (D + E - 53)) (-1074) + 1 <= 971 ->
  small 54 (Z.max (Z.max E (D + E - 53)) (-1074) + 1) (binary_normalize prec emax z e false).
Proof.
  intros Hz HD He Hb. unfold binary_normalize.
  destruct z as [|m|m]; [exact I | apply binary_round_small; lia | apply binary_round_small; lia].
Qed.

Lemma shl_align_fst m e e' : e' <= e -> Z.pos (fst (shl_align m e e')) = Z.pos m * 2 ^ (e - e').
Proof.
  intros H. unfold shl_align. destruct (e' - e) as [|d|d] eqn:Ed; simpl fst.
  - replace (e - e') with 0 by lia. lia.
  - lia.
  - rewrite iter_xO. f_equal. f_equal. lia.
Qed.

(** The sum or the difference of two aligned mantissas, normalised. *)
Lemma aligned_sum_small sx mx ex sy my ey D1 E1 D2 E2 (sub : bool) :
  Z.pos mx < 2 ^ D1 -> ex <= E1 -> Z.pos my < 2 ^ D2 -> ey <= E2 -> 0 <= D1 -> 0 <= D2 ->
  Z.max (Z.max E1 E2) (Z.max (D1 + E1) (D2 + E2) - 52) + 1 <= 971 ->
  -1074 <= Z.max (Z.max E1 E2) (Z.max (D1 + E1) (D2 + E2) - 52) ->
  let ez := Z.min ex ey in
  let a := cond_Zopp sx (Z.pos (fst (shl_align mx ex ez))) in
  let b := cond_Zopp sy (Z.pos (fst (shl_align my ey ez))) in
  small 54 (Z.max (Z.max E1 E2) (Z.max (D1 + E1) (D2 + E2) - 52) + 1)
    (binary_normalize prec emax (if sub then a - b else a + b) ez false).
Proof.
  intros Hmx Hex Hmy Hey HD1 HD2 Hb Hlow ez a b.
  set (K := Z.max (D1 + ex) (D2 + ey) - ez + 1).
  assert (Hez1 : ez <= ex) by (subst ez; lia).
  assert (Hez2 : ez <= ey) by (subst ez; lia).
  assert (Ha : Z.abs a < 2 ^ (K - 1)).
  { subst a. rewrite shl_align_fst by lia.
    assert (Z.pos mx * 2 ^ (ex - ez) < 2 ^ (K - 1)).
    { eapply Z.lt_le_trans.
      - apply Z.mul_lt_mono_pos_r; [apply Z.pow_pos_nonneg; lia | exact Hmx].
      - rewrite <- Z.pow_add_r by lia. apply Z.pow_le_mono_r; subst K; lia. }
    assert (0 < Z.pos mx * 2 ^ (ex - ez))
      by (apply Z.mul_pos_pos; [lia | apply Z.pow_pos_nonneg; lia]).
    destruct sx; simpl; lia. }
  assert (Hbb : Z.abs b < 2 ^ (K - 1)).
  { subst b. rewrite shl_align_fst by lia.
    assert (Z.pos my * 2 ^ (ey - ez) < 2 ^ (K - 1)).
    { eapply Z.lt_le_trans.
      - apply Z.mul_lt_mono_pos_r; [apply Z.pow_pos_nonneg; lia | exact Hmy].
      - rewrite <- Z.pow_add_r by lia. apply Z.pow_le_mono_r; subst K; lia. }
    assert (0 < Z.pos my * 2 ^ (ey - ez))
      by (apply Z.mul_pos_pos; [lia | apply Z.pow_pos_nonneg; lia]).
    destruct sy; simpl; lia. }
  assert (HK : 1 <= K) by (subst K; lia).
  assert (Hsum : Z.abs (if sub then a - b else a + b) < 2 ^ K).
  { replace K with (1 + (K - 1)) by lia. rewrite Z.pow_add_r by lia. simpl (2 ^ 1).
    destruct sub; lia. }
  eapply small_weaken.
  - apply (binary_normalize_small _ ez K ez Hsum); subst K; lia.
  - lia.
  - lia.
  - subst K. lia.
Qed.

Lemma fadd_small x y D1 E1 D2 E2 :
  small D1 E1 x -> small D2 E2 y -> 0 <= D1 <= 54 -> 0 <= D2 <= 54 ->
  Z.max (Z.max E1 E2) (Z.max (D1 + E1) (D2 + E2) - 52) + 1 <= 971 ->
  -1074 <= Z.max (Z.max E1 E2) (Z.max (D1 + E1) (D2 + E2) - 52) ->
  small 54 (Z.max (Z.max E1 E2) (Z.max (D1 + E1) (D2 + E2) - 52) + 1) (fadd x y).
Proof.
  intros Hx Hy HD1 HD2 Hb Hlow.
  destruct x as [sx|sx| |sx mx ex], y as [sy|sy| |sy my ey]; simpl in Hx, Hy; try tauto.
  - unfold fadd, SFadd. destruct sx, sy; exact I.
  - unfold fadd, SFadd. simpl. destruct Hy as [Hm He]. split; [|lia].
    eapply Z.lt_le_trans; [exact Hm|]. apply Z.pow_le_mono_r; lia.
  - unfold fadd, SFadd. simpl. destruct Hx as [Hm He]. split; [|lia].
    eapply Z.lt_le_trans; [exact Hm|]. apply Z.pow_le_mono_r; lia.
  - destruct Hx as [Hmx Hex], Hy as [Hmy Hey]. unfold fadd, SFadd.
    apply (aligned_sum_small sx mx ex sy my ey D1 E1 D2 E2 false); lia.
Qed.

Lemma fsub_small x y D1 E1 D2 E2 :
  small D1 E1 x -> small D2 E2 y -> 0 <= D1 <= 54 -> 0 <= D2 <= 54 ->
  Z.max (Z.max E1 E2) (Z.max (D1 + E1) (D2 + E2) - 52) + 1 <= 971 ->
  -1074 <= Z.max (Z.max E1 E2) (Z.max (D1 + E1) (D2 + E2) - 52) ->
  small 54 (Z.max (Z.max E1 E2) (Z.max (D1 + E1) (D2 + E2) - 52) + 1) (fsub x y).
Proof.
  intros Hx Hy HD1 HD2 Hb Hlow.
  destruct x as [sx|sx| |sx mx ex], y as [sy|sy| |sy my ey]; simpl in Hx, Hy; try tauto.
  - unfold fsub, SFsub. destruct sx, sy; exact I.
  - unfold fsub, SFsub. simpl. destruct Hy as [Hm He]. split; [|lia].
    eapply Z.lt_le_trans; [exact Hm|]. apply Z.pow_le_mono_r; lia.
  - unfold fsub, SFsub. simpl. destruct Hx as [Hm He]. split; [|lia].
    eapply Z.lt_le_trans; [exact Hm|]. apply Z.pow_le_mono_r; lia.
  - destruct Hx as [Hmx Hex], Hy as [Hmy Hey]. unfold fsub, SFsub.
    apply (aligned_sum_small sx mx ex sy my ey D1 E1 D2 E2 true); lia.
Qed.

(* ===================================================================== *)
(** * Scaled values that exist *)
(* ===================================================================== *)

Lemma value_ok (r : result Z) : (exists z, r = Ok z) -> r = Ok (value r).
Proof. intros (z & ->). reflexivity. Qed.

Lemma int_mul_value c s :
  small 54 37 s -> Z.abs c < 2 ^ 53 -> int_mul c s = Ok (scaled_by s c).
Proof.
  intros Hs Hc. apply value_ok. destruct (int_mul_scaled c s Hs Hc) as (z & Hz & _). eauto.
Qed.

Lemma scaled_by_bound c s :
  small 54 37 s -> Z.abs c < 2 ^ 53 -> Z.abs (scaled_by s c) < 2 ^ 148.
Proof.
  intros Hs Hc. unfold scaled_by. destruct (int_mul_scaled c s Hs Hc) as (z & -> & Hz). exact Hz.
Qed.

Lemma int_fmul_value c s :
  small 54 1 c -> small 54 37 s -> int_fmul c s = Ok (value (int_fmul c s)).
Proof. intros Hc Hs. apply value_ok. apply int_fmul_scaled; assumption. Qed.

Lemma py_int_value s : small 54 37 s -> py_int s = Ok (value (py_int s)).
Proof.
  intros Hs. apply value_ok. destruct (py_int_small s 54 37 Hs ltac:(lia)) as (z & Hz & _). eauto.
Qed.

Lemma int_mul_lit_value radius f :
  Z.abs radius < 2 ^ 148 -> small 53 (-52) f -> int_mul radius f = Ok (value (int_mul radius f)).
Proof. intros Hr Hf. apply value_ok. apply int_mul_trig; assumption. Qed.

Lemma scaled_point_value s c :
  small 54 37 s -> Z.abs (fst c) < 2 ^ 53 -> Z.abs (snd c) < 2 ^ 53 ->
  scaled_point s c = Ok (scaled_by s (fst c), scaled_by s (snd c)).
Proof.
  intros Hs H1 H2. unfold scaled_point.
  rewrite (int_mul_value _ _ Hs H1), (int_mul_value _ _ Hs H2). reflexivity.
Qed.

Lemma scaled_points_value s cs :
  small 54 37 s -> Forall (fun c => Z.abs (fst c) < 2 ^ 53 /\ Z.abs (snd c) < 2 ^ 53) cs ->
  scaled_points s cs = Ok (map (fun c => (scaled_by s (fst c), scaled_by s (snd c))) cs).
Proof.
  intros Hs H. induction H as [|c cs [H1 H2] _ IH]; simpl; [reflexivity|].
  rewrite (scaled_point_value _ _ Hs H1 H2), IH. reflexivity.
Qed.

Lemma scaled_box_value s x0 y0 x1 y1 :
  small 54 37 s ->
  Z.abs x0 < 2 ^ 53 -> Z.abs y0 < 2 ^ 53 -> Z.abs x1 < 2 ^ 53 -> Z.abs y1 < 2 ^ 53 ->
  scaled_box s (x0, y0, x1, y1)
  = Ok (scaled_by s x0, scaled_by s y0, scaled_by s x1, scaled_by s y1).
Proof.
  intros Hs H0 H1 H2 H3. unfold scaled_box.
  rewrite (int_mul_value _ _ Hs H0), (int_mul_value _ _ Hs H1),
    (int_mul_value _ _ Hs H2), (int_mul_value _ _ Hs H3). reflexivity.
Qed.

Lemma small_literal_0_5 : small 53 (-53) lit_0_5.
Proof. vm_compute. split; congruence. Qed.

Lemma small_literal_0_7 : small 53 (-52) lit_0_7.
Proof. vm_compute. split; congruence. Qed.

Lemma small_literal_0_8 : small 54 1 lit_0_8.
Proof. vm_compute. split; congruence. Qed.

Lemma small_literal_2_5 : small 54 1 lit_2_5.
Proof. vm_compute. split; congruence. Qed.

Lemma half_small b : Z.abs b < 2 ^ 149 -> small 54 99 (fmul (of_Z b) lit_0_5).
Proof.
  intros Hb.
  pose proof (of_Z_small b 149 Hb ltac:(lia) ltac:(lia)) as Hof. simpl Z.sub in Hof.
  pose proof (fmul_small _ _ 54 97 53 (-53) Hof small_literal_0_5 ltac:(lia) ltac:(lia)
                ltac:(simpl; lia)) as H.
  exact H.
Qed.

(** [int(a + b * 0.5)] and [int(a - b * 0.5)], the vertices of the
    arrowheads of the diagonal resize cursors. *)
Lemma half_step_add a b :
  Z.abs a < 2 ^ 151 -> Z.abs b < 2 ^ 149 ->
  py_int (fadd (of_Z a) (fmul (of_Z b) lit_0_5))
  = Ok (value (py_int (fadd (of_Z a) (fmul (of_Z b) lit_0_5)))).
Proof.
  intros Ha Hb. apply value_ok.
  pose proof (of_Z_small a 151 Ha ltac:(lia) ltac:(lia)) as Hof. simpl Z.sub in Hof.
  pose proof (fadd_small _ _ 54 99 54 99 Hof (half_small b Hb) ltac:(lia) ltac:(lia)
                ltac:(simpl; lia) ltac:(simpl; lia)) as H.
  destruct (py_int_small _ _ _ H ltac:(lia)) as (z & Hz & _). eauto.
Qed.

Lemma half_step_sub a b :
  Z.abs a < 2 ^ 151 -> Z.abs b < 2 ^ 149 ->
  py_int (fsub (of_Z a) (fmul (of_Z b) lit_0_5))
  = Ok (value (py_int (fsub (of_Z a) (fmul (of_Z b) lit_0_5)))).
Proof.
  intros Ha Hb. apply value_ok.
  pose proof (of_Z_small a 151 Ha ltac:(lia) ltac:(lia)) as Hof. simpl Z.sub in Hof.
  pose proof (fsub_small _ _ 54 99 54 99 Hof (half_small b Hb) ltac:(lia) ltac:(lia)
                ltac:(simpl; lia) ltac:(simpl; lia)) as H.
  destruct (py_int_small _ _ _ H ltac:(lia)) as (z & Hz & _). eauto.
Qed.

(* ===================================================================== *)
(** * Running a generator from any world *)
(* ===================================================================== *)

Lemma lookup_grown (h xs : list Surface) i s :
  xs !! i = Some s -> ((h ++ xs)%list) !! (length h + i)%nat = Some s.
Proof.
  intros H. rewrite lookup_app_r by lia.
  replace (length h + i - length h)%nat with i by lia. exact H.
Qed.

Lemma create_shadow_grown w (h xs : list Surface) i offset blur s :
  heap w = (h ++ xs)%list -> xs !! i = Some s ->
  0 <= fst (surface_size s) -> 0 <= snd (surface_size s) ->
  create_shadow (length h + i)%nat offset blur w =
    Return (length h + (length xs + 6))%nat
      (set_heap (h ++ (xs ++
         [ Filled (Blank (fst (surface_size s)) (snd (surface_size s))) (0, 0, 0, 60) (Band 3 s);
           Band 0 s; Band 1 s; Band 2 s; Band 3 s;
           shadow_layer s blur;
           composite s offset blur ]))%list w).
Proof.
  intros Hw Hi H1 H2.
  rewrite (create_shadow_run w _ offset blur s);
    [| rewrite Hw; apply lookup_grown; exact Hi | exact H1 | exact H2].
  rewrite Hw, length_app, <- app_assoc, <- Nat.add_assoc. reflexivity.
Qed.

Lemma for_each_cons {A} (x : A) xs (f : A -> M unit) w :
  for_each (x :: xs) f w = bind (f x) (fun _ => for_each xs f) w.
Proof. reflexivity. Qed.

Lemma for_each_nil {A} (f : A -> M unit) w : for_each [] f w = Return tt w.
Proof. reflexivity. Qed.

Lemma ret_run {A} (a : A) w : ret a w = Return a w.
Proof. reflexivity. Qed.

Lemma try_Err {A B} (r : result A) (e : PyErr) (k : A -> M B) w :
  r = Err e -> bind (lift r) k w = Raised e w.
Proof. intros ->. reflexivity. Qed.

Lemma surface_size_drawn_with base ops : surface_size (drawn_with base ops) = surface_size base.
Proof.
  unfold drawn_with. revert base. induction ops as [|op ops IH]; intros base; simpl; [reflexivity|].
  rewrite IH. reflexivity.
Qed.

Lemma yields_rendered (m : M ref) xs s : yields m empty_world xs s -> rendered m = Some s.
Proof.
  intros (i & Hrun & Hi). unfold rendered, run. rewrite Hrun. cbn [heap set_heap empty_world].
  exact Hi.
Qed.

Lemma renders_rendered size (m : M ref) :
  renders size m -> exists s, rendered m = Some s /\ surface_size s = (size, size).
Proof.
  intros (xs & s & Hy & Hs). exists s. split; [eapply yields_rendered; apply Hy | exact Hs].
Qed.

(** The value of a [try*] step, where [Hs] bounds the scale factor. *)
Ltac solve_ok Hs :=
  lazymatch goal with
  | |- Ok _ = _ => reflexivity
  | |- int_mul _ lit_0_7 = _ =>
      apply int_mul_lit_value;
      [apply scaled_by_bound; [exact Hs | simpl; lia] | exact small_literal_0_7]
  | |- int_mul _ _ = _ => apply int_mul_value; [exact Hs | simpl; lia]
  | |- scaled_box _ _ = _ => apply scaled_box_value; [exact Hs | simpl; lia ..]
  | |- scaled_point _ _ = _ => apply scaled_point_value; [exact Hs | simpl; lia ..]
  | |- scaled_points _ _ = _ =>
      apply scaled_points_value; [exact Hs | repeat constructor; simpl; lia]
  | |- int_fmul lit_1_5 _ = _ => apply int_fmul_value; [exact small_literal_1_5 | exact Hs]
  | |- int_fmul lit_0_8 _ = _ => apply int_fmul_value; [exact small_literal_0_8 | exact Hs]
  | |- int_fmul lit_2_5 _ = _ => apply int_fmul_value; [exact small_literal_2_5 | exact Hs]
  | |- py_int _ = _ => apply py_int_value; exact Hs
  | |- dict_get _ _ = _ => vm_compute; reflexivity
  | |- rbind (py_int (fadd _ _)) _ = _ =>
      rewrite half_step_add by (Z.to_euclidean_division_equations; lia); cbn [rbind];
      rewrite half_step_add by (Z.to_euclidean_division_equations; lia); cbn [rbind];
      rewrite half_step_sub by (Z.to_euclidean_division_equations; lia); cbn [rbind];
      rewrite half_step_sub by (Z.to_euclidean_division_equations; lia); cbn [rbind];
      reflexivity
  | |- _ => eassumption
  end.

(** One statement of a generator after the other, on the heap [h ++ xs]
    of the images [xs] allocated so far. *)
Ltac exec h Hs :=
  cbv beta;
  lazymatch goal with
  | |- generate_default _ _ = _ => unfold generate_default; exec h Hs
  | |- ret _ _ = _ => apply ret_run
  | |- bind (lift (if ?c then _ else _)) _ _ = _ =>
      let b := eval vm_compute in c in change c with b; cbv iota; exec h Hs
  | |- bind (lift _) _ _ = _ => erewrite try_Ok by (solve_ok Hs); exec h Hs
  | |- bind _ _ _ = _ => erewrite bind_Return by (exec h Hs); exec h Hs
  | |- Image_new _ _ = _ => eapply Image_new_grown with (h := h); [reflexivity | lia | lia]
  | |- ImageDraw_Draw _ _ = _ => eapply ImageDraw_Draw_grown with (h := h); reflexivity
  | |- draw_op _ _ _ = _ => eapply draw_op_grown with (h := h); reflexivity
  | |- draw_polygon _ _ _ _ _ = _ => eapply draw_op_grown with (h := h); reflexivity
  | |- draw_line _ _ _ _ _ = _ => eapply draw_op_grown with (h := h); reflexivity
  | |- draw_rectangle _ _ _ _ = _ => eapply draw_op_grown with (h := h); reflexivity
  | |- draw_rounded_rectangle _ _ _ _ _ _ = _ => eapply draw_op_grown with (h := h); reflexivity
  | |- draw_ellipse _ _ _ _ _ _ = _ => eapply draw_op_grown with (h := h); reflexivity
  | |- draw_text _ _ _ _ _ = _ => eapply draw_op_grown with (h := h); reflexivity
  | |- create_shadow _ _ _ _ = _ =>
      eapply create_shadow_grown with (h := h);
      [reflexivity | reflexivity | simpl; lia | simpl; lia]
  | |- for_each (_ :: _) _ _ = _ => rewrite for_each_cons; exec h Hs
  | |- for_each [] _ _ = _ => apply for_each_nil
  | |- for_each _ _ _ = _ => progress cbn [combine]; exec h Hs
  | |- (match ?p with pair _ _ => _ end) _ = _ => progress cbv iota; exec h Hs
  | |- (let (_, _) := ?p in _) _ = _ => progress cbv iota; exec h Hs
  end.

(** [g w = Return ?r ?w'], for a generator [g] unfolded by [unfold_g]. *)
Ltac run_from w unfold_g Hs :=
  let h := fresh "h" in
  set (h := heap w) in *; rewrite (world_grown w) at 1; fold h;
  unfold_g; etransitivity; [exec h Hs | reflexivity].

Ltac run_static g :=
  let Hsize := fresh "Hsize" in
  let s := fresh "s" in let Hs := fresh "Hs" in let Hsmall := fresh "Hsmall" in
  intros Hsize; destruct (scale_small _ Hsize) as (s & Hs & Hsmall);
  do 2 eexists; split;
  [ let w := fresh "w" in
    intros w; eexists; split; [ run_from w ltac:(unfold g) Hsmall | reflexivity ]
  | simpl; reflexivity ].

Ltac run_fresh g Hs :=
  eapply yields_rendered; eexists; split;
  [ run_from empty_world ltac:(unfold g) Hs | reflexivity ].

Lemma default_renders size : 0 <= size < 2 ^ 31 -> renders size (generate_default size).
Proof. run_static generate_default. Qed.

Lemma pointer_renders size : 0 <= size < 2 ^ 31 -> renders size (generate_pointer size).
Proof. run_static generate_pointer. Qed.

Lemma text_renders size : 0 <= size < 2 ^ 31 -> renders size (generate_text size).
Proof. run_static generate_text. Qed.

Lemma help_renders size : 0 <= size < 2 ^ 31 -> renders size (generate_help size).
Proof. run_static generate_help. Qed.

Lemma crosshair_renders size : 0 <= size < 2 ^ 31 -> renders size (generate_crosshair size).
Proof. run_static generate_crosshair. Qed.

Lemma move_renders size : 0 <= size < 2 ^ 31 -> renders size (generate_move size).
Proof. run_static generate_move. Qed.

Lemma not_allowed_renders size : 0 <= size < 2 ^ 31 -> renders size (generate_not_allowed size).
Proof. run_static generate_not_allowed. Qed.

Lemma grab_renders size : 0 <= size < 2 ^ 31 -> renders size (generate_grab size).
Proof. run_static generate_grab. Qed.

Lemma grabbing_renders size : 0 <= size < 2 ^ 31 -> renders size (generate_grabbing size).
Proof. run_static generate_grabbing. Qed.

Lemma zoom_in_renders size : 0 <= size < 2 ^ 31 -> renders size (generate_zoom_in size).
Proof. run_static generate_zoom_in. Qed.

Lemma zoom_out_renders size : 0 <= size < 2 ^ 31 -> renders size (generate_zoom_out size).
Proof. run_static generate_zoom_out. Qed.

Lemma col_resize_renders size : 0 <= size < 2 ^ 31 -> renders size (generate_col_resize size).
Proof. run_static generate_col_resize. Qed.

Lemma row_resize_renders size : 0 <= size < 2 ^ 31 -> renders size (generate_row_resize size).
Proof. run_static generate_row_resize. Qed.

Lemma all_scroll_renders size : 0 <= size < 2 ^ 31 -> renders size (generate_all_scroll size).
Proof. run_static generate_all_scroll. Qed.

Lemma static_renders name g size :
  In (name, g) static_cursors -> 0 <= size < 2 ^ 31 -> renders size (g size).
Proof.
  intros Hin Hsize. unfold static_cursors in Hin. simpl in Hin.
  repeat (destruct Hin as [Hin|Hin]; [inversion Hin; subst g name; clear Hin|]);
    try contradiction.
  - apply default_renders; assumption.
  - apply pointer_renders; assumption.
  - apply text_renders; assumption.
  - apply help_renders; assumption.
  - apply crosshair_renders; assumption.
  - apply move_renders; assumption.
  - apply not_allowed_renders; assumption.
  - apply grab_renders; assumption.
  - apply grabbing_renders; assumption.
  - apply zoom_in_renders; assumption.
  - apply zoom_out_renders; assumption.
  - apply col_resize_renders; assumption.
  - apply row_resize_renders; assumption.
  - apply all_scroll_renders; assumption.
Qed.

Lemma resize_arrow_renders size direction :
  0 <= size < 2 ^ 31 -> In direction resize_directions ->
  renders size (generate_resize_arrow size direction).
Proof.
  intros Hsize Hin. destruct (scale_small _ Hsize) as (s & Hs & Hsmall).
  pose proof (scaled_by_bound 5 s Hsmall ltac:(simpl; lia)) as H5.
  pose proof (scaled_by_bound 8 s Hsmall ltac:(simpl; lia)) as H8.
  pose proof (scaled_by_bound 10 s Hsmall ltac:(simpl; lia)) as H10.
  assert (Hc : 0 <= size / 2 < 2 ^ 31)
    by (split; [apply Z.div_pos; lia | apply Z.div_lt_upper_bound; lia]).
  unfold resize_directions in Hin. simpl in Hin.
  repeat (destruct Hin as [<-|Hin]; [|]); try contradiction.
  all: do 2 eexists;
    (split;
     [ intros w; eexists; split;
       [ run_from w ltac:(unfold generate_resize_arrow, resize_directions_table) Hsmall
       | reflexivity ]
     | simpl; reflexivity ]).
Qed.

(** ** The two rings *)

Lemma ring_dots_total L cx cy radius dot_radius (n : nat) gray floor frame :
  libm_moderate L -> n = 12%nat \/ n = 8%nat -> Z.abs radius < 2 ^ 148 ->
  ink_is_fade n gray floor = true ->
  exists centres,
    collect (ring_point L cx cy radius (Z.of_nat n)) (range n) = Ok centres
    /\ collect (ring_dot L cx cy radius dot_radius (Z.of_nat n) gray floor frame) (range n)
       = Ok (zip_with (dot_at (Z.of_nat n) dot_radius gray floor frame) (range n) centres).
Proof.
  intros HL Hn Hr Hink.
  destruct (ring_total L cx cy radius n HL Hn Hr) as (centres & Hc).
  exists centres. split; [exact Hc|].
  apply collect_ring_dot; [exact Hink | destruct Hn; subst; lia | exact Hc].
Qed.

Lemma wait_frame_renders L size frame :
  0 <= size < 2 ^ 31 -> libm_moderate L -> renders size (generate_wait_frame L size frame).
Proof.
  intros Hsize HL. destruct (scale_small _ Hsize) as (s & Hs & Hsmall).
  destruct (ring_dots_total L (size / 2) (size / 2) (scaled_by s 8)
              (Z.max 2 (value (int_fmul lit_1_5 s))) 12 100 50 frame HL ltac:(auto)
              (scaled_by_bound 8 s Hsmall ltac:(simpl; lia)) ltac:(vm_compute; reflexivity))
    as (centres & _ & Hops).
  do 2 eexists. split.
  - intros w. exists 0%nat. split.
    + rewrite Nat.add_0_r.
      eapply wait_frame_run; [lia | exact Hs | | | exact Hops].
      * apply int_mul_value; [exact Hsmall | simpl; lia].
      * apply int_fmul_value; [exact small_literal_1_5 | exact Hsmall].
    + reflexivity.
  - rewrite surface_size_drawn_with. reflexivity.
Qed.

Lemma for_each_draw_grown {A} (f : A -> result DrawOp) (xs : list A) w (h ys : list Surface)
    i base ops :
  heap w = (h ++ ys)%list -> ys !! i = Some base -> collect f xs = Ok ops ->
  for_each xs (fun x => try* op := f x in draw_op (length h + i)%nat op) w
  = Return tt (set_heap (h ++ <[i := drawn_with base ops]> ys) w).
Proof.
  intros Hw Hi Hops.
  erewrite for_each_draw; [| rewrite Hw; apply lookup_grown; exact Hi | exact Hops].
  rewrite Hw, insert_app_r. reflexivity.
Qed.

(** The body of the loop of [generate_progress_frame] draws [ring_dot]. *)
Lemma spinner_body L (img : ref) cx cy radius dot_radius frame i w0 :
  (let angle := dot_angle i 8 in
   try* dx := int_mul radius (math_cos L angle) in
   let x := cx + dx in
   try* dy := int_mul radius (math_sin L angle) in
   let y := cy + dy in
   let offset := (i - frame) mod 8 in
   try* opacity := dot_opacity offset 8 in
   let '(a0, a1, a2) := ACCENT_COLOR in
   try* r := gradient a0 opacity 80 in
   try* g := gradient a1 opacity 80 in
   try* b := gradient a2 opacity 80 in
   draw_ellipse img (around x y dot_radius) (Some (r, g, b, Z.max 80 opacity)) None 1) w0
  = (try* op := ring_dot L cx cy radius dot_radius 8 80 80 frame i in draw_op img op) w0.
Proof.
  unfold ring_dot, ring_point, dot_ink, bind, lift, rbind, ret, raise. cbv zeta.
  destruct (int_mul radius (math_cos L (dot_angle i 8))); [|reflexivity].
  destruct (int_mul radius (math_sin L (dot_angle i 8))); [|reflexivity].
  destruct (dot_opacity ((i - frame) mod 8) 8) as [opacity|]; [|reflexivity].
  unfold ACCENT_COLOR.
  destruct (gradient 0 opacity 80); [|reflexivity].
  destruct (gradient 212 opacity 80); [|reflexivity].
  destruct (gradient 255 opacity 80); [|reflexivity].
  reflexivity.
Qed.

Lemma progress_frame_run L size frame w s xs arrow i cx r dr ops :
  generate_default size w = Return (length (heap w) + i)%nat (set_heap (heap w ++ xs)%list w) ->
  xs !! i = Some arrow ->
  scale size = Ok s -> int_mul 16 s = Ok cx -> int_mul 4 s = Ok r ->
  int_fmul lit_0_8 s = Ok dr ->
  collect (ring_dot L cx cx r (Z.max 1 dr) 8 80 80 frame) (range 8) = Ok ops ->
  generate_progress_frame L size frame w
  = Return (length (heap w) + i)%nat
      (set_heap (heap w ++ <[i := drawn_with arrow ops]> xs)%list w).
Proof.
  intros Hdef Hi Hs Hcx Hr Hdr Hops. unfold generate_progress_frame.
  erewrite bind_Return by exact Hdef.
  erewrite try_Ok by exact Hs.
  erewrite try_Ok by exact Hcx.
  erewrite try_Ok by exact Hcx.
  erewrite try_Ok by exact Hr.
  erewrite try_Ok by exact Hdr.
  erewrite bind_Return
    by (eapply ImageDraw_Draw_grown with (h := heap w); [reflexivity | exact Hi]).
  erewrite bind_Return.
  2:{ erewrite for_each_ext.
      - eapply for_each_draw_grown with (h := heap w); [reflexivity | exact Hi | exact Hops].
      - intros j w0. apply spinner_body. }
  reflexivity.
Qed.

(** [generate_default] allocates eight images; the one it returns is the
    last, the arrow composited with its shadow. *)
Lemma default_run size :
  0 <= size < 2 ^ 31 ->
  exists xs arrow,
    (forall w, generate_default size w
               = Return (length (heap w) + 7)%nat (set_heap (heap w ++ xs)%list w))
    /\ xs !! 7%nat = Some arrow /\ length xs = 8%nat
    /\ surface_size arrow = (size, size) /\ compositor_output arrow.
Proof.
  intros Hsize. destruct (scale_small _ Hsize) as (s & Hs & Hsmall).
  do 2 eexists. split; [|split; [|split; [|split]]].
  - intros w. run_from w ltac:(idtac) Hsmall.
  - reflexivity.
  - reflexivity.
  - simpl. reflexivity.
  - do 3 eexists. reflexivity.
Qed.

Lemma progress_frame_renders L size frame :
  0 <= size < 2 ^ 31 -> libm_moderate L -> renders size (generate_progress_frame L size frame).
Proof.
  intros Hsize HL. destruct (scale_small _ Hsize) as (s & Hs & Hsmall).
  destruct (default_run size Hsize) as (xs & arrow & Hdef & Harrow & Hlen & Hsz & _).
  destruct (ring_dots_total L (scaled_by s 16) (scaled_by s 16) (scaled_by s 4)
              (Z.max 1 (value (int_fmul lit_0_8 s))) 8 80 80 frame HL ltac:(auto)
              (scaled_by_bound 4 s Hsmall ltac:(simpl; lia)) ltac:(vm_compute; reflexivity))
    as (centres & _ & Hops).
  do 2 eexists. split.
  - intros w. exists 7%nat. split.
    + eapply progress_frame_run; [apply Hdef | exact Harrow | exact Hs | | | | exact Hops].
      * apply int_mul_value; [exact Hsmall | simpl; lia].
      * apply int_mul_value; [exact Hsmall | simpl; lia].
      * apply int_fmul_value; [exact small_literal_0_8 | exact Hsmall].
    + apply list_lookup_insert_eq. rewrite Hlen. lia.
  - rewrite surface_size_drawn_with. exact Hsz.
Qed.

Lemma sizes_below_2_31 size : In size sizes -> 0 <= size < 2 ^ 31.
Proof. revert size. apply sizes_cases; lia. Qed.

(** X1: at each of the four sizes of the theme every generator returns
    normally, whatever images the world holds: each of the fourteen static
    generators, [generate_resize_arrow] for each of its eight directions,
    and, with a libm whose cosines and sines are finite and below 2 in
    magnitude, [generate_wait_frame] and [generate_progress_frame] for
    every frame index, negative ones included.  The image returned is
    [size] x [size] and the same from every world; the images that existed
    before the call, the files, the directories and the log are as they
    were. *)
Theorem generators_return (size : Z) :
  In size sizes ->
  (forall name g, In (name, g) static_cursors -> renders size (g size))
  /\ (forall direction, In direction resize_directions ->
        renders size (generate_resize_arrow size direction))
  /\ (forall L frame, libm_moderate L ->
        renders size (generate_wait_frame L size frame)
        /\ renders size (generate_progress_frame L size frame)).
Proof.
  intros Hin. pose proof (sizes_below_2_31 size Hin) as Hsize. split; [|split].
  - intros name g Hg. eapply static_renders; eassumption.
  - intros direction Hd. apply resize_arrow_renders; assumption.
  - intros L frame HL. split; [apply wait_frame_renders | apply progress_frame_renders]; assumption.
Qed.

Lemma generators_return_witness :
  In 48 sizes
  /\ renders 48 (generate_resize_arrow 48 "se")
  /\ renders 48 (generate_progress_frame tabulated_libm 48 (-7)).
Proof.
  assert (Hin : In 48 sizes) by (simpl; auto).
  split; [exact Hin|]. split.
  - apply (proj1 (proj2 (generators_return 48 Hin))). simpl; tauto.
  - apply (proj2 (proj2 (generators_return 48 Hin))). exact tabulated_libm_moderate.
Defined.

(* ===================================================================== *)
(** * Directions, frames and sibling cursors *)
(* ===================================================================== *)

Lemma dict_get_missing {V} (d : list (string * V)) key :
  ~ In key (map fst d) -> dict_get d key = Err KeyError.
Proof.
  induction d as [|[k v] d IH]; intros H; simpl; [reflexivity|].
  destruct (String.eqb_spec k key) as [E|_]; [exfalso; apply H; simpl; auto|].
  apply IH. intros Hin. apply H. simpl; auto.
Qed.

(** X2: a direction that is not one of the eight keys of the table is a
    [KeyError]: [generate_resize_arrow] fails at [directions[direction]],
    after it has allocated its blank surface and before it draws
    anything.  The keys are matched as written: "N" is no direction. *)
Theorem resize_unknown_direction (size : Z) (direction : string) (w : World) :
  0 <= size < 2 ^ 31 -> ~ In direction resize_directions ->
  generate_resize_arrow size direction w
  = Raised KeyError (set_heap (heap w ++ [Blank size size]) w).
Proof.
  intros Hsize Hdir. destruct (scale_small _ Hsize) as (s & Hs & Hsmall).
  set (h := heap w) in *. rewrite (world_grown w) at 1. fold h.
  unfold generate_resize_arrow.
  erewrite bind_Return by (exec h Hsmall).
  erewrite bind_Return by (exec h Hsmall).
  erewrite try_Ok by (solve_ok Hsmall).
  erewrite try_Ok by (solve_ok Hsmall).
  erewrite try_Ok by (solve_ok Hsmall).
  erewrite try_Err by (apply dict_get_missing; exact Hdir).
  reflexivity.
Qed.

Lemma resize_unknown_direction_witness :
  generate_resize_arrow 24 "N" empty_world
  = Raised KeyError (set_heap [Blank 24 24] empty_world).
Proof.
  apply (resize_unknown_direction 24 "N" empty_world); [lia|].
  simpl. intros H. repeat (destruct H as [H|H]; [discriminate H|]). exact H.
Defined.

(** ** Frames that are the same *)

Lemma drawn_with_inj base ops ops' : drawn_with base ops = drawn_with base ops' -> ops = ops'.
Proof.
  intros H. apply (f_equal draw_ops) in H. rewrite !draw_ops_drawn_with in H.
  eapply app_inv_head. exact H.
Qed.

Lemma range_lookup (n : nat) i : 0 <= i < Z.of_nat n -> range n !! Z.to_nat i = Some i.
Proof.
  intros H. unfold range. rewrite list_lookup_fmap, lookup_seq_lt by lia. simpl. f_equal. lia.
Qed.

Lemma wait_frame_residue L size frame w :
  generate_wait_frame L size frame w = generate_wait_frame L size (frame mod 12) w.
Proof.
  unfold generate_wait_frame.
  repeat (apply bind_ext; intros).
  apply bind_cong. apply for_each_ext. intros i w0. cbv zeta.
  replace ((i - frame mod 12) mod 12) with ((i - frame) mod 12)
    by (symmetry; apply Zminus_mod_idemp_r).
  reflexivity.
Qed.

Lemma progress_frame_residue L size frame w :
  generate_progress_frame L size frame w = generate_progress_frame L size (frame mod 8) w.
Proof.
  unfold generate_progress_frame.
  repeat (apply bind_ext; intros).
  apply bind_cong. apply for_each_ext. intros i w0. cbv zeta.
  replace ((i - frame mod 8) mod 8) with ((i - frame) mod 8)
    by (symmetry; apply Zminus_mod_idemp_r).
  reflexivity.
Qed.

(** The frames of the wait cursor: one ring of centres for all of them. *)
Lemma wait_frames L size :
  0 <= size < 2 ^ 31 -> libm_moderate L ->
  exists s (centres : list Point),
    scale size = Ok s
    /\ length centres = 12%nat
    /\ forall frame,
         rendered (generate_wait_frame L size frame)
         = Some (drawn_with (Blank size size)
                   (zip_with (dot_at 12 (Z.max 2 (value (int_fmul lit_1_5 s))) 100 50 frame)
                      (range 12) centres)).
Proof.
  intros Hsize HL. destruct (scale_small _ Hsize) as (s & Hs & Hsmall).
  destruct (ring_total L (size / 2) (size / 2) (scaled_by s 8) 12 HL ltac:(auto)
              (scaled_by_bound 8 s Hsmall ltac:(simpl; lia))) as (centres & Hc).
  exists s, centres. split; [exact Hs|]. split; [apply collect_length in Hc; exact Hc|].
  intros frame. eapply wait_frame_rendered; [lia | exact Hs | | | exact Hc].
  - apply int_mul_value; [exact Hsmall | simpl; lia].
  - apply int_fmul_value; [exact small_literal_1_5 | exact Hsmall].
Qed.

(** The frames of the progress cursor: one arrow and one ring of centres
    for all of them. *)
Lemma progress_frames L size :
  0 <= size < 2 ^ 31 -> libm_moderate L ->
  exists arrow s (centres : list Point),
    rendered (generate_default size) = Some arrow
    /\ compositor_output arrow
    /\ scale size = Ok s
    /\ collect (ring_point L (scaled_by s 16) (scaled_by s 16) (scaled_by s 4) 8) (range 8)
       = Ok centres
    /\ length centres = 8%nat
    /\ forall frame,
         rendered (generate_progress_frame L size frame)
         = Some (drawn_with arrow
                   (zip_with (dot_at 8 (Z.max 1 (value (int_fmul lit_0_8 s))) 80 80 frame)
                      (range 8) centres)).
Proof.
  intros Hsize HL. destruct (scale_small _ Hsize) as (s & Hs & Hsmall).
  destruct (default_run size Hsize) as (xs & arrow & Hdef & Harrow & Hlen & _ & Hcomp).
  destruct (ring_total L (scaled_by s 16) (scaled_by s 16) (scaled_by s 4) 8 HL ltac:(auto)
              (scaled_by_bound 4 s Hsmall ltac:(simpl; lia))) as (centres & Hc).
  exists arrow, s, centres.
  split.
  { eapply yields_rendered. exists 7%nat. split; [apply Hdef | exact Harrow]. }
  split; [exact Hcomp|]. split; [exact Hs|]. split; [exact Hc|].
  split; [apply collect_length in Hc; exact Hc|].
  intros frame. eapply yields_rendered. exists 7%nat. split.
  - eapply progress_frame_run; [apply Hdef | exact Harrow | exact Hs | | | |].
    + apply int_mul_value; [exact Hsmall | simpl; lia].
    + apply int_mul_value; [exact Hsmall | simpl; lia].
    + apply int_fmul_value; [exact small_literal_0_8 | exact Hsmall].
    + apply (collect_ring_dot L _ _ _ _ 8 80 80 frame);
        [vm_compute; reflexivity | lia | exact Hc].
  - apply list_lookup_insert_eq. rewrite Hlen. lia.
Qed.

(** Two rings of dots inked for the frames [k] and [k'] are the same only
    if the dot at full opacity is the same. *)
Lemma ring_inks_differ (n : nat) d gray floor k k' (centres : list Point) :
  (0 < n)%nat -> length centres = n -> 0 <= floor < 255 ->
  (forall offset, 0 < offset < Z.of_nat n ->
     255 * (Z.of_nat n - offset) / Z.of_nat n < 255) ->
  zip_with (dot_at (Z.of_nat n) d gray floor k) (range n) centres
  = zip_with (dot_at (Z.of_nat n) d gray floor k') (range n) centres ->
  k mod Z.of_nat n = k' mod Z.of_nat n.
Proof.
  intros Hn Hlen Hfloor Hfade Hz.
  set (N := Z.of_nat n) in *.
  assert (HN : 0 < N) by (subst N; lia).
  assert (Hk : 0 <= k mod N < N) by (apply Z.mod_pos_bound; lia).
  destruct (lookup_lt_is_Some_2 centres (Z.to_nat (k mod N)) ltac:(subst N; lia)) as (c & Hc).
  apply (f_equal (fun l => l !! Z.to_nat (k mod N))) in Hz.
  rewrite !lookup_zip_with, (range_lookup n (k mod N) Hk), Hc in Hz. simpl in Hz.
  injection Hz as _ _ _ Ha.
  replace ((k mod N - k) mod N) with 0 in Ha
    by (rewrite Zminus_mod_idemp_l, Z.sub_diag; reflexivity).
  set (offset := (k mod N - k') mod N) in *.
  assert (Ho : 0 <= offset < N) by (apply Z.mod_pos_bound; lia).
  assert (Hfull : 255 * (N - 0) / N = 255).
  { rewrite Z.sub_0_r. apply Z.div_mul. lia. }
  rewrite Hfull in Ha.
  destruct (Z.eq_dec offset 0) as [E|E].
  - subst offset. rewrite Zminus_mod_idemp_l in E.
    apply Z.mod_divide in E; [|lia]. destruct E as (q & E).
    replace k with (k' + q * N) by lia. apply Z_mod_plus_full.
  - exfalso. pose proof (Hfade offset ltac:(lia)) as Hlt. lia.
Qed.

(** X3: the wait frame depends on the frame index through its residue
    modulo 12 and on nothing else of it: [generate_wait_frame] does the
    same for [frame] and [frame % 12] (a negative index included), and
    two frames are made by the same draw calls exactly when their indices
    are congruent modulo 12: otherwise the dot inked at full opacity is
    another one.  The twelve frames [main] writes are drawn pairwise
    differently. *)
Theorem wait_frame_by_residue (L : Libm) (size k k' : Z) :
  0 <= size < 2 ^ 31 -> libm_moderate L ->
  (forall w, generate_wait_frame L size k w = generate_wait_frame L size (k mod 12) w)
  /\ (rendered (generate_wait_frame L size k) = rendered (generate_wait_frame L size k')
      <-> k mod 12 = k' mod 12).
Proof.
  intros Hsize HL. split; [intros w; apply wait_frame_residue|]. split.
  - destruct (wait_frames L size Hsize HL) as (s & centres & _ & Hlen & Hr).
    rewrite (Hr k), (Hr k'). intros E.
    apply (ring_inks_differ 12 (Z.max 2 (value (int_fmul lit_1_5 s))) 100 50 k k' centres);
      [lia | exact Hlen | lia | |].
    + intros offset Ho. change (Z.of_nat 12) with 12 in *. apply Z.div_lt_upper_bound; lia.
    + apply (drawn_with_inj (Blank size size)).
      exact (f_equal (fun o => match o with Some x => x | None => Blank 0 0 end) E).
  - intros E. unfold rendered, run.
    rewrite (wait_frame_residue L size k), (wait_frame_residue L size k'), E. reflexivity.
Qed.

Lemma wait_frame_by_residue_witness :
  rendered (generate_wait_frame tabulated_libm 24 (-1))
  = rendered (generate_wait_frame tabulated_libm 24 11)
  /\ rendered (generate_wait_frame tabulated_libm 24 0)
     <> rendered (generate_wait_frame tabulated_libm 24 11).
Proof.
  split.
  - apply (proj2 (wait_frame_by_residue tabulated_libm 24 (-1) 11 ltac:(lia)
                    tabulated_libm_moderate)). reflexivity.
  - intros E.
    apply (proj2 (wait_frame_by_residue tabulated_libm 24 0 11 ltac:(lia)
                    tabulated_libm_moderate)) in E. discriminate E.
Defined.

(** X4: the progress frame depends on the frame index through its
    residue modulo 8, the number of dots of its ring:
    [generate_progress_frame] does the same for [frame] and [frame % 8],
    and two frames are made by the same draw calls exactly when their
    indices are congruent modulo 8.  Of the twelve frames [main] writes,
    the last four are the first four again. *)
Theorem progress_frame_by_residue (L : Libm) (size k k' : Z) :
  0 <= size < 2 ^ 31 -> libm_moderate L ->
  (forall w, generate_progress_frame L size k w = generate_progress_frame L size (k mod 8) w)
  /\ (rendered (generate_progress_frame L size k) = rendered (generate_progress_frame L size k')
      <-> k mod 8 = k' mod 8).
Proof.
  intros Hsize HL. split; [intros w; apply progress_frame_residue|]. split.
  - destruct (progress_frames L size Hsize HL) as (arrow & s & centres & _ & _ & _ & _ & Hlen & Hr).
    rewrite (Hr k), (Hr k'). intros E.
    apply (ring_inks_differ 8 (Z.max 1 (value (int_fmul lit_0_8 s))) 80 80 k k' centres);
      [lia | exact Hlen | lia | |].
    + intros offset Ho. change (Z.of_nat 8) with 8 in *. apply Z.div_lt_upper_bound; lia.
    + apply (drawn_with_inj arrow).
      exact (f_equal (fun o => match o with Some x => x | None => Blank 0 0 end) E).
  - intros E. unfold rendered, run.
    rewrite (progress_frame_residue L size k), (progress_frame_residue L size k'), E. reflexivity.
Qed.

Lemma progress_frame_by_residue_witness :
  rendered (generate_progress_frame tabulated_libm 24 8)
  = rendered (generate_progress_frame tabulated_libm 24 0)
  /\ rendered (generate_progress_frame tabulated_libm 24 11)
     = rendered (generate_progress_frame tabulated_libm 24 3)
  /\ rendered (generate_progress_frame tabulated_libm 24 7)
     <> rendered (generate_progress_frame tabulated_libm 24 3).
Proof.
  split; [|split].
  - apply (proj2 (progress_frame_by_residue tabulated_libm 24 8 0 ltac:(lia)
                    tabulated_libm_moderate)). reflexivity.
  - apply (proj2 (progress_frame_by_residue tabulated_libm 24 11 3 ltac:(lia)
                    tabulated_libm_moderate)). reflexivity.
  - intros E.
    apply (proj2 (progress_frame_by_residue tabulated_libm 24 7 3 ltac:(lia)
                    tabulated_libm_moderate)) in E. discriminate E.
Defined.



(** X6: [generate_help] draws on the image [generate_default] returns,
    in place.  It returns the very reference [generate_default] returned,
    the last of the eight images that call allocates; that image, the
    arrow already composited with its shadow, gets the badge, an ellipse
    of radius [int(5 * s)] around [(int(16 * s), int(16 * s))], and the
    question mark drawn on it; the other seven images, the raw arrow among
    them, and everything else in the world are as [generate_default] left
    them. *)
Theorem help_draws_on_the_default_image (size : Z) (w : World) :
  0 <= size < 2 ^ 31 ->
  exists xs arrow s c r tx ty,
    generate_default size w
    = Return (length (heap w) + 7)%nat (set_heap (heap w ++ xs)%list w)
    /\ length xs = 8%nat
    /\ xs !! 7%nat = Some arrow
    /\ compositor_output arrow
    /\ scale size = Ok s
    /\ int_mul 16 s = Ok c /\ int_mul 5 s = Ok r /\ int_mul 2 s = Ok tx /\ int_mul 4 s = Ok ty
    /\ generate_help size w
       = Return (length (heap w) + 7)%nat
           (set_heap
              (heap w ++
               <[7%nat := Drawn
                            (Drawn arrow
                               (Ellipse (around c c r) (Some (solid ACCENT_COLOR))
                                  (Some (solid ACCENT_COLOR_DARK)) 1))
                            (Text (c - tx, c - ty) "?" (solid WHITE))]> xs)%list w).
Proof.
  intros Hsize. destruct (scale_small _ Hsize) as (s & Hs & Hsmall).
  destruct (default_run size Hsize) as (xs & arrow & Hdef & Harrow & Hlen & _ & Hcomp).
  exists xs, arrow, s, (scaled_by s 16), (scaled_by s 5), (scaled_by s 2), (scaled_by s 4).
  split; [apply Hdef|]. split; [exact Hlen|]. split; [exact Harrow|].
  split; [exact Hcomp|]. split; [exact Hs|].
  split; [apply int_mul_value; [exact Hsmall | simpl; lia]|].
  split; [apply int_mul_value; [exact Hsmall | simpl; lia]|].
  split; [apply int_mul_value; [exact Hsmall | simpl; lia]|].
  split; [apply int_mul_value; [exact Hsmall | simpl; lia]|].
  unfold generate_help.
  erewrite bind_Return by apply Hdef.
  erewrite bind_Return
    by (eapply ImageDraw_Draw_grown with (h := heap w); [reflexivity | exact Harrow]).
  erewrite try_Ok by exact Hs.
  erewrite try_Ok by (solve_ok Hsmall).
  erewrite try_Ok by (solve_ok Hsmall).
  erewrite try_Ok by (solve_ok Hsmall).
  erewrite bind_Return
    by (eapply draw_op_grown with (h := heap w); [reflexivity | exact Harrow]).
  erewrite try_Ok by (solve_ok Hsmall).
  erewrite try_Ok by (solve_ok Hsmall).
  erewrite bind_Return.
  2:{ eapply draw_op_grown with (h := heap w); [reflexivity|].
      apply list_lookup_insert_eq. rewrite Hlen. lia. }
  cbn [heap set_heap]. rewrite list_insert_insert_eq. reflexivity.
Qed.

Lemma help_draws_on_the_default_image_witness :
  exists xs arrow,
    generate_default 24 empty_world = Return 7%nat (set_heap xs empty_world)
    /\ xs !! 7%nat = Some arrow
    /\ generate_help 24 empty_world
       = Return 7%nat
           (set_heap
              (<[7%nat := Drawn
                            (Drawn arrow
                               (Ellipse (11, 11, 21, 21) (Some (solid ACCENT_COLOR))
                                  (Some (solid ACCENT_COLOR_DARK)) 1))
                            (Text (14, 12) "?" (solid WHITE))]> xs) empty_world).
Proof.
  destruct (help_draws_on_the_default_image 24 empty_world ltac:(lia))
    as (xs & arrow & s & c & r & tx & ty & Hdef & _ & Harrow & _ & Hs & Hc & Hr & Htx & Hty
        & Hhelp).
  exists xs, arrow. split; [exact Hdef|]. split; [exact Harrow|].
  rewrite Hhelp.
  assert (Es : s = S754_finite false 4503599627370496 (-52))
    by (vm_compute in Hs; congruence).
  subst s.
  assert (c = 16) by (vm_compute in Hc; congruence).
  assert (r = 5) by (vm_compute in Hr; congruence).
  assert (tx = 2) by (vm_compute in Htx; congruence).
  assert (ty = 4) by (vm_compute in Hty; congruence).
  subst. reflexivity.
Defined.

(** X7: the row-resize cursor is the col-resize cursor transposed: at
    every size the two generators make the same four draw calls, on a
    fresh transparent surface, with x and y exchanged in every
    coordinate. *)
Theorem row_resize_transposes_col_resize (size : Z) :
  0 <= size < 2 ^ 31 ->
  exists col row,
    rendered (generate_col_resize size) = Some col
    /\ rendered (generate_row_resize size) = Some row
    /\ canvas col = Blank size size /\ canvas row = Blank size size
    /\ length (draw_ops col) = 4%nat
    /\ draw_ops row = map transpose_op (draw_ops col).
Proof.
  intros Hsize. destruct (scale_small _ Hsize) as (s & Hs & Hsmall).
  do 2 eexists. split; [run_fresh generate_col_resize Hsmall|].
  split; [run_fresh generate_row_resize Hsmall|].
  repeat split; reflexivity.
Qed.

Lemma row_resize_transposes_col_resize_witness :
  exists col row,
    rendered (generate_col_resize 32) = Some col
    /\ rendered (generate_row_resize 32) = Some row
    /\ draw_ops row = map transpose_op (draw_ops col).
Proof.
  destruct (row_resize_transposes_col_resize 32 ltac:(lia))
    as (col & row & H1 & H2 & _ & _ & _ & H3).
  exists col, row. repeat split; assumption.
Defined.

(** X8: the zoom-in cursor is the zoom-out cursor with one more stroke:
    at every size [generate_zoom_in] makes the three draw calls of
    [generate_zoom_out] (the glass, the handle, the horizontal bar), then
    draws the bar once more transposed, the vertical stroke of the plus,
    with the same ink, width and half length, and composites the shadow
    with the same offset and blur. *)
Theorem zoom_in_is_zoom_out_with_a_stroke (size : Z) :
  0 <= size < 2 ^ 31 ->
  exists glass offset blur c p ink width,
    rendered (generate_zoom_out size) = Some (composite glass offset blur)
    /\ rendered (generate_zoom_in size)
       = Some (composite (Drawn glass (Line [ (c, c - p); (c, c + p) ] ink width)) offset blur)
    /\ canvas glass = Blank size size
    /\ length (draw_ops glass) = 3%nat
    /\ last (draw_ops glass) = Some (Line [ (c - p, c); (c + p, c) ] ink width).
Proof.
  intros Hsize. destruct (scale_small _ Hsize) as (s & Hs & Hsmall).
  do 7 eexists. split; [run_fresh generate_zoom_out Hsmall|].
  split; [run_fresh generate_zoom_in Hsmall|].
  repeat split; reflexivity.
Qed.

Lemma zoom_in_is_zoom_out_with_a_stroke_witness :
  exists glass offset blur c p ink width,
    rendered (generate_zoom_out 48) = Some (composite glass offset blur)
    /\ rendered (generate_zoom_in 48)
       = Some (composite (Drawn glass (Line [ (c, c - p); (c, c + p) ] ink width)) offset blur).
Proof.
  destruct (zoom_in_is_zoom_out_with_a_stroke 48 ltac:(lia))
    as (glass & offset & blur & c & p & ink & width & H1 & H2 & _).
  exists glass, offset, blur, c, p, ink, width. split; assumption.
Defined.

(** ** Symmetric drawings *)

Ltac coords :=
  repeat match goal with
         | |- (_ :: _) = (_ :: _) => apply f_equal2
         | |- (_, _) = (_, _) => apply f_equal2
         end;
  first [reflexivity | lia].

Ltac same_op :=
  lazymatch goal with
  | |- Polygon _ ?f ?o = Polygon _ ?f ?o => apply (f_equal (fun xy => Polygon xy f o))
  | |- Line _ ?f ?w = Line _ ?f ?w => apply (f_equal (fun xy => Line xy f w))
  | |- Rectangle _ ?f = Rectangle _ ?f => apply (f_equal (fun b => Rectangle b f))
  | |- Ellipse _ ?f ?o ?w = Ellipse _ ?f ?o ?w => apply (f_equal (fun b => Ellipse b f o w))
  end; coords.

Ltac among :=
  cbn [In]; first [ solve [left; same_op] | right; among ].

Ltac find_mirror :=
  cbv [reflect_row reflect_column reflect_point reflect_box transpose_op transpose_box swap_xy
       map fst snd around];
  first [ solve [eexists; (split; [|apply congruent_same]); among]
        | solve [eexists; (split; [|apply congruent_triangle]); among] ].

Ltac prove_closed :=
  let op := fresh "op" in let H := fresh "H" in
  intros op H; cbn [draw_ops app negb Z.eqb] in H |- *;
  repeat (destruct H as [<-|H]; [find_mirror|]); destruct H.

(** X9: the crosshair, move and all-scroll cursors are drawn around the
    pixel [(size // 2, size // 2)] with four-fold symmetry: at every size
    the drawing, made on a fresh transparent surface, is its own mirror
    image about the pixel column [size // 2], its own mirror image about
    the pixel row [size // 2], and its own transpose; each of the three
    maps sends every shape of the drawing to a shape of the drawing. *)
Theorem centred_cursors_are_symmetric (size : Z) :
  0 <= size < 2 ^ 31 ->
  (exists s, rendered (generate_crosshair size) = Some s /\ four_fold size s)
  /\ (exists s, rendered (generate_move size) = Some s /\ four_fold size s)
  /\ (exists s, rendered (generate_all_scroll size) = Some s /\ four_fold size s).
Proof.
  intros Hsize. destruct (scale_small _ Hsize) as (s & Hs & Hsmall).
  split; [|split].
  - eexists. split; [run_fresh generate_crosshair Hsmall|].
    split; [reflexivity|]. split; [prove_closed|]. split; [prove_closed|]. prove_closed.
  - eexists. split; [run_fresh generate_move Hsmall|].
    split; [reflexivity|]. split; [prove_closed|]. split; [prove_closed|]. prove_closed.
  - eexists. split; [run_fresh generate_all_scroll Hsmall|].
    split; [reflexivity|]. split; [prove_closed|]. split; [prove_closed|]. prove_closed.
Qed.

Lemma centred_cursors_are_symmetric_witness :
  exists s, rendered (generate_move 32) = Some s /\ four_fold 32 s.
Proof. exact (proj1 (proj2 (centred_cursors_are_symmetric 32 ltac:(lia)))). Defined.

(** X10: the col-resize and the row-resize cursor are their own mirror
    images about the pixel column [size // 2] and about the pixel row
    [size // 2], at every size: the bar, the two arrowheads and the accent
    dot are sent to shapes of the same drawing.  The text cursor, whose
    serifs sit at different distances from the centre row, is its own
    mirror image about the pixel column [size // 2]. *)
Theorem bar_cursors_are_mirrored (size : Z) :
  0 <= size < 2 ^ 31 ->
  (exists s, rendered (generate_col_resize size) = Some s /\ mirrored size s)
  /\ (exists s, rendered (generate_row_resize size) = Some s /\ mirrored size s)
  /\ (exists s, rendered (generate_text size) = Some s
                /\ canvas s = Blank size size
                /\ closed_under (reflect_column (size / 2)) (draw_ops s)).
Proof.
  intros Hsize. destruct (scale_small _ Hsize) as (s & Hs & Hsmall).
  split; [|split].
  - eexists. split; [run_fresh generate_col_resize Hsmall|].
    split; [reflexivity|]. split; [prove_closed|]. prove_closed.
  - eexists. split; [run_fresh generate_row_resize Hsmall|].
    split; [reflexivity|]. split; [prove_closed|]. prove_closed.
  - eexists. split; [run_fresh generate_text Hsmall|].
    split; [reflexivity|]. prove_closed.
Qed.

Lemma bar_cursors_are_mirrored_witness :
  exists s, rendered (generate_col_resize 48) = Some s /\ mirrored 48 s.
Proof. exact (proj1 (bar_cursors_are_mirrored 48 ltac:(lia))). Defined.

(* ===================================================================== *)
(** * The image under its shadow *)
(* ===================================================================== *)

Lemma blend_identity a :
  is_byte a -> Z.shiftr (Z.shiftr (a * 255 + 128) 8 + (a * 255 + 128)) 8 = a.
Proof.
  intros H.
  assert (Hall : forallb (fun a => Z.shiftr (Z.shiftr (a * 255 + 128) 8 + (a * 255 + 128)) 8 =? a)
                   (range 256) = true) by (vm_compute; reflexivity).
  pose proof (range_forall _ 256 Hall a ltac:(unfold is_byte in H; lia)) as E.
  apply Z.eqb_eq in E. exact E.
Qed.

Lemma blend_opaque below above : is_byte above -> blend 255 below above = above.
Proof.
  intros H. unfold blend. rewrite Z.sub_diag, Z.mul_0_r, Z.add_0_l. apply blend_identity, H.
Qed.

Lemma blend_clear below above : is_byte below -> blend 0 below above = below.
Proof.
  intros H. unfold blend. rewrite Z.sub_0_r, Z.mul_0_r, Z.add_0_r. apply blend_identity, H.
Qed.

Lemma blend_px_opaque below above : is_bytes above -> blend_px 255 below above = above.
Proof.
  destruct below as [[[r1 g1] b1] a1], above as [[[r2 g2] b2] a2]. intros (Hr & Hg & Hb & Ha).
  unfold blend_px. rewrite !blend_opaque by assumption. reflexivity.
Qed.

Lemma blend_px_clear below above : is_bytes below -> blend_px 0 below above = below.
Proof.
  destruct below as [[[r1 g1] b1] a1], above as [[[r2 g2] b2] a2]. intros (Hr & Hg & Hb & Ha).
  unfold blend_px. rewrite !blend_clear by assumption. reflexivity.
Qed.

(** X11: [create_shadow] puts the shadow under the image, never over it.
    Where the image is opaque (alpha 255) the result is the pixel of the
    image, unchanged; where the image is fully transparent (alpha 0) the
    result is the shadow that lands there, and it is fully transparent
    where the shadow, moved by [offset], has no pixel to give.  (The
    channels of a pixel are bytes, 0..255.) *)
Theorem create_shadow_under_the_image (R : Rasterizer) (w : World) (image : ref)
    (offset : Point) (blur_radius : Z) (s : Surface) :
  heap w !! image = Some s ->
  0 <= fst (surface_size s) -> 0 <= snd (surface_size s) ->
  exists result w' out,
    create_shadow image offset blur_radius w = Return result w'
    /\ heap w' !! result = Some out
    /\ forall x y,
         inside (surface_size s) x y = true ->
         (alpha_of (pixel R s x y) = 255 -> is_bytes (pixel R s x y) ->
            pixel R out x y = pixel R s x y)
         /\ (alpha_of (pixel R s x y) = 0 ->
             is_bytes (shadow_under R s offset blur_radius x y) ->
               pixel R out x y = shadow_under R s offset blur_radius x y)
         /\ (alpha_of (pixel R s x y) = 0 ->
             inside (surface_size s) (x - fst offset) (y - snd offset) = false ->
               pixel R out x y = transparent).
Proof.
  intros Hs Hw Hh.
  exists (length (heap w) + 6)%nat. eexists. exists (composite s offset blur_radius).
  split; [apply create_shadow_run; eassumption|]. split.
  - cbn [heap set_heap]. rewrite lookup_app_r by lia.
    replace (length (heap w) + 6 - length (heap w))%nat with 6%nat by lia. reflexivity.
  - intros x y Hin. rewrite pixel_composite by assumption. repeat split.
    + intros Ha Hb. rewrite Ha. apply blend_px_opaque. exact Hb.
    + intros Ha Hb. rewrite Ha. apply blend_px_clear. exact Hb.
    + intros Ha Hout. rewrite Ha. unfold shadow_under. rewrite Hout.
      apply blend_px_clear. unfold transparent, is_bytes, is_byte. lia.
Qed.

Lemma create_shadow_under_the_image_witness :
  exists result w' out,
    create_shadow 0%nat (1, 1) 1 sample_world = Return result w'
    /\ heap w' !! result = Some out
    /\ pixel box_rasterizer out 1 1 = (255, 255, 255, 255)
    /\ pixel box_rasterizer out 0 0 = transparent
    /\ pixel box_rasterizer out 3 3 = (0, 0, 0, 14).
Proof.
  destruct (create_shadow_under_the_image box_rasterizer sample_world 0%nat (1, 1) 1 sample_image)
    as (result & w' & out & Hrun & Hout & Hpx); [reflexivity | simpl; lia | simpl; lia |].
  exists result, w', out. split; [exact Hrun|]. split; [exact Hout|]. split; [|split].
  - destruct (Hpx 1 1 ltac:(reflexivity)) as (H & _ & _).
    rewrite H; [reflexivity | reflexivity | vm_compute; intuition congruence].
  - destruct (Hpx 0 0 ltac:(reflexivity)) as (_ & _ & H).
    apply H; reflexivity.
  - destruct (Hpx 3 3 ltac:(reflexivity)) as (_ & H & _).
    rewrite H; [reflexivity | reflexivity | vm_compute; intuition congruence].
Defined.

(* ===================================================================== *)
(** * The files of a run *)
(* ===================================================================== *)

Lemma emits_print line : emits [] [line] (print line).
Proof.
  intros w. do 2 eexists. split; [reflexivity|]. simpl.
  split; [rewrite app_nil_r; reflexivity|]. split; [constructor|]. split; reflexivity.
Qed.

Lemma emits_seq e1 l1 e2 l2 (m k : M unit) :
  emits e1 l1 m -> emits e2 l2 k -> emits (e1 ++ e2) (l1 ++ l2) (bind m (fun _ => k)).
Proof.
  intros Hm Hk w.
  destruct (Hm w) as (w1 & n1 & E1 & F1 & R1 & S1 & D1).
  destruct (Hk w1) as (w2 & n2 & E2 & F2 & R2 & S2 & D2).
  exists w2, (n1 ++ n2)%list. unfold bind. rewrite E1, E2.
  split; [reflexivity|]. split; [rewrite F2, F1, app_assoc; reflexivity|].
  split; [apply Forall2_app; assumption|].
  split; [rewrite S2, S1, app_assoc; reflexivity | congruence].
Qed.

Lemma emits_for_each {A} (xs : list A) (f : A -> M unit) E Lg :
  (forall x, In x xs -> emits (E x) (Lg x) (f x)) ->
  emits (flat_map E xs) (flat_map Lg xs) (for_each xs f).
Proof.
  induction xs as [|x xs IH]; intros H; simpl.
  - intros w. exists w, []. split; [reflexivity|]. rewrite !app_nil_r.
    split; [reflexivity|]. split; [constructor|]. split; reflexivity.
  - apply emits_seq; [apply H; simpl; auto | apply IH; intros; apply H; simpl; auto].
Qed.

Lemma emits_save (g : M ref) path size :
  renders size g ->
  emits [(path, size, g)] [] (let* img := g in Image_save accepts_all img path).
Proof.
  intros (xs & s & Hy & Hsz) w. destruct (Hy w) as (i & Hrun & Hi).
  eexists. exists [(path, s)]. unfold bind. rewrite Hrun.
  unfold Image_save, bind, deref. cbn [heap set_heap].
  rewrite (lookup_grown _ _ _ _ Hi). unfold accepts_all.
  split; [reflexivity|]. cbn [files stdout dirs set_heap].
  split; [reflexivity|]. split.
  - constructor; [|constructor]. split; [reflexivity|].
    split; [eapply yields_rendered; apply Hy | exact Hsz].
  - split; [rewrite app_nil_r; reflexivity | reflexivity].
Qed.

Lemma sizes_in_range size_name size : In (size_name, size) SIZES -> 0 <= size < 2 ^ 31.
Proof.
  unfold SIZES. simpl. intros H.
  repeat (destruct H as [H|H]; [injection H as <- <-; lia|]). contradiction.
Qed.

(** One cursor image per size, written under the name [file]. *)
Lemma emits_sizes (g : Z -> M ref) (file : string) :
  (forall size, 0 <= size < 2 ^ 31 -> renders size (g size)) ->
  emits (map (fun '(size_name, size) =>
                (os_path_join [OUTPUT_BASE; size_name; file], size, g size)) SIZES)
    []
    (for_each SIZES (fun '(size_name, size) =>
       let* img := g size in
       Image_save accepts_all img (os_path_join [OUTPUT_BASE; size_name; file]))).
Proof.
  intros Hg.
  pose proof (emits_for_each SIZES
    (fun '(size_name, size) =>
       let* img := g size in
       Image_save accepts_all img (os_path_join [OUTPUT_BASE; size_name; file]))
    (fun '(size_name, size) => [(os_path_join [OUTPUT_BASE; size_name; file], size, g size)])
    (fun _ => [])) as H.
  replace (flat_map (fun _ : string * Z => @nil string) SIZES) with (@nil string) in H
    by reflexivity.
  replace (flat_map (fun '(size_name, size) =>
                       [(os_path_join [OUTPUT_BASE; size_name; file], size, g size)]) SIZES)
    with (map (fun '(size_name, size) =>
                 (os_path_join [OUTPUT_BASE; size_name; file], size, g size)) SIZES)
    in H by reflexivity.
  apply H. intros [size_name size] Hin.
  apply emits_save. apply Hg. eapply sizes_in_range; eassumption.
Qed.

Lemma str_in_not x xs : ~ In x xs -> str_in x xs = false.
Proof.
  intros H. destruct (str_in x xs) eqn:E; [|reflexivity].
  exfalso. apply H. apply str_in_In. exact E.
Qed.

(** No regular file of [w] sits where [main] wants a directory. *)
Lemma makedirs_each {A} (p : A -> string) (xs : list A) w :
  (forall x, In x xs -> ~ In (p x) (map fst (files w))) ->
  for_each xs (fun x => os_makedirs (p x)) w
  = Return tt {| heap := heap w; files := files w; dirs := fold_left makedir (map p xs) (dirs w);
                 stdout := stdout w |}.
Proof.
  revert w. induction xs as [|x xs IH]; intros w Hfree; simpl.
  - destruct w; reflexivity.
  - unfold bind. unfold os_makedirs at 1.
    rewrite (str_in_not _ _ (Hfree x ltac:(simpl; auto))).
    rewrite IH by (intros y Hy; apply Hfree; simpl; auto). reflexivity.
Qed.


(** [main] after the directories are made. *)
Lemma main_rest_emits L :
  libm_moderate L ->
  emits (catalog L) (skipn 1 main_log)
    (for_each static_cursors (fun '(cursor_name, generator) =>
       print ("  Generating " ++ cursor_name ++ "...") ;;
       for_each SIZES (fun '(size_name, size) =>
         let* img := generator size in
         let output_path := os_path_join [OUTPUT_BASE; size_name; cursor_name ++ ".png"] in
         Image_save accepts_all img output_path)) ;;
     for_each resize_directions (fun direction =>
       let cursor_name := direction ++ "-resize" in
       print ("  Generating " ++ cursor_name ++ "...") ;;
       for_each SIZES (fun '(size_name, size) =>
         let* img := generate_resize_arrow size direction in
         let output_path := os_path_join [OUTPUT_BASE; size_name; cursor_name ++ ".png"] in
         Image_save accepts_all img output_path)) ;;
     print "  Generating wait animation..." ;;
     for_each (range num_frames) (fun frame =>
       for_each SIZES (fun '(size_name, size) =>
         let* img := generate_wait_frame L size frame in
         let output_path :=
           os_path_join [OUTPUT_BASE; size_name; "wait-" ++ format_02d (frame + 1) ++ ".png"] in
         Image_save accepts_all img output_path)) ;;
     print "  Generating progress animation..." ;;
     for_each (range num_frames) (fun frame =>
       for_each SIZES (fun '(size_name, size) =>
         let* img := generate_progress_frame L size frame in
         let output_path :=
           os_path_join [OUTPUT_BASE; size_name; "progress-" ++ format_02d (frame + 1) ++ ".png"] in
         Image_save accepts_all img output_path)) ;;
     print "Done! Cursor images generated in src/").
Proof.
  intros HL.
  set (per_file := fun (file : string) (g : Z -> M ref) =>
         map (fun '(size_name, size) =>
                (os_path_join [OUTPUT_BASE; size_name; file], size, g size)) SIZES).
  assert (Hstatic : emits
            (flat_map (fun c : string * (Z -> M ref) => per_file (fst c ++ ".png") (snd c))
               static_cursors)
            (flat_map (fun c : string * (Z -> M ref) => ["  Generating " ++ fst c ++ "..."])
               static_cursors)
            (for_each static_cursors (fun '(cursor_name, generator) =>
               print ("  Generating " ++ cursor_name ++ "...") ;;
               for_each SIZES (fun '(size_name, size) =>
                 let* img := generator size in
                 let output_path := os_path_join [OUTPUT_BASE; size_name; cursor_name ++ ".png"] in
                 Image_save accepts_all img output_path)))).
  { apply (emits_for_each static_cursors). intros [name g] Hin. cbn [fst snd].
    apply (emits_seq [] [_] _ []); [apply emits_print|].
    apply (emits_sizes g). intros size Hsize. eapply static_renders; eassumption. }
  assert (Hresize : emits
            (flat_map (fun d : string =>
                         per_file ((d ++ "-resize") ++ ".png")
                           (fun size => generate_resize_arrow size d))
               resize_directions)
            (flat_map (fun d : string => ["  Generating " ++ (d ++ "-resize") ++ "..."])
               resize_directions)
            (for_each resize_directions (fun direction =>
               let cursor_name := direction ++ "-resize" in
               print ("  Generating " ++ cursor_name ++ "...") ;;
               for_each SIZES (fun '(size_name, size) =>
                 let* img := generate_resize_arrow size direction in
                 let output_path := os_path_join [OUTPUT_BASE; size_name; cursor_name ++ ".png"] in
                 Image_save accepts_all img output_path)))).
  { apply (emits_for_each resize_directions). intros d Hin. cbv zeta.
    apply (emits_seq [] [_] _ []); [apply emits_print|].
    apply (emits_sizes (fun size => generate_resize_arrow size d)).
    intros size Hsize. apply resize_arrow_renders; assumption. }
  assert (Hwait : emits
            (flat_map (fun frame : Z =>
                         per_file ("wait-" ++ format_02d (frame + 1) ++ ".png")
                           (fun size => generate_wait_frame L size frame))
               (range num_frames))
            (flat_map (fun _ : Z => []) (range num_frames))
            (for_each (range num_frames) (fun frame =>
               for_each SIZES (fun '(size_name, size) =>
                 let* img := generate_wait_frame L size frame in
                 let output_path :=
                   os_path_join [OUTPUT_BASE; size_name; "wait-" ++ format_02d (frame + 1) ++ ".png"] in
                 Image_save accepts_all img output_path)))).
  { apply (emits_for_each (range num_frames)). intros frame Hin.
    apply (emits_sizes (fun size => generate_wait_frame L size frame)).
    intros size Hsize. apply wait_frame_renders; assumption. }
  assert (Hprogress : emits
            (flat_map (fun frame : Z =>
                         per_file ("progress-" ++ format_02d (frame + 1) ++ ".png")
                           (fun size => generate_progress_frame L size frame))
               (range num_frames))
            (flat_map (fun _ : Z => []) (range num_frames))
            (for_each (range num_frames) (fun frame =>
               for_each SIZES (fun '(size_name, size) =>
                 let* img := generate_progress_frame L size frame in
                 let output_path :=
                   os_path_join [OUTPUT_BASE; size_name;
                                 "progress-" ++ format_02d (frame + 1) ++ ".png"] in
                 Image_save accepts_all img output_path)))).
  { apply (emits_for_each (range num_frames)). intros frame Hin.
    apply (emits_sizes (fun size => generate_progress_frame L size frame)).
    intros size Hsize. apply progress_frame_renders; assumption. }
  pose proof (emits_seq _ _ _ _ _ _ Hstatic
               (emits_seq _ _ _ _ _ _ Hresize
                  (emits_seq _ _ _ _ _ _ (emits_print "  Generating wait animation...")
                     (emits_seq _ _ _ _ _ _ Hwait
                        (emits_seq _ _ _ _ _ _ (emits_print "  Generating progress animation...")
                           (emits_seq _ _ _ _ _ _ Hprogress
                              (emits_print "Done! Cursor images generated in src/"))))))) as H.
  exact H.
Qed.

(** A run of [main] with an encoder that accepts every image. *)
Lemma main_run L w :
  libm_moderate L ->
  (forall d, In d size_dirs -> ~ In d (map fst (files w))) ->
  exists w' new,
    main L accepts_all w = Return tt w'
    /\ files w' = (files w ++ new)%list
    /\ Forall2 written (catalog L) new
    /\ stdout w' = (stdout w ++ main_log)%list
    /\ dirs w' = fold_left makedir size_dirs (dirs w).
Proof.
  intros HL Hfree. unfold main.
  unfold bind at 1. unfold print at 1.
  unfold bind at 1. rewrite makedirs_each.
  2:{ intros size_name Hin. cbn [files]. apply Hfree.
      simpl in Hin. simpl. intuition (subst; auto). }
  match goal with |- context [?m ?w0 = _] =>
    lazymatch m with bind _ _ =>
      destruct (main_rest_emits L HL w0) as (w' & new & Hrun & Hf & Hall & Hs & Hd) end end.
  exists w', new. split; [exact Hrun|].
  cbn [files stdout dirs] in Hf, Hs, Hd.
  split; [exact Hf|]. split; [exact Hall|]. split.
  - rewrite Hs, <- app_assoc. reflexivity.
  - rewrite Hd. reflexivity.
Qed.

Lemma written_paths expected new :
  Forall2 written expected new -> map fst new = map (fun e => fst (fst e)) expected.
Proof.
  induction 1 as [|[[path size] m] f es fs (H & _) _ IH]; simpl; [reflexivity|]. congruence.
Qed.

Lemma catalog_has_paths L : map (fun e => fst (fst e)) (catalog L) = catalog_paths.
Proof. reflexivity. Qed.

Lemma catalog_paths_distinct : NoDup catalog_paths.
Proof. apply (bool_decide_unpack _). vm_compute. reflexivity. Qed.

Lemma NoDup_prefix {A} (l k : list A) : NoDup (l ++ k) -> NoDup l.
Proof. intros H. apply NoDup_app in H. tauto. Qed.

(** X12: with a math library whose sines and cosines are moderate and an
    encoder that accepts every image, [main], run where nothing exists
    yet, returns normally.  It has made the four size directories, printed
    the 26 lines of its log, and written 184 files: for each of the 46
    cursors, in the order of the script, one file per size under
    [./<size_name>/<cursor>.png], each holding the image its generator
    renders at that size, [size] x [size] pixels. *)
Theorem main_writes_catalog (L : Libm) :
  libm_moderate L ->
  exists w,
    run (main L accepts_all) = Return tt w
    /\ Forall2 written (catalog L) (files w)
    /\ map fst (files w) = catalog_paths
    /\ length (files w) = 184%nat
    /\ stdout w = main_log
    /\ dirs w = size_dirs.
Proof.
  intros HL.
  destruct (main_run L empty_world HL ltac:(intros d _ []))
    as (w & new & Hrun & Hf & Hall & Hs & Hd).
  simpl in Hf, Hs. subst new.
  exists w. split; [exact Hrun|]. split; [exact Hall|].
  pose proof (written_paths _ _ Hall) as Hp. rewrite catalog_has_paths in Hp.
  split; [exact Hp|]. split.
  - rewrite <- (length_map fst), Hp. reflexivity.
  - split; [exact Hs | rewrite Hd; reflexivity].
Qed.

Lemma main_writes_catalog_witness :
  exists w,
    run (main tabulated_libm accepts_all) = Return tt w
    /\ Forall2 written (catalog tabulated_libm) (files w)
    /\ length (files w) = 184%nat.
Proof.
  destruct (main_writes_catalog tabulated_libm tabulated_libm_moderate)
    as (w & Hrun & Hall & _ & Hlen & _).
  exists w. split; [exact Hrun|]. split; [exact Hall | exact Hlen].
Defined.

(** X13: a run of [main] never writes the same path twice, whatever the
    encoder does: the paths of the files it has written when it stops,
    normally or at the first image the encoder rejects, are pairwise
    different, so no cursor image of a run replaces another of the same
    run. *)
Theorem main_never_overwrites (L : Libm) (encoder : string -> Surface -> bool) :
  libm_moderate L ->
  NoDup (map fst (files (world_of (run (main L encoder))))).
Proof.
  intros HL.
  destruct (main_run L empty_world HL ltac:(intros d _ [])) as (w & new & Hrun & Hf & Hall & _).
  simpl in Hf. subst new.
  assert (Hfull : NoDup (map fst (files w))).
  { rewrite (written_paths _ _ Hall), catalog_has_paths. exact catalog_paths_distinct. }
  pose proof (respects_main encoder L empty_world) as H.
  assert (Ha : accepted encoder (files empty_world)) by (intros q t []).
  specialize (H Ha). rewrite !run_eq. rewrite Hrun in H.
  generalize dependent (main L encoder empty_world). intros o H.
  inversion H as [o' Hacc | o1 w2 p s rest Hfiles Hrej Hacc Hlog]; subst.
  - exact Hfull.
  - simpl in Hfiles. simpl. rewrite Hfiles, map_app in Hfull.
    eapply NoDup_prefix; exact Hfull.
Qed.

Lemma main_never_overwrites_witness :
  NoDup (map fst (files (world_of (run (main tabulated_libm (fails_on "./x2/help.png")))))).
Proof. apply (main_never_overwrites tabulated_libm _ tabulated_libm_moderate). Defined.

(** ** Running main again *)

Lemma makedir_In ds p d : In d (makedir ds p) <-> In d ds \/ d = p.
Proof.
  unfold makedir. destruct (str_in p ds) eqn:E.
  - apply str_in_In in E. split; [tauto|]. intros [H| ->]; assumption.
  - rewrite in_app_iff. simpl. split; [intros [H|[<-|[]]]; auto | intros [H| ->]; auto].
Qed.

Lemma makedirs_In ps : forall ds d, In d (fold_left makedir ps ds) <-> In d ds \/ In d ps.
Proof.
  induction ps as [|p ps IH]; intros ds d; simpl; [tauto|].
  rewrite IH, makedir_In. split; intros H; intuition auto.
Qed.

Lemma makedirs_prefix ps : forall ds, ds `prefix_of` fold_left makedir ps ds.
Proof.
  induction ps as [|p ps IH]; intros ds; simpl; [reflexivity|].
  etransitivity; [|apply IH]. unfold makedir. destruct (str_in p ds); [reflexivity|].
  apply prefix_app_r. reflexivity.
Qed.

Lemma makedirs_present ps : forall ds, (forall p, In p ps -> In p ds) -> fold_left makedir ps ds = ds.
Proof.
  induction ps as [|p ps IH]; intros ds H; simpl; [reflexivity|].
  unfold makedir at 2. replace (str_in p ds) with true
    by (symmetry; apply str_in_In; apply H; simpl; auto).
  apply IH. intros q Hq. apply H. simpl; auto.
Qed.

Lemma size_dirs_hold_no_image : forall d, In d size_dirs -> ~ In d catalog_paths.
Proof.
  assert (H : forallb (fun d => negb (str_in d catalog_paths)) size_dirs = true)
    by (vm_compute; reflexivity).
  rewrite forallb_forall in H. intros d Hd Hin. specialize (H d Hd).
  apply str_in_In in Hin. rewrite Hin in H. discriminate H.
Qed.

(** X14: [main] can be run where it has run before:
    [os.makedirs(..., exist_ok=True)] does not fail on a directory that
    exists.  From any world in which no regular file has the path of a
    size directory, and with an encoder that writes every image, the run
    returns normally, keeps the directories there were, in their order,
    and adds exactly the size directories that were missing; a second run
    from there returns normally too, adds no directory and writes the
    same 184 paths again, in the same order. *)
Theorem main_can_run_again (L : Libm) (w : World) :
  libm_moderate L ->
  (forall d, In d size_dirs -> ~ In d (map fst (files w))) ->
  exists w1 w2,
    main L accepts_all w = Return tt w1
    /\ main L accepts_all w1 = Return tt w2
    /\ (forall d, In d (dirs w1) <-> In d (dirs w) \/ In d size_dirs)
    /\ dirs w `prefix_of` dirs w1
    /\ dirs w2 = dirs w1
    /\ map fst (drop (length (files w)) (files w2)) = (catalog_paths ++ catalog_paths)%list.
Proof.
  intros HL Hfree.
  destruct (main_run L w HL Hfree) as (w1 & new1 & Hrun1 & Hf1 & Hall1 & _ & Hd1).
  assert (Hfree1 : forall d, In d size_dirs -> ~ In d (map fst (files w1))).
  { intros d Hd. rewrite Hf1, map_app, in_app_iff.
    rewrite (written_paths _ _ Hall1), catalog_has_paths.
    intros [H|H]; [exact (Hfree d Hd H) | exact (size_dirs_hold_no_image d Hd H)]. }
  destruct (main_run L w1 HL Hfree1) as (w2 & new2 & Hrun2 & Hf2 & Hall2 & _ & Hd2).
  exists w1, w2. split; [exact Hrun1|]. split; [exact Hrun2|]. split.
  { intros d. rewrite Hd1. apply makedirs_In. }
  split.
  { rewrite Hd1. apply makedirs_prefix. }
  split.
  { rewrite Hd2. apply makedirs_present. intros p Hp. rewrite Hd1. apply makedirs_In. auto. }
  rewrite Hf2, Hf1, <- app_assoc, drop_app_length, map_app.
  rewrite (written_paths _ _ Hall1), (written_paths _ _ Hall2), catalog_has_paths. reflexivity.
Qed.

Lemma main_can_run_again_witness :
  exists w1 w2,
    main tabulated_libm accepts_all empty_world = Return tt w1
    /\ main tabulated_libm accepts_all w1 = Return tt w2
    /\ dirs w1 = size_dirs
    /\ dirs w2 = size_dirs.
Proof.
  destruct (main_can_run_again tabulated_libm empty_world tabulated_libm_moderate
              ltac:(intros d _ []))
    as (w1 & w2 & H1 & H2 & _ & _ & H3 & _).
  exists w1, w2. split; [exact H1|]. split; [exact H2|].
  assert (Hd : dirs w1 = size_dirs).
  { destruct (main_run tabulated_libm empty_world tabulated_libm_moderate ltac:(intros d _ []))
      as (w1' & new & Hrun & _ & _ & _ & Hd).
    assert (w1' = w1) by congruence. subst w1'. rewrite Hd. reflexivity. }
  split; [exact Hd | congruence].
Defined.



(* ===================================================================== *)
(** * Coordinates on the surface *)
(* ===================================================================== *)

(** X15: at each of the four sizes of the theme, no cursor is drawn off
    its surface: every coordinate handed to a draw call, vertex of a
    polygon or a line, corner of a box, anchor of a text, is a pixel of the
    [size] x [size] image, for the fourteen static cursors, the eight resize
    arrows, and, with the tabulated sines and cosines, the twelve frames of
    the wait and of the progress animation. *)
Theorem drawings_stay_inside (size : Z) :
  In size sizes ->
  (forall name g, In (name, g) static_cursors -> drawn_inside size (g size) = true)
  /\ (forall direction, In direction resize_directions ->
        drawn_inside size (generate_resize_arrow size direction) = true)
  /\ (forall frame, 0 <= frame < 12 ->
        drawn_inside size (generate_wait_frame tabulated_libm size frame) = true
        /\ drawn_inside size (generate_progress_frame tabulated_libm size frame) = true).
Proof.
  intros Hin.
  assert (Hall : forallb all_drawn_inside sizes = true) by (vm_compute; reflexivity).
  rewrite forallb_forall in Hall. specialize (Hall size Hin).
  unfold all_drawn_inside in Hall.
  apply andb_true_iff in Hall as [Hall Hframes]. apply andb_true_iff in Hall as [Hstatic Hresize].
  split; [|split].
  - intros name g Hi. rewrite forallb_forall in Hstatic. exact (Hstatic (name, g) Hi).
  - intros direction Hi. rewrite forallb_forall in Hresize. exact (Hresize direction Hi).
  - intros frame Hframe. pose proof (range_forall _ 12 Hframes frame Hframe) as H.
    apply andb_true_iff in H. exact H.
Qed.

Lemma drawings_stay_inside_witness :
  drawn_inside 24 (generate_move 24) = true
  /\ drawn_inside 24 (generate_resize_arrow 24 "ne") = true
  /\ drawn_inside 24 (generate_progress_frame tabulated_libm 24 11) = true.
Proof.
  destruct (drawings_stay_inside 24 ltac:(simpl; auto)) as (Hs & Hr & Hf).
  split; [|split].
  - apply (Hs "move"). simpl. auto 10.
  - apply Hr. simpl. auto 10.
  - apply (Hf 11). lia.
Defined.
